(** * Symphony: the autoregressive generation step of [models.py]

    A shallow embedding of the prediction heads, the segment sampler and
    the grid helpers of [models.py] and [symphony/models/position_predictor.py],
    with the properties the specification states about them.

    Conventions of the embedding.
    - Python integers are [Z] (unbounded); array lengths and indices are
      [nat]; the int32 entries of an index array wrap around, [wrap_int32].
    - The arrays of the networks are lists of real numbers [R]: arithmetic is
      exact, so "within tolerance" reads as equality.  Where a property
      depends on rounding, the radial bins and the order of their entries,
      the arrays are lists of binary32 numbers, [Float32], computed under
      the underflow of the backend, [IEEE754.underflow].
    - A Python call either returns a value or raises: [outcome].
    - Learned layers and library networks (haiku, e3nn, mace_jax) are
      fields of the model records or variables of the sections that use
      them; [jax.random] is an interface, [PRNG]. *)

From Stdlib Require Import String.
From Stdlib Require Import List ZArith Lia Bool Arith.
From Stdlib Require Import Reals Lra.
From Stdlib Require QArith Qround Qabs Qpower Lqa.
Import ListNotations.

Set Implicit Arguments.

(** ** Outcomes of a Python call *)

Inductive exn : Type :=
| ValueError
| AssertionError
| AttributeError
| TypeError
| IndexError
| UnboundLocalError
| ZeroDivisionError
| OverflowError.

Inductive outcome (A : Type) : Type :=
| Returned (v : A)
| Raised (e : exn).

Arguments Returned {A} v.
Arguments Raised {A} e.

Definition bind {A B : Type} (c : outcome A) (k : A -> outcome B) : outcome B :=
  match c with
  | Returned v => k v
  | Raised e => Raised e
  end.

Notation "x <- c ;; k" := (bind c (fun x => k))
  (at level 61, c at next level, right associativity).

(** [assert cond] of Python, with assertions enabled. *)
Definition assert (cond : bool) : outcome unit :=
  if cond then Returned tt else Raised AssertionError.

(** Reading an optional integer where an integer is needed: arithmetic on
    [None] raises [TypeError]. *)
Definition int_of (x : option Z) : outcome Z :=
  match x with
  | Some v => Returned v
  | None => Raised TypeError
  end.

Definition is_none {A : Type} (x : option A) : bool :=
  match x with
  | None => true
  | Some _ => false
  end.

(** ** Arrays

    One-dimensional arrays are lists.  The operations below are the ones of
    [jax.numpy] that the source calls, written on lists. *)

Open Scope R_scope.

Definition Rsum (xs : list R) : R := fold_right Rplus 0 xs.

(** [jnp.cumsum] on reals and on node counts. *)
Fixpoint cumsum_from (acc : R) (xs : list R) : list R :=
  match xs with
  | [] => []
  | x :: rest => (acc + x) :: cumsum_from (acc + x) rest
  end.

Definition cumsum (xs : list R) : list R := cumsum_from 0 xs.

Fixpoint cumsum_nat_from (acc : nat) (xs : list nat) : list nat :=
  match xs with
  | [] => []
  | x :: rest => (acc + x)%nat :: cumsum_nat_from (acc + x) rest
  end.

Definition cumsum_nat (xs : list nat) : list nat := cumsum_nat_from 0 xs.

(** [x[idx]] for one integer index: an index past the end is clamped to the
    last element; an empty array has nothing to read. *)
Definition getitem {A : Type} (xs : list A) (i : nat) : outcome A :=
  match nth_error xs (Nat.min i (length xs - 1)) with
  | Some x => Returned x
  | None => Raised IndexError
  end.

(** [x[idx]] for an index array. *)
Fixpoint take {A : Type} (xs : list A) (idx : list nat) : outcome (list A) :=
  match idx with
  | [] => Returned []
  | i :: rest =>
      x <- getitem xs i ;;
      xs' <- take xs rest ;;
      Returned (x :: xs')
  end.

(** [x[-1]]. *)
Definition last_item (xs : list R) : outcome R :=
  match xs with
  | [] => Raised IndexError
  | x :: rest => Returned (last rest x)
  end.

(** [jnp.repeat(jnp.arange(len(repeats)), repeats, total_repeat_length=total)]:
    entry [g] is written [repeats[g]] times; the result is cut to [total]
    entries, or filled up to [total] with the last entry. *)
Definition repeat_arange (repeats : list nat) (total : nat) : list nat :=
  let full :=
    flat_map (fun gn => repeat (fst gn) (snd gn))
             (combine (seq 0 (length repeats)) repeats) in
  firstn total (full ++ repeat (length repeats - 1)%nat (total - length full)).

(** [jnp.where(i == ids, values, 0.)], with the broadcast of a length-one
    operand; other length mismatches raise. *)
Definition where_eq (i : nat) (ids : list nat) (values : list R)
  : outcome (list R) :=
  let pick (sv : nat * R) := if (i =? fst sv)%nat then snd sv else 0 in
  if (length ids =? length values)%nat then
    Returned (map pick (combine ids values))
  else
    match ids, values with
    | [s], _ => Returned (map (fun v => pick (s, v)) values)
    | _, [v] => Returned (map (fun s => pick (s, v)) ids)
    | _, _ => Raised ValueError
    end.

(** [jnp.searchsorted(a, v)] (left side) on a sorted array: the number of
    leading entries strictly below [v]. *)
Fixpoint searchsorted (a : list R) (v : R) : nat :=
  match a with
  | [] => 0%nat
  | x :: rest => if Rlt_dec x v then S (searchsorted rest v) else 0%nat
  end.

(** [jnp.linspace(start, stop, num)] with the end point included, in exact
    arithmetic: the first [num - 1] entries interpolate, the last one is
    [stop] itself.  [Float32.linspace] is the same function with the
    rounding of the arrays. *)
Definition linspace (start stop : R) (num : nat) : list R :=
  match num with
  | 0%nat => []
  | 1%nat => [start]
  | S div =>
      map (fun i => start * (1 - INR i / INR div) + stop * (INR i / INR div))
          (seq 0 div)
      ++ [stop]
  end.

(** The ceiling of a real number, from [up] ([r < up r <= r + 1]). *)
Definition Rceil (r : R) : Z := (1 - up (- r))%Z.

(** [jnp.arange(start, stop, step)] on reals:
    [ceil((stop - start) / step)] entries [start + i * step]. *)
Definition arange (start stop step : R) : list R :=
  map (fun i => start + INR i * step)
      (seq 0 (Z.to_nat (Rceil ((stop - start) / step)))).

(** [jax.nn.softmax] of one row. *)
Definition Rmax_list (xs : list R) : option R :=
  match xs with
  | [] => None
  | x :: rest => Some (fold_left Rmax rest x)
  end.

Definition softmax (row : list R) : list R :=
  match Rmax_list row with
  | None => []
  | Some m =>
      let unnormalized := map (fun x => exp (x - m)) row in
      map (fun e => e / Rsum unnormalized) unnormalized
  end.

(** ** [jraph]: per-segment reductions and the partition softmax *)

Definition segment_members {A : Type} (data : list A) (ids : list nat) (g : nat)
  : list A :=
  map fst (filter (fun p => (snd p =? g)%nat) (combine data ids)).

Definition segment_sum (data : list R) (ids : list nat) (num_segments : nat)
  : list R :=
  map (fun g => Rsum (segment_members data ids g)) (seq 0 num_segments).

(** The maximum of an empty segment is minus infinity in the source; it is
    [None] here. *)
Definition segment_max (data : list R) (ids : list nat) (num_segments : nat)
  : list (option R) :=
  map (fun g => Rmax_list (segment_members data ids g)) (seq 0 num_segments).

(** [jraph.segment_softmax], in its three steps: subtract the segment
    maximum, exponentiate and sum per segment, divide by the normalizer of
    the node's segment.  A node reads the maximum of its own segment, which
    has the node as a member; the [None] branch is for an identifier
    outside [0, num_segments). *)
Definition segment_shift (logits : list R) (ids : list nat) (num_segments : nat)
  : list R :=
  let maxs := segment_max logits ids num_segments in
  map (fun ls => match nth (snd ls) maxs None with
                 | Some m => fst ls - m
                 | None => fst ls
                 end)
      (combine logits ids).

Definition segment_normalizers (logits : list R) (ids : list nat)
    (num_segments : nat) : list R :=
  let exps := map exp (segment_shift logits ids num_segments) in
  segment_sum exps ids num_segments.

Definition segment_softmax (logits : list R) (ids : list nat) (num_segments : nat)
  : list R :=
  let exps := map exp (segment_shift logits ids num_segments) in
  let normalizers := segment_normalizers logits ids num_segments in
  map (fun es => fst es / nth (snd es) normalizers 0) (combine exps ids).

(** [jraph.partition_softmax(logits, partitions, sum_partitions)]. *)
Definition partition_softmax (logits : list R) (partitions : list nat)
    (sum_partitions : nat) : list R :=
  let n_partitions := length partitions in
  let segment_ids := repeat_arange partitions sum_partitions in
  segment_softmax logits segment_ids n_partitions.

Close Scope R_scope.

(** ** [jax.random]

    Keys are opaque; [split] and [uniform] are deterministic functions of
    the key.  [uniform] draws from the half-open interval [[0, 1)] and
    [split key num] returns [num] keys. *)

Class PRNG (Key : Type) : Type := {
  split : Key -> nat -> list Key;
  uniform : Key -> R;
  split_length : forall key num, length (split key num) = num;
  uniform_range : forall key, (0 <= uniform key < 1)%R
}.

Section Random.

Context {Key : Type} `{PRNG Key}.

(** [key, subkey = jax.random.split(key)]. *)
Definition split2 (key : Key) : outcome (Key * Key) :=
  match split key 2 with
  | [k1; k2] => Returned (k1, k2)
  | _ => Raised ValueError
  end.

(** [jax.random.choice(key, a, p=p)] for one draw: inverse transform
    sampling on the cumulative sums of [p].  For non-negative weights the
    cumulative sums are sorted and the index found lies inside [a]. *)
Definition choice {A : Type} (key : Key) (a : list A) (p : list R) : outcome A :=
  if negb (length p =? length a) then Raised ValueError
  else
    let p_cuml := cumsum p in
    total <- last_item p_cuml ;;
    let r := (total * (1 - uniform key))%R in
    let ind := searchsorted p_cuml r in
    getitem a ind.

End Random.

(** ** Module-level definitions of [models.py] *)

Definition RADII : list R := arange 0.75 2.03 0.02.

Definition NUM_ELEMENTS : nat := 5.

(** [get_first_node_indices], on the node counts of the batch. *)
Definition get_first_node_indices (n_node : list nat) : list nat :=
  [0] ++ removelast (cumsum_nat n_node).

(** The same function on the machine integers of the arrays: [n_node] is an
    array of [int32], and [jnp.cumsum] adds with wrap-around. *)
Definition wrap_int32 (z : Z) : Z := ((z + 2 ^ 31) mod 2 ^ 32 - 2 ^ 31)%Z.

Fixpoint cumsum_int32_from (acc : Z) (xs : list Z) : list Z :=
  match xs with
  | [] => []
  | x :: rest =>
      let acc' := wrap_int32 (acc + x) in
      acc' :: cumsum_int32_from acc' rest
  end.

Definition cumsum_int32 (xs : list Z) : list Z := cumsum_int32_from 0 xs.

Definition get_first_node_indices_int32 (n_node : list Z) : list Z :=
  [0%Z] ++ removelast (cumsum_int32 n_node).

Section SegmentSample.

Context {Key : Type} `{PRNG Key}.

(** [jax.vmap] of a fallible function over two arrays of one length. *)
Fixpoint vmap2 {A B C : Type} (f : A -> B -> outcome C)
    (xs : list A) (ys : list B) : outcome (list C) :=
  match xs, ys with
  | [], [] => Returned []
  | x :: xs', y :: ys' =>
      z <- f x y ;;
      zs <- vmap2 f xs' ys' ;;
      Returned (z :: zs)
  | _, _ => Raised ValueError
  end.

Definition sample_for_segment (probabilities : list R) (segment_ids : list nat)
    (node_indices : list nat) (rng : Key) (i : nat) : outcome nat :=
  p <- where_eq i segment_ids probabilities ;;
  choice rng node_indices p.

Definition segment_sample (probabilities : list R) (segment_ids : list nat)
    (num_segments : nat) (rng : Key) : outcome (list nat) :=
  let node_indices := seq 0 (length segment_ids) in
  let rngs := split rng num_segments in
  vmap2 (sample_for_segment probabilities segment_ids node_indices)
        rngs (seq 0 num_segments).

End SegmentSample.

(** ** Geometry: positions *)

Open Scope R_scope.

Definition Vec3 : Type := (R * R * R)%type.

Definition vsub (a b : Vec3) : Vec3 :=
  let '(a1, a2, a3) := a in
  let '(b1, b2, b3) := b in
  (a1 - b1, a2 - b2, a3 - b3).

Close Scope R_scope.

(** ** [e3nn]: arrays of irreducible representations

    An [IrrepsArray] carries its irreps, a list of [mul x (l, parity)], and
    its data in chunks: for every irrep of the list, [mul] coefficient
    vectors of [2 l + 1] entries.  [Irreps1] has one leading axis (one row
    per node or per graph), [Irreps2] two. *)

Record Irrep : Type := { l : nat; odd : bool }.

Definition Irreps : Type := list (nat * Irrep).

Definition irreps_dim (irreps : Irreps) : nat :=
  fold_right (fun mi acc => fst mi * (2 * l (snd mi) + 1) + acc) 0 irreps.

(** The chunks of one row: [chunks[c][u]] is copy [u] of irrep [c]. *)
Definition Chunks : Type := list (list (list R)).

Record Irreps1 : Type := { irreps1 : Irreps; rows1 : list Chunks }.

Record Irreps2 : Type := { irreps2 : Irreps; rows2 : list (list Chunks) }.

(** [x.axis_to_mul(axis=1)]: the axis of size [n] is folded into the
    multiplicities; chunk [c] of a row collects chunk [c] of each of its
    [n] entries, in order. *)
Definition axis_to_mul (n : nat) (x : Irreps2) : Irreps1 :=
  {| irreps1 := map (fun mi => (n * fst mi, snd mi)) (irreps2 x);
     rows1 :=
       map (fun row =>
              map (fun c => flat_map (fun entry => nth c entry []) row)
                  (seq 0 (length (irreps2 x))))
           (rows2 x) |}.

(** [x.filter(keep="0e")]. *)
Definition is_0e (ir : Irrep) : bool := (l ir =? 0) && negb (odd ir).

Definition filter_0e_chunks (irreps : Irreps) (chunks : Chunks) : Chunks :=
  map snd (filter (fun ic => is_0e (snd (fst ic))) (combine irreps chunks)).

Definition filter_0e (x : Irreps1) : Irreps1 :=
  {| irreps1 := filter (fun mi => is_0e (snd mi)) (irreps1 x);
     rows1 := map (filter_0e_chunks (irreps1 x)) (rows1 x) |}.

(** [x[idx]] on the leading axis. *)
Definition take1 (x : Irreps1) (idx : list nat) : outcome Irreps1 :=
  rows <- take (rows1 x) idx ;;
  Returned {| irreps1 := irreps1 x; rows1 := rows |}.

(** ** [datatypes]: fragments and predictions

    Modelled from the spec: the containers of the [datatypes] module, which
    the source imports; the fields are the ones [models.py] reads and
    builds. *)

Record NodesInfo : Type := {
  positions : list Vec3;
  species : list nat
}.

Record FragmentsGlobals : Type := {
  stop : list bool;
  target_species : list nat;
  target_positions : list Vec3
}.

Record Fragment : Type := {
  nodes : NodesInfo;
  senders : list nat;
  receivers : list nat;
  n_node : list nat;
  n_edge : list nat;
  globals : FragmentsGlobals
}.

(** Position coefficients: per graph, per radius, one set of chunks.  The
    fields carry a prefix, as the methods that fill them have their names. *)
Record Predictions : Type := {
  pred_focus_logits : list R;
  pred_target_species_logits : list (list R);
  pred_position_coeffs : Irreps2
}.

Record EvaluationPredictions : Type := {
  eval_focus_logits : list R;
  eval_focus_indices : list nat;
  eval_target_species_logits : list (list R);
  eval_position_coeffs : Irreps2;
  eval_target_species : list nat
}.

(** ** [S2Activation._complete_lmax_and_res] *)

Module S2Activation.

Open Scope Z_scope.

(** [models.py], lines 83-119.  Each [if ... is None] block rebinds one of
    the three names; the blocks are kept in the order of the source. *)
Definition _complete_lmax_and_res
    (lmax res_beta res_alpha : option Z) : outcome (Z * Z * Z) :=
  if forallb is_none [lmax; res_beta; res_alpha] then Raised ValueError
  else
    let res_beta :=
      match res_beta with
      | None =>
          match lmax with
          | Some l => Some (2 * (l + 1))
          | None =>
              match res_alpha with
              | Some a => Some (2 * ((a + 1) / 2))
              | None => res_beta
              end
          end
      | Some _ => res_beta
      end in
    let res_alpha :=
      match res_alpha with
      | None =>
          match lmax with
          | Some l =>
              match res_beta with
              | Some b => Some (Z.max (2 * l + 1) (b - 1))
              | None => Some (2 * l + 1)
              end
          | None =>
              match res_beta with
              | Some b => Some (b - 1)
              | None => res_alpha
              end
          end
      | Some _ => res_alpha
      end in
    lmax <-
      match lmax with
      | None =>
          b <- int_of res_beta ;;
          a <- int_of res_alpha ;;
          Returned (Z.min (b / 2 - 1) ((a - 1) / 2))
      | Some l => Returned l
      end ;;
    b <- int_of res_beta ;;
    _ <- assert (b mod 2 =? 0) ;;
    _ <- assert (lmax + 1 <=? b / 2) ;;
    a <- int_of res_alpha ;;
    Returned (lmax, b, a).

Close Scope Z_scope.

(** [e3nn.Irreps(...).simplify()]: adjacent entries of one irrep are merged,
    entries of multiplicity zero are dropped. *)
Definition irrep_eqb (a b : Irrep) : bool :=
  (l a =? l b) && Bool.eqb (odd a) (odd b).

Fixpoint simplify_into (out : Irreps) (irreps : Irreps) : Irreps :=
  match irreps with
  | [] => rev out
  | (mul, ir) :: rest =>
      match out with
      | (mul0, ir0) :: out' =>
          if irrep_eqb ir0 ir then simplify_into ((mul0 + mul, ir) :: out') rest
          else if 0 <? mul then simplify_into ((mul, ir) :: out) rest
          else simplify_into out rest
      | [] =>
          if 0 <? mul then simplify_into [(mul, ir)] rest
          else simplify_into out rest
      end
  end.

Definition simplify (irreps : Irreps) : Irreps := simplify_into [] irreps.

(** [irreps.ls]: the degrees, each as often as its multiplicity. *)
Definition ls (irreps : Irreps) : list nat :=
  flat_map (fun mi => repeat (l (snd mi)) (fst mi)) irreps.

(** The [resolution] field: one integer or a pair. *)
Inductive resolution_t : Type :=
| ResInt (res : Z)
| ResPair (res_beta res_alpha : Z).

(** The dataclass fields of the module. *)
Record Self : Type := {
  irreps : Irreps;
  resolution : resolution_t;
  activation : R -> R;
  lmax_out : option Z;
  layer_norm : bool
}.

Inductive attribute : Type :=
| AttrIrreps (v : Irreps)
| AttrResolution (v : resolution_t)
| AttrActivation (v : R -> R)
| AttrLmaxOut (v : option Z)
| AttrLayerNorm (v : bool).

(** [self.<name>]: the five fields are the attributes of the object; any
    other name raises [AttributeError]. *)
Definition getattr (self : Self) (name : string) : outcome attribute :=
  if String.eqb name "irreps" then Returned (AttrIrreps (irreps self))
  else if String.eqb name "resolution" then Returned (AttrResolution (resolution self))
  else if String.eqb name "activation" then Returned (AttrActivation (activation self))
  else if String.eqb name "lmax_out" then Returned (AttrLmaxOut (lmax_out self))
  else if String.eqb name "layer_norm" then Returned (AttrLayerNorm (layer_norm self))
  else Raised AttributeError.

(** [try: body  except TypeError: handler]. *)
Definition try_except_TypeError {A : Type} (body handler : outcome A) : outcome A :=
  match body with
  | Raised TypeError => handler
  | other => other
  end.

(** [_complete_lmax_and_res(lmax, *res)]: unpacking needs a pair. *)
Definition complete_unpacked (lmax : Z) (res : attribute) : outcome (Z * Z * Z) :=
  match res with
  | AttrResolution (ResPair res_beta res_alpha) =>
      _complete_lmax_and_res (Some lmax) (Some res_beta) (Some res_alpha)
  | _ => Raised TypeError
  end.

(** [_complete_lmax_and_res(lmax, res, None)]. *)
Definition complete_single (lmax : Z) (res : attribute) : outcome (Z * Z * Z) :=
  match res with
  | AttrResolution (ResInt res_beta) =>
      _complete_lmax_and_res (Some lmax) (Some res_beta) None
  | _ => Raised TypeError
  end.

(** [models.py], lines 121-142.  The name [lmax_out] is bound only when the
    field is [None]; the resolution is read through the attribute [res]. *)
Definition _extract_irreps_info (self : Self) : outcome (Z * Z * Z * Z) :=
  let irreps := simplify (irreps self) in
  last_entry <-
    match rev irreps with
    | [] => Raised IndexError
    | entry :: _ => Returned entry
    end ;;
  let lmax := l (snd last_entry) in
  _ <- assert (forallb (fun mi => fst mi =? 1) irreps) ;;
  _ <- assert (if list_eq_dec Nat.eq_dec (ls irreps) (seq 0 (lmax + 1))
               then true else false) ;;
  let lmax_out :=
    match lmax_out self with
    | None => Some (Z.of_nat lmax)
    | Some _ => None
    end in
  completed <-
    try_except_TypeError
      (res <- getattr self "res" ;; complete_unpacked (Z.of_nat lmax) res)
      (res <- getattr self "res" ;; complete_single (Z.of_nat lmax) res) ;;
  let '(lmax, res_beta, res_alpha) := completed in
  match lmax_out with
  | Some lmax_out => Returned (lmax, res_beta, res_alpha, lmax_out)
  | None => Raised UnboundLocalError
  end.

Section Call.

(** The grid signal and the transforms of e3nn, and the layer norm of flax. *)
Variable SphericalSignal : Type.
Variable to_s2grid : Irreps1 -> Z -> Z -> SphericalSignal.
Variable from_s2grid : SphericalSignal -> Z -> Z -> Irreps1.
Variable signal_apply : (R -> R) -> SphericalSignal -> SphericalSignal.
Variable LayerNorm : SphericalSignal -> SphericalSignal.

Definition irreps_eqb (a b : Irreps) : bool :=
  (length a =? length b)
  && forallb (fun p => (fst (fst p) =? fst (snd p))
                       && irrep_eqb (snd (fst p)) (snd (snd p)))
             (combine a b).

(** [models.py], lines 144-167. *)
Definition __call__ (self : Self) (feature_coeffs : Irreps1) : outcome Irreps1 :=
  info <- _extract_irreps_info self ;;
  let '(lmax, res_beta, res_alpha, lmax_out) := info in
  _ <- assert (irreps_eqb (irreps1 feature_coeffs) (irreps self)) ;;
  let features := to_s2grid feature_coeffs res_beta res_alpha in
  let features := signal_apply (activation self) features in
  let features := if layer_norm self then LayerNorm features else features in
  let updated_feature_coeffs := from_s2grid features lmax_out lmax in
  Returned updated_feature_coeffs.

End Call.

End S2Activation.

(** ** [GSchNet.target_species_logits] *)

Module GSchNet.

(** Arrays with their static shape: two and three axes. *)
Record Array2 : Type := { shape2 : nat * nat; data2 : list (list R) }.

Record Array3 : Type := { shape3 : nat * nat * nat; data3 : list (list (list R)) }.

(** [x.shape], as the tuple that the assertions compare. *)
Definition shape_of2 (x : Array2) : list nat := [fst (shape2 x); snd (shape2 x)].

Definition shape_of3 (x : Array3) : list nat :=
  let '(a, b, c) := shape3 x in [a; b; c].

Definition shape_eqb (a b : list nat) : bool :=
  if list_eq_dec Nat.eq_dec a b then true else false.

Record Model : Type := {
  latent_size : nat;
  num_interactions : nat;
  activation : R -> R;
  (* hk.Embed(NUM_ELEMENTS, latent_size): the row of one species *)
  species_embedder : nat -> list R;
  (* hk.nets.MLP([latent_size, latent_size, NUM_ELEMENTS]) on one vector *)
  species_mlp : list R -> list R
}.

(** [jnp.multiply] of one node embedding, a vector, and one row of the
    array of species embeddings, with the broadcast of a length-one
    operand.  The operands of the source are a vector and a matrix: when
    their shapes do not broadcast, the promotion of ranks raises
    [ValueError]. *)
Definition multiply (x y : list R) : outcome (list R) :=
  if length x =? length y then
    Returned (map (fun ab => (fst ab * snd ab)%R) (combine x y))
  else
    match x, y with
    | [a], _ => Returned (map (Rmult a) y)
    | _, [b] => Returned (map (fun a => (a * b)%R) x)
    | _, _ => Raised ValueError
    end.

Fixpoint map_outcome {A B : Type} (f : A -> outcome B) (xs : list A)
  : outcome (list B) :=
  match xs with
  | [] => Returned []
  | x :: rest =>
      y <- f x ;;
      ys <- map_outcome f rest ;;
      Returned (y :: ys)
  end.

(** [e3nn.scatter_sum(data, nel=n_node)]: consecutive groups of [n_node[g]]
    rows are summed. *)
Definition add_rows (x y : list (list R)) : list (list R) :=
  map (fun ab => map (fun cd => (fst cd + snd cd)%R) (combine (fst ab) (snd ab)))
      (combine x y).

Fixpoint scatter_sum_rows (zero : list (list R)) (data : list (list (list R)))
    (nel : list nat) : list (list (list R)) :=
  match nel with
  | [] => []
  | n :: rest =>
      fold_right add_rows zero (firstn n data)
      :: scatter_sum_rows zero (skipn n data) rest
  end.

Definition scatter_sum (x : Array3) (nel : list nat) : Array3 :=
  let '(_, b, c) := shape3 x in
  {| shape3 := (length nel, b, c);
     data3 := scatter_sum_rows (repeat (repeat 0%R c) b) (data3 x) nel |}.

(** [models.py], lines 433-446.  The body ends after the second assertion:
    there is no [return], so a call that gets there returns [None]. *)
Definition target_species_logits (self : Model) (node_embeddings : Array2)
    (n_node : list nat) : outcome (option Array2) :=
  let num_nodes := fst (shape2 node_embeddings) in
  let num_graphs := length n_node in
  let all_species_embeddings :=
    {| shape2 := (NUM_ELEMENTS, latent_size self);
       data2 := map (species_embedder self) (seq 0 NUM_ELEMENTS) |} in
  products <-
    map_outcome
      (fun node_embedding =>
         map_outcome (multiply node_embedding) (data2 all_species_embeddings))
      (data2 node_embeddings) ;;
  let node_and_species_embeddings :=
    {| shape3 := (num_nodes, NUM_ELEMENTS,
                  Nat.max (snd (shape2 node_embeddings)) (latent_size self));
       data3 := products |} in
  let target_species_logits :=
    {| shape3 := (num_nodes, NUM_ELEMENTS, NUM_ELEMENTS);
       data3 := map (map (species_mlp self)) (data3 node_and_species_embeddings) |} in
  _ <- assert (shape_eqb (shape_of3 target_species_logits)
                         [num_nodes; NUM_ELEMENTS]) ;;
  let target_species_logits := scatter_sum target_species_logits n_node in
  _ <- assert (shape_eqb (shape_of3 target_species_logits)
                         [num_graphs; NUM_ELEMENTS]) ;;
  Returned None.

(** [models.py], lines 448-456, for a one-dimensional array of target
    species, one per graph; [distance_mlp] is the perceptron
    [[latent_size, latent_size, len(RADII)]] on one vector. *)
Definition distance_logits (self : Model) (distance_mlp : list R -> list R)
    (node_embeddings : Array2) (target_species : list nat) : outcome Array3 :=
  let num_nodes := fst (shape2 node_embeddings) in
  let target_species_embeddings :=
    {| shape2 := (length target_species, latent_size self);
       data2 := map (species_embedder self) target_species |} in
  products <-
    map_outcome
      (fun node_embedding =>
         map_outcome (multiply node_embedding) (data2 target_species_embeddings))
      (data2 node_embeddings) ;;
  let node_and_target_species_embeddings :=
    {| shape3 := (num_nodes, length target_species,
                  Nat.max (snd (shape2 node_embeddings)) (latent_size self));
       data3 := products |} in
  let distance_logits :=
    {| shape3 := (num_nodes, length target_species, length RADII);
       data3 := map (map distance_mlp) (data3 node_and_target_species_embeddings) |} in
  _ <- assert (shape_eqb (shape_of3 distance_logits) [num_nodes; length RADII]) ;;
  Returned distance_logits.

Record TriangulationPredictions : Type := {
  triangulation_target_species_logits : option Array2;
  triangulation_distance_logits : Array3
}.

(** [models.py], lines 459-467.  [encoder] is [self.node_embeddings], the
    message passing of jraph and haiku; [read_target_species] is the read
    of [graphs.target_species]. *)
Definition __call__ (self : Model) (encoder : Fragment -> outcome Array2)
    (distance_mlp : list R -> list R)
    (read_target_species : Fragment -> outcome (list nat))
    (graphs : Fragment) : outcome TriangulationPredictions :=
  node_embeddings <- encoder graphs ;;
  target_species_logits <-
    target_species_logits self node_embeddings (n_node graphs) ;;
  target_species <- read_target_species graphs ;;
  distance_logits <-
    distance_logits self distance_mlp node_embeddings target_species ;;
  Returned {| triangulation_target_species_logits := target_species_logits;
              triangulation_distance_logits := distance_logits |}.

End GSchNet.

(** ** [MACE]: the wrapper around the mace_jax encoder and its three heads *)

Module MACE.

(** [e3nn.s2_irreps(lmax, p_val=1, p_arg=-1)]: one copy of every degree up
    to [lmax], odd degrees with odd parity. *)
Definition s2_irreps (lmax : nat) : Irreps :=
  map (fun d => (1, {| l := d; odd := Nat.odd d |})) (seq 0 (S lmax)).

Definition num_irreps (irreps : Irreps) : nat :=
  fold_right (fun mi acc => fst mi + acc) 0 irreps.

(** [weights * x] for an array of one scalar per irrep copy. *)
Fixpoint scale_chunks (ws : list R) (chunks : Chunks) : Chunks :=
  match chunks with
  | [] => []
  | ch :: rest =>
      map (fun wv => map (Rmult (fst wv)) (snd wv))
          (combine (firstn (length ch) ws) ch)
      :: scale_chunks (skipn (length ch) ws) rest
  end.

(** [x.mul_to_axis(factor)]: every multiplicity is split into [factor]
    groups, which become a new axis. *)
Definition mul_to_axis_chunks (factor : nat) (irreps : Irreps) (chunks : Chunks)
  : list Chunks :=
  map (fun a =>
         map (fun ic =>
                let mul := fst (fst ic) / factor in
                firstn mul (skipn (a * mul) (snd ic)))
             (combine irreps chunks))
      (seq 0 factor).

Definition mul_to_axis (factor : nat) (x : Irreps1) : outcome Irreps2 :=
  _ <- assert (forallb (fun mi => fst mi mod factor =? 0) (irreps1 x)) ;;
  Returned
    {| irreps2 := map (fun mi => (fst mi / factor, snd mi)) (irreps1 x);
       rows2 := map (mul_to_axis_chunks factor (irreps1 x)) (rows1 x) |}.

(** The object: the configuration that the methods read, and the layers
    they call.  [mace] is [mace_jax.modules.MACE] as configured by [r_max],
    [hidden_irreps], [readout_mlp_irreps], [avg_num_neighbors],
    [num_species] and [max_ell]; the other layers are the haiku and e3nn
    modules created inside the methods, with their learned weights, each
    applied to one row of its input: [focus_linear] is [Linear("0e")],
    [species_mlp] the perceptron [[128, NUM_ELEMENTS]], [species_embed n]
    the embedding [hk.Embed(NUM_ELEMENTS, n)], and [position_linear] is
    [Linear(len(RADII) * irreps)], whose output irreps
    [position_linear_irreps] are fixed by the irreps of its input.  The
    layers are taken as built: haiku builds [hk.Embed(NUM_ELEMENTS, n)]
    for a positive width [n] only, and raises [ValueError] for [n = 0]. *)
Record Model : Type := {
  output_irreps : Irreps;
  num_interactions : nat;
  position_coeffs_lmax : nat;
  run_in_evaluation_mode : bool;
  mace : list Vec3 -> list nat -> list nat -> list nat -> Irreps2;
  focus_linear : Irreps -> Chunks -> R;
  species_mlp : Irreps -> Chunks -> list R;
  species_embed : nat -> nat -> list R;
  position_linear_irreps : Irreps -> Irreps;
  position_linear : Irreps -> Chunks -> Chunks
}.

(** [a - b] on two arrays of vectors, with the broadcast of an array of one
    row; other length mismatches raise. *)
Definition subtract (a b : list Vec3) : outcome (list Vec3) :=
  if length a =? length b then
    Returned (map (fun ab => vsub (fst ab) (snd ab)) (combine a b))
  else
    match a, b with
    | [x], _ => Returned (map (fun y => vsub x y) b)
    | _, [y] => Returned (map (fun x => vsub x y) a)
    | _, _ => Raised TypeError
    end.

Definition node_embeddings (self : Model) (graphs : Fragment) : outcome Irreps1 :=
  to_vectors <- take (positions (nodes graphs)) (receivers graphs) ;;
  from_vectors <- take (positions (nodes graphs)) (senders graphs) ;;
  vectors <- subtract to_vectors from_vectors ;;
  let species := species (nodes graphs) in
  let num_nodes := length species in
  let node_embeddings :=
    mace self vectors species (senders graphs) (receivers graphs) in
  _ <- assert ((length (rows2 node_embeddings) =? num_nodes)
               && forallb (fun row => length row =? num_interactions self)
                          (rows2 node_embeddings)
               && (irreps_dim (irreps2 node_embeddings)
                   =? irreps_dim (output_irreps self))) ;;
  Returned (axis_to_mul (num_interactions self) node_embeddings).

Definition focus_logits (self : Model) (node_embeddings : Irreps1)
  : outcome (list R) :=
  let focus_logits :=
    map (focus_linear self (irreps1 node_embeddings)) (rows1 node_embeddings) in
  let num_nodes := length (rows1 node_embeddings) in
  _ <- assert (length focus_logits =? num_nodes) ;;
  Returned focus_logits.

Definition target_species_logits (self : Model) (focus_node_embeddings : Irreps1)
  : outcome (list (list R)) :=
  let num_graphs := length (rows1 focus_node_embeddings) in
  let scalars := filter_0e focus_node_embeddings in
  let species_logits := map (species_mlp self (irreps1 scalars)) (rows1 scalars) in
  _ <- assert ((length species_logits =? num_graphs)
               && forallb (fun row => length row =? NUM_ELEMENTS) species_logits) ;;
  Returned species_logits.

Definition target_position (self : Model) (focus_node_embeddings : Irreps1)
    (target_species : list nat) : outcome Irreps2 :=
  let num_graphs := length (rows1 focus_node_embeddings) in
  _ <- assert ((length (rows1 focus_node_embeddings) =? num_graphs)
               && (irreps_dim (irreps1 focus_node_embeddings)
                   =? irreps_dim (irreps1 focus_node_embeddings))) ;;
  let irreps := s2_irreps (position_coeffs_lmax self) in
  let width := num_irreps (irreps1 focus_node_embeddings) in
  let target_species_embeddings := map (species_embed self width) target_species in
  _ <- assert ((length target_species_embeddings =? num_graphs)
               && forallb (fun row => length row =? width)
                          target_species_embeddings) ;;
  let product :=
    {| irreps1 := irreps1 focus_node_embeddings;
       rows1 := map (fun wx => scale_chunks (fst wx) (snd wx))
                    (combine target_species_embeddings
                             (rows1 focus_node_embeddings)) |} in
  let position_coeffs :=
    {| irreps1 := position_linear_irreps self (irreps1 product);
       rows1 := map (position_linear self (irreps1 product)) (rows1 product) |} in
  position_coeffs <- mul_to_axis (length RADII) position_coeffs ;;
  let num_radii := length RADII in
  _ <- assert ((length (rows2 position_coeffs) =? num_graphs)
               && forallb (fun row => length row =? num_radii)
                          (rows2 position_coeffs)
               && (irreps_dim (irreps2 position_coeffs) =? irreps_dim irreps)) ;;
  Returned position_coeffs.

Definition get_training_predictions (self : Model) (graphs : Fragment)
  : outcome Predictions :=
  node_embeddings <- node_embeddings self graphs ;;
  focus_logits <- focus_logits self node_embeddings ;;
  let focus_node_indices := get_first_node_indices (n_node graphs) in
  true_focus_node_embeddings <- take1 node_embeddings focus_node_indices ;;
  target_species_logits <- target_species_logits self true_focus_node_embeddings ;;
  position_coeffs <-
    target_position self true_focus_node_embeddings
                    (target_species (globals graphs)) ;;
  Returned
    {| pred_focus_logits := focus_logits;
       pred_target_species_logits := target_species_logits;
       pred_position_coeffs := position_coeffs |}.

Section Evaluation.

Context {Key : Type} `{PRNG Key}.

(** [hk.next_rng_key()]: the key kept by haiku is split; one half is handed
    out, the other is kept for the next request. *)
Definition next_rng_key (hk_key : Key) : outcome (Key * Key) :=
  ks <- split2 hk_key ;;
  Returned (snd ks, fst ks).

(** The haiku key is threaded explicitly: the function takes it and returns
    the key that haiku keeps afterwards. *)
Definition get_evaluation_predictions (self : Model) (graphs : Fragment)
    (hk_key : Key) : outcome (EvaluationPredictions * Key) :=
  rk <- next_rng_key hk_key ;;
  let rng := fst rk in
  let num_nodes := length (positions (nodes graphs)) in
  let num_graphs := length (n_node graphs) in
  node_embeddings <- node_embeddings self graphs ;;
  focus_logits <- focus_logits self node_embeddings ;;
  let focus_probs := partition_softmax focus_logits (n_node graphs) num_nodes in
  ks <- split2 rng ;;
  let rng := fst ks in
  let focus_rng := snd ks in
  let segment_ids := repeat_arange (n_node graphs) num_nodes in
  focus_indices <- segment_sample focus_probs segment_ids num_graphs focus_rng ;;
  focus_node_embeddings <- take1 node_embeddings focus_indices ;;
  target_species_logits <- target_species_logits self focus_node_embeddings ;;
  let target_species_probs := map softmax target_species_logits in
  ks <- split2 rng ;;
  let species_rng := snd ks in
  let species_rngs := split species_rng num_graphs in
  target_species <-
    vmap2 (fun key p => choice key (seq 0 NUM_ELEMENTS) p)
          species_rngs target_species_probs ;;
  position_coeffs <- target_position self focus_node_embeddings target_species ;;
  Returned
    ({| eval_focus_logits := focus_logits;
        eval_focus_indices := focus_indices;
        eval_target_species_logits := target_species_logits;
        eval_position_coeffs := position_coeffs;
        eval_target_species := target_species |},
     snd rk).

(** [models.py], lines 673-676; training does not touch the haiku key. *)
Definition __call__ (self : Model) (graphs : Fragment) (hk_key : Key)
  : outcome ((Predictions + EvaluationPredictions) * Key) :=
  if run_in_evaluation_mode self then
    r <- get_evaluation_predictions self graphs hk_key ;;
    Returned (inr (fst r), snd r)
  else
    predictions <- get_training_predictions self graphs ;;
    Returned (inl predictions, hk_key).

End Evaluation.

End MACE.

(** ** [position_predictor.py]: the radial bins

    The two predictors in exact arithmetic, for the number of the radii;
    [Float32.TargetPositionPredictor] and
    [Float32.FactorizedTargetPositionPredictor] have the rounding. *)

Module TargetPositionPredictor.

Record Self : Type := {
  position_coeffs_lmax : nat;
  res_beta : Z;
  res_alpha : Z;
  num_channels : nat;
  num_species : nat;
  min_radius : R;
  max_radius : R;
  num_radii : Z;
  apply_gate : bool
}.

(** [jnp.linspace] refuses a negative number of samples. *)
Definition create_radii (self : Self) : outcome (list R) :=
  if (num_radii self <? 0)%Z then Raised ValueError
  else Returned (linspace (min_radius self) (max_radius self)
                          (Z.to_nat (num_radii self))).

End TargetPositionPredictor.

Module FactorizedTargetPositionPredictor.

Record Self : Type := {
  position_coeffs_lmax : nat;
  res_beta : Z;
  res_alpha : Z;
  num_channels : nat;
  num_species : nat;
  min_radius : R;
  max_radius : R;
  num_radii : Z;
  radial_mlp_latent_size : nat;
  radial_mlp_num_layers : nat;
  radial_mlp_activation : R -> R;
  apply_gate : bool
}.

Definition create_radii (self : Self) : outcome (list R) :=
  if (num_radii self <? 0)%Z then Raised ValueError
  else Returned (linspace (min_radius self) (max_radius self)
                          (Z.to_nat (num_radii self))).

End FactorizedTargetPositionPredictor.

(** * Binary floating-point numbers

    The arithmetic of IEEE 754 in a format of [prec] bits of precision and
    largest exponent [emax]: a finite number is the rational that it
    denotes, and every operation returns the exact result rounded to the
    nearest number of the format, the one with an even last bit at a tie.
    Results beyond the largest number are infinite.  The sign of zero is
    not kept.

    The numbers below the smallest normal number, [2^(2 - emax)], are
    subnormal.  IEEE 754 keeps them, and so do Python and numpy.  A
    processor can be set to replace them by zero, and the backends that
    run the primitives of the arrays set it so, each processor with its
    own rule for the results that count as subnormal.  An [underflow] is
    such a rule. *)

Module IEEE754.

Import QArith Qround Qabs Qpower.
Local Open Scope Q_scope.

Inductive float : Type :=
| Finite (q : Q)
| Infinity (negative : bool)
| NaN.

(** The integer [l] with [2^l <= x < 2^(l+1)], for a positive [x]. *)
Definition floor_log2 (x : Q) : Z :=
  let l := (Z.log2 (Qnum x) - Z.log2 (Zpos (Qden x)))%Z in
  if Qle_bool (2 ^ l) x then l else (l - 1)%Z.

(** The nearest integer, the even one of two that are equally near. *)
Definition round_half_even (q : Q) : Z :=
  let f := Qfloor q in
  match Qcompare (q - inject_Z f) (1 # 2) with
  | Lt => f
  | Gt => (f + 1)%Z
  | Eq => if Z.even f then f else (f + 1)%Z
  end.

(** [operand_flushed x]: the subnormal operand [x] is read as zero.
    [result_flushed x]: the exact result [x], smaller than every normal
    number, is returned as zero. *)
Record underflow : Type := {
  operand_flushed : Q -> bool;
  result_flushed : Q -> bool
}.

(** IEEE 754: subnormal numbers are kept. *)
Definition gradual : underflow :=
  {| operand_flushed := fun _ => false; result_flushed := fun _ => false |}.

(** Every subnormal operand and every result below the normal numbers is
    zero. *)
Definition flush_to_zero : underflow :=
  {| operand_flushed := fun _ => true; result_flushed := fun _ => true |}.

Section Format.

Variables prec emax : Z.
Variable mode : underflow.

(** The exponent of the last bit of the numbers near [x]: [prec - 1] below
    the binary logarithm of [x], and no less than that of the smallest
    positive number, [3 - emax - prec]. *)
Definition ulp_exponent (x : Q) : Z :=
  (Z.max (floor_log2 (Qabs x)) (2 - emax) - prec + 1)%Z.

(** Rounding to nearest, ties to even, of a rational in lowest terms. *)
Definition round_reduced (x : Q) : float :=
  if Qeq_bool x 0 then Finite 0
  else
    let ulp := 2 ^ ulp_exponent x in
    let y := inject_Z (round_half_even (x / ulp)) * ulp in
    if Qle_bool (2 ^ emax) (Qabs y) then Infinity (negb (Qle_bool 0 x))
    else Finite (Qred y).

(** Not zero and smaller than every normal number. *)
Definition tiny (x : Q) : bool :=
  negb (Qeq_bool x 0) && negb (Qle_bool (2 ^ (2 - emax)) (Qabs x)).

(** The result of an operation whose exact result is [x]. *)
Definition round (x : Q) : float :=
  let r := Qred x in
  if tiny r && result_flushed mode r then Finite 0 else round_reduced r.

(** The operand that an operation reads. *)
Definition flushed (x : Q) : Q :=
  if tiny x && operand_flushed mode x then 0 else x.

Definition is_zero (x : Q) : bool := Qeq_bool x 0.
Definition is_negative (x : Q) : bool := negb (Qle_bool 0 x).

(** The operations: on finite numbers the rounded exact result; NaN for
    [inf - inf], [0 * inf], [0 / 0] and [inf / inf]. *)
Definition add (a b : float) : float :=
  match a, b with
  | NaN, _ | _, NaN => NaN
  | Infinity s, Infinity t => if Bool.eqb s t then Infinity s else NaN
  | Infinity s, Finite _ | Finite _, Infinity s => Infinity s
  | Finite x, Finite y => round (flushed x + flushed y)
  end.

Definition opp (a : float) : float :=
  match a with
  | NaN => NaN
  | Infinity s => Infinity (negb s)
  | Finite x => Finite (Qred (- x))
  end.

Definition sub (a b : float) : float := add a (opp b).

Definition mul (a b : float) : float :=
  match a, b with
  | NaN, _ | _, NaN => NaN
  | Infinity s, Infinity t => Infinity (xorb s t)
  | Infinity s, Finite y | Finite y, Infinity s =>
      if is_zero (flushed y) then NaN else Infinity (xorb s (is_negative y))
  | Finite x, Finite y => round (flushed x * flushed y)
  end.

Definition div (a b : float) : float :=
  match a, b with
  | NaN, _ | _, NaN => NaN
  | Infinity _, Infinity _ => NaN
  | Infinity s, Finite y => Infinity (xorb s (is_negative y))
  | Finite _, Infinity _ => Finite 0
  | Finite x, Finite y =>
      if is_zero (flushed y) then
        if is_zero (flushed x) then NaN else Infinity (is_negative x)
      else round (flushed x / flushed y)
  end.

Definition of_Z (z : Z) : float := round (inject_Z z).

End Format.

End IEEE754.

(** binary64, the floats of Python: 53 bits of precision. *)
Module Float64.

Definition round := IEEE754.round 53 1024 IEEE754.gradual.
Definition add := IEEE754.add 53 1024 IEEE754.gradual.
Definition sub := IEEE754.sub 53 1024 IEEE754.gradual.
Definition div := IEEE754.div 53 1024 IEEE754.gradual.

(** A decimal literal of the source: the nearest binary64 number. *)
Definition literal (numerator : Z) (denominator : positive) : IEEE754.float :=
  round (QArith_base.Qmake numerator denominator).

End Float64.

(** binary32, the element type of the arrays: 24 bits of precision.  The
    arrays below are built from Python numbers, one primitive after the
    other, so every operation is rounded by itself.  The primitives of
    the arrays run on a backend, under its [mode] of underflow; Python
    and numpy compute with gradual underflow. *)
Module Float32.

Definition round := IEEE754.round 24 128.
Definition add := IEEE754.add 24 128.
Definition sub := IEEE754.sub 24 128.
Definition mul := IEEE754.mul 24 128.
Definition div := IEEE754.div 24 128.
Definition of_Z := IEEE754.of_Z 24 128.

(** The conversion of a Python number to binary32. *)
Definition of_python (x : QArith_base.Q) : IEEE754.float :=
  round IEEE754.gradual x.

Definition one : IEEE754.float := of_python (QArith_base.Qmake 1 1).

(** [jnp.linspace(start, stop, num)] on binary32 arrays, with the end point
    included: entry [i] of the first [num - 1] is
    [start * (1 - step) + stop * step] for [step = i / (num - 1)], every
    operation rounded; the last entry is [stop] itself. *)
Definition linspace (mode : IEEE754.underflow) (start stop : IEEE754.float)
    (num : nat) : list IEEE754.float :=
  match num with
  | 0%nat => []
  | 1%nat => [start]
  | S n =>
      map (fun i =>
             let step :=
               div mode (of_Z mode (Z.of_nat i)) (of_Z mode (Z.of_nat n)) in
             add mode (mul mode start (sub mode one step))
                 (mul mode stop step))
          (seq 0 n)
      ++ [stop]
  end.

(** The number that a finite element denotes. *)
Definition value (a : IEEE754.float) : QArith_base.Q :=
  match a with
  | IEEE754.Finite q => q
  | _ => QArith_base.Qmake 0 1
  end.

(** The conversion of a binary64 number to binary32, by numpy. *)
Definition of_float64 (a : IEEE754.float) : IEEE754.float :=
  match a with
  | IEEE754.Finite q => round IEEE754.gradual q
  | other => other
  end.

(** [np.arange(start, stop, step, dtype=float32)] on Python floats, which
    [jnp.arange] calls: the length [ceil((stop - start) / step)] and the
    second entry [start + step] are computed in binary64; the array is
    filled in binary32 with [first + i * delta], where [delta] is the
    difference of its first two entries. *)
Definition arange (start stop step : IEEE754.float)
  : outcome (list IEEE754.float) :=
  let zero_step :=
    match step with
    | IEEE754.Finite s => IEEE754.is_zero s
    | _ => false
    end in
  if zero_step then Raised ZeroDivisionError
  else
    match Float64.div (Float64.sub stop start) step with
    | IEEE754.Finite quotient =>
        let length := Z.to_nat (Qround.Qceiling quotient) in
        let next := Float64.add start step in
        let first := of_float64 start in
        let second := of_float64 next in
        let delta := sub IEEE754.gradual second first in
        Returned
          (firstn length
             (first :: second
              :: map (fun i =>
                        add IEEE754.gradual first
                            (mul IEEE754.gradual
                                 (of_Z IEEE754.gradual (Z.of_nat i)) delta))
                     (seq 2 (length - 2))))
    | IEEE754.Infinity _ => Raised OverflowError
    | IEEE754.NaN => Raised ValueError
    end.

(** [models.py], line 17. *)
Definition RADII : outcome (list IEEE754.float) :=
  arange (Float64.literal 75 100) (Float64.literal 203 100)
         (Float64.literal 2 100).

(** [position_predictor.py]: the radial bins.  The fields [min_radius] and
    [max_radius] are Python floats; [jnp.linspace] converts them to
    binary32 and computes under the [mode] of the backend. *)
Module TargetPositionPredictor.

Record Self : Type := {
  position_coeffs_lmax : nat;
  res_beta : Z;
  res_alpha : Z;
  num_channels : nat;
  num_species : nat;
  min_radius : QArith_base.Q;
  max_radius : QArith_base.Q;
  num_radii : Z;
  apply_gate : bool
}.

(** [position_predictor.py], lines 35-37. *)
Definition create_radii (mode : IEEE754.underflow) (self : Self)
  : outcome (list IEEE754.float) :=
  if (num_radii self <? 0)%Z then Raised ValueError
  else Returned (linspace mode (of_python (min_radius self))
                          (of_python (max_radius self))
                          (Z.to_nat (num_radii self))).

End TargetPositionPredictor.

Module FactorizedTargetPositionPredictor.

Record Self : Type := {
  position_coeffs_lmax : nat;
  res_beta : Z;
  res_alpha : Z;
  num_channels : nat;
  num_species : nat;
  min_radius : QArith_base.Q;
  max_radius : QArith_base.Q;
  num_radii : Z;
  radial_mlp_latent_size : nat;
  radial_mlp_num_layers : nat;
  radial_mlp_activation : IEEE754.float -> IEEE754.float;
  apply_gate : bool
}.

(** [position_predictor.py], lines 121-123. *)
Definition create_radii (mode : IEEE754.underflow) (self : Self)
  : outcome (list IEEE754.float) :=
  if (num_radii self <? 0)%Z then Raised ValueError
  else Returned (linspace mode (of_python (min_radius self))
                          (of_python (max_radius self))
                          (Z.to_nat (num_radii self))).

End FactorizedTargetPositionPredictor.

End Float32.

(** * [analyses/analysis.py]: names, nested dictionaries and configurations *)

Module Analysis.

Import Ascii.

(** ** Python strings

    A [str] is a [string].  [find] is [str.find], the lowest index of an
    occurrence or [-1]; [slice_from s index] is [s[index:]]. *)

Fixpoint find_index (sub s : string) : option nat :=
  if String.prefix sub s then Some 0%nat
  else
    match s with
    | EmptyString => None
    | String _ rest => option_map S (find_index sub rest)
    end.

Definition find (s sub : string) : Z :=
  match find_index sub s with
  | Some i => Z.of_nat i
  | None => (-1)%Z
  end.

Fixpoint drop (n : nat) (s : string) : string :=
  match n, s with
  | O, _ => s
  | S n', String _ rest => drop n' rest
  | S _, EmptyString => EmptyString
  end.

Definition slice_from (s : string) (index : Z) : string :=
  let n := Z.of_nat (String.length s) in
  let start := if (index <? 0)%Z then Z.max 0 (index + n) else Z.min index n in
  drop (Z.to_nat start) s.

(** [analyses/analysis.py], lines 612-615. *)
Definition name_from_workdir (workdir : string) : string :=
  let index :=
    (find workdir "workdirs" + Z.of_nat (String.length "workdirs/"))%Z in
  slice_from workdir index.

(** ** Python dictionaries

    A [dict] is the list of its items in insertion order, with one item per
    key.  [setitem d k v] is [d[k] = v]: the value of an existing key is
    replaced where it stands, a new key goes to the end.  [dict pairs] is
    [dict(pairs)] for an iterable of pairs. *)

Section Dict.

Variables K V : Type.
Variable eqb : K -> K -> bool.

Fixpoint setitem (d : list (K * V)) (k : K) (v : V) : list (K * V) :=
  match d with
  | [] => [(k, v)]
  | (k', v') :: rest =>
      if eqb k' k then (k', v) :: rest else (k', v') :: setitem rest k v
  end.

Definition dict (pairs : list (K * V)) : list (K * V) :=
  fold_left (fun d kv => setitem d (fst kv) (snd kv)) pairs [].

End Dict.

(** A nested dictionary with keys in [K]: a value is a dictionary or any
    other object, [Leaf], which has no [items] method. *)
#[warnings="-register-all"]
Inductive value (K A : Type) : Type :=
| Leaf (a : A)
| Dict (items : list (K * value K A)).

Arguments Leaf {K A} a.
Arguments Dict {K A} items.

(** The keys that [cast_keys_as_int] meets: strings and integers.  A string
    and an integer are never the same key. *)
Inductive key : Type :=
| KStr (s : string)
| KInt (i : Z).

Definition key_eqb (a b : key) : bool :=
  match a, b with
  | KStr s, KStr t => String.eqb s t
  | KInt i, KInt j => Z.eqb i j
  | _, _ => false
  end.

Definition exn_eqb (a b : exn) : bool :=
  match a, b with
  | ValueError, ValueError
  | AssertionError, AssertionError
  | AttributeError, AttributeError
  | TypeError, TypeError
  | IndexError, IndexError
  | UnboundLocalError, UnboundLocalError
  | ZeroDivisionError, ZeroDivisionError
  | OverflowError, OverflowError => true
  | _, _ => false
  end.

(** [try: body / except e: handler]. *)
Definition except {T : Type} (body : outcome T) (e : exn) (handler : outcome T)
  : outcome T :=
  match body with
  | Returned v => Returned v
  | Raised e' => if exn_eqb e' e then handler else Raised e'
  end.

Section NestedDictionaries.

Variable A : Type.

(** [int(s)] on a string, the parser of the language: the integer that [s]
    denotes, if it denotes one. *)
Variable int_of_str : string -> option Z.

(** [int(key)]. *)
Definition int_ (k : key) : outcome Z :=
  match k with
  | KInt i => Returned i
  | KStr s =>
      match int_of_str s with
      | Some i => Returned i
      | None => Raised ValueError
      end
  end.

(** [analyses/analysis.py], lines 594-609, and [analysis.py], lines 22-37.
    The loop over [dictionary.items()] is the fold; the assignment of the
    [finally] clause is reached with the key cast or, after [ValueError],
    unchanged. *)
Fixpoint cast_keys_as_int (dictionary : value key A) : outcome (value key A) :=
  match dictionary with
  | Leaf _ => Raised AttributeError
  | Dict items =>
      casted_dictionary <-
        fold_left
          (fun state kv =>
             casted_dictionary <- state ;;
             val <- except (cast_keys_as_int (snd kv)) AttributeError
                           (Returned (snd kv)) ;;
             key <- except (i <- int_ (fst kv) ;; Returned (KInt i)) ValueError
                           (Returned (fst kv)) ;;
             Returned (setitem key_eqb casted_dictionary key val))
          items (Returned []) ;;
      Returned (Dict casted_dictionary)
  end.

(** [analyses/analysis.py], lines 631-637: the pairs that the generator
    yields, in order. *)
Fixpoint iterate_with_prefix (dictionary : value string A) (prefix : string)
  : outcome (list (string * A)) :=
  match dictionary with
  | Leaf _ => Raised AttributeError
  | Dict items =>
      fold_right
        (fun kv later =>
           yielded <-
             match snd kv with
             | Dict _ =>
                 iterate_with_prefix (snd kv) (prefix ++ fst kv ++ ".")%string
             | Leaf a => Returned [((prefix ++ fst kv)%string, a)]
             end ;;
           rest <- later ;;
           Returned (yielded ++ rest))
        (Returned []) items
  end.

(** [analyses/analysis.py], line 639, for the dictionary [config.to_dict()]. *)
Definition config_dict (config : value string A) : outcome (list (string * A)) :=
  pairs <- iterate_with_prefix config "config." ;;
  Returned (dict String.eqb pairs).

End NestedDictionaries.

(** [key] has no ["."] in it. *)
Fixpoint dot_free (s : string) : bool :=
  match s with
  | EmptyString => true
  | String c rest => negb (Ascii.eqb c "."%char) && dot_free rest
  end.

Fixpoint distinct (keys : list string) : bool :=
  match keys with
  | [] => true
  | k :: rest => negb (existsb (String.eqb k) rest) && distinct rest
  end.

(** At every level of a nested dictionary, the keys differ from each other
    and none has a ["."] in it. *)
Fixpoint plain_keys {A : Type} (v : value string A) : bool :=
  match v with
  | Leaf _ => true
  | Dict items =>
      distinct (map fst items)
      && forallb (fun kv => dot_free (fst kv) && plain_keys (snd kv)) items
  end.

(** A parser of decimal numerals, with an optional sign. *)
Fixpoint digits (acc : Z) (s : string) : option Z :=
  match s with
  | EmptyString => Some acc
  | String c rest =>
      let n := Ascii.nat_of_ascii c in
      if (48 <=? n)%nat && (n <=? 57)%nat
      then digits (10 * acc + Z.of_nat (n - 48)) rest
      else None
  end.

Definition decimal (s : string) : option Z :=
  match s with
  | EmptyString => None
  | String "-"%char (String c rest) => option_map Z.opp (digits 0 (String c rest))
  | String c rest => digits 0 (String c rest)
  end.

End Analysis.

(** * Properties *)

(** ** Helper facts on outcomes *)

Lemma bind_returned {A B : Type} (c : outcome A) (k : A -> outcome B) (b : B) :
  bind c k = Returned b -> exists a, c = Returned a /\ k a = Returned b.
Proof.
  destruct c as [a | e]; simpl; intros Hk.
  - exists a. split; [reflexivity | exact Hk].
  - discriminate Hk.
Qed.

Lemma assert_returned (cond : bool) (u : unit) :
  assert cond = Returned u -> cond = true.
Proof. destruct cond; simpl; [reflexivity | discriminate]. Qed.

Lemma assert_true (cond : bool) : cond = true -> assert cond = Returned tt.
Proof. intros ->. reflexivity. Qed.

(** ** [S2Activation._complete_lmax_and_res] *)

Example complete_lmax_only :
  S2Activation._complete_lmax_and_res (Some 4%Z) None None
  = Returned (4, 10, 9)%Z.
Proof. reflexivity. Qed.

Example complete_res_alpha_only :
  S2Activation._complete_lmax_and_res None None (Some 51%Z)
  = Returned (25, 52, 51)%Z.
Proof. reflexivity. Qed.

Example complete_odd_res_beta :
  S2Activation._complete_lmax_and_res None (Some 5%Z) None
  = Raised AssertionError.
Proof. reflexivity. Qed.

Example complete_lmax_too_large :
  S2Activation._complete_lmax_and_res (Some 5%Z) (Some 4%Z) None
  = Raised AssertionError.
Proof. reflexivity. Qed.

(** The two assertions are the only way out between the computation of
    the triple and its return. *)
Lemma complete_tail (lmax b a : Z) (r : outcome (Z * Z * Z)) :
  r = (_ <- assert (b mod 2 =? 0)%Z ;;
       _ <- assert (lmax + 1 <=? b / 2)%Z ;;
       Returned (lmax, b, a)) ->
  r <> Raised ValueError
  /\ (forall t, r = Returned t ->
        t = (lmax, b, a) /\ (b mod 2 = 0)%Z /\ (lmax + 1 <= b / 2)%Z).
Proof.
  intros ->.
  destruct (b mod 2 =? 0)%Z eqn:Heven; simpl.
  - destruct (lmax + 1 <=? b / 2)%Z eqn:Hle; simpl.
    + split; [discriminate |].
      intros t Ht. inversion Ht; subst.
      apply Z.eqb_eq in Heven. apply Z.leb_le in Hle. auto.
    + split; [discriminate | intros t Ht; discriminate Ht].
  - split; [discriminate | intros t Ht; discriminate Ht].
Qed.

(** C10.  [_complete_lmax_and_res] raises [ValueError] exactly when its
    three arguments are all [None]; with [lmax] alone it returns
    [(lmax, 2 * (lmax + 1), 2 * lmax + 1)]; and every triple it returns has
    an even [res_beta] with [lmax + 1 <= res_beta // 2]. *)
Theorem complete_lmax_and_res_spec (lmax res_beta res_alpha : option Z) :
  (S2Activation._complete_lmax_and_res lmax res_beta res_alpha = Raised ValueError
   <-> lmax = None /\ res_beta = None /\ res_alpha = None)
  /\ (forall v : Z,
        lmax = Some v -> res_beta = None -> res_alpha = None ->
        S2Activation._complete_lmax_and_res lmax res_beta res_alpha
        = Returned (v, 2 * (v + 1), 2 * v + 1)%Z)
  /\ (forall l' b' a' : Z,
        S2Activation._complete_lmax_and_res lmax res_beta res_alpha
        = Returned (l', b', a') ->
        (b' mod 2 = 0)%Z /\ (l' + 1 <= b' / 2)%Z).
Proof.
  split; [| split].
  - split.
    + intros Hraise.
      destruct lmax as [lm |], res_beta as [b |], res_alpha as [a |];
        try (split; [| split]; reflexivity);
        exfalso; revert Hraise;
        unfold S2Activation._complete_lmax_and_res; cbn [forallb is_none andb bind int_of];
        match goal with
        | |- ?r = _ -> False =>
            intros Hr; eapply (proj1 (complete_tail _ _ _ eq_refl)); exact Hr
        end.
    + intros (-> & -> & ->). reflexivity.
  - intros v -> -> ->.
    unfold S2Activation._complete_lmax_and_res; cbn [forallb is_none andb bind int_of].
    replace (Z.max (2 * v + 1) (2 * (v + 1) - 1)) with (2 * v + 1)%Z by lia.
    replace ((2 * (v + 1)) mod 2 =? 0)%Z with true
      by (symmetry; apply Z.eqb_eq; rewrite Z.mul_comm; apply Z.mod_mul; lia).
    replace (v + 1 <=? 2 * (v + 1) / 2)%Z with true
      by (symmetry; apply Z.leb_le; rewrite Z.mul_comm, Z.div_mul; lia).
    reflexivity.
  - intros l' b' a' Hret.
    destruct lmax as [lm |], res_beta as [b |], res_alpha as [a |];
      revert Hret;
      unfold S2Activation._complete_lmax_and_res; cbn [forallb is_none andb bind int_of];
      try discriminate;
      match goal with
      | |- ?r = _ -> _ =>
          intros Hr;
          destruct (proj2 (complete_tail _ _ _ eq_refl) _ Hr) as (Heq & Heven & Hle);
          inversion Heq; subst; split; assumption
      end.
Qed.

(** The three parts of the theorem at [lmax = 2], the other two absent. *)
Lemma complete_lmax_and_res_spec_witness :
  S2Activation._complete_lmax_and_res (Some 2%Z) None None = Returned (2, 6, 5)%Z
  /\ (6 mod 2 = 0)%Z /\ (2 + 1 <= 6 / 2)%Z.
Proof.
  pose proof (complete_lmax_and_res_spec (Some 2%Z) None None) as (_ & Hval & Hshape).
  split.
  - exact (Hval 2%Z eq_refl eq_refl eq_refl).
  - exact (Hshape 2%Z 6%Z 5%Z (Hval 2%Z eq_refl eq_refl eq_refl)).
Defined.

(** ** The radial bins: how many *)

Open Scope R_scope.

Lemma nth_map_seq {A : Type} (f : nat -> A) (n i : nat) (d : A) :
  (i < n)%nat -> nth i (map f (seq 0 n)) d = f i.
Proof.
  intros Hi.
  rewrite (nth_indep _ d (f 0%nat)) by (rewrite length_map, length_seq; lia).
  rewrite map_nth, seq_nth by lia. reflexivity.
Qed.


Lemma Rceil_IZR (z : Z) : Rceil (IZR z) = z.
Proof.
  unfold Rceil.
  assert (Hup : up (- IZR z) = (1 - z)%Z).
  { symmetry. apply tech_up.
    - rewrite minus_IZR. simpl. lra.
    - rewrite minus_IZR. simpl. lra. }
  rewrite Hup. lia.
Qed.

(** [RADII] has 64 bins: 0.75, 0.77, ..., 2.01. *)
Lemma RADII_length : length RADII = 64%nat.
Proof.
  unfold RADII, arange.
  rewrite length_map, length_seq.
  replace ((2.03 - 0.75) / 0.02) with (IZR 64) by lra.
  rewrite Rceil_IZR. reflexivity.
Qed.

Close Scope R_scope.

(** ** Rounding in binary floating point *)

Section BinaryLogarithm.

Import QArith Qround Qabs Qpower.
Local Open Scope Q_scope.

Lemma pow2_pos (z : Z) : 0 < 2 ^ z.
Proof. apply Qpower_0_lt. reflexivity. Qed.

Lemma pow2_succ (z : Z) : 2 ^ (z + 1) == 2 * 2 ^ z.
Proof.
  rewrite Qpower_plus by discriminate. rewrite Qpower_1_r. ring.
Qed.

Lemma pow2_pred (z : Z) : 2 ^ (z - 1) == 2 ^ z / 2.
Proof.
  rewrite Qpower_minus by discriminate. rewrite Qpower_1_r. reflexivity.
Qed.

Lemma pow2_le (a b : Z) : (a <= b)%Z -> 2 ^ a <= 2 ^ b.
Proof. intros Hab. apply Qpower_le_compat_l; [exact Hab | discriminate]. Qed.

Lemma pow2_lt (a b : Z) : (a < b)%Z -> 2 ^ a < 2 ^ b.
Proof. intros Hab. apply Qpower_lt_compat_l; [exact Hab | reflexivity]. Qed.

Lemma pow2_lt_inv (a b : Z) : 2 ^ a < 2 ^ b -> (a < b)%Z.
Proof.
  intros Hlt. destruct (Z.lt_ge_cases a b) as [Hab | Hba]; [exact Hab |].
  apply pow2_le in Hba. Lqa.lra.
Qed.

Lemma pow2_inject (z : Z) : (0 <= z)%Z -> inject_Z (2 ^ z) == 2 ^ z.
Proof. intros Hz. apply (Zpower_Qpower 2 z Hz). Qed.

Lemma floor_log2_spec (x : Q) :
  0 < x ->
  2 ^ IEEE754.floor_log2 x <= x /\ x < 2 ^ (IEEE754.floor_log2 x + 1).
Proof.
  intros Hx. destruct x as [n d].
  assert (Hn : (0 < n)%Z).
  { unfold Qlt in Hx. simpl in Hx. lia. }
  unfold IEEE754.floor_log2. cbn [Qnum Qden].
  set (a := Z.log2 n). set (b := Z.log2 (Z.pos d)).
  destruct (Z.log2_spec n Hn) as [Hal Hau]. fold a in Hal, Hau.
  destruct (Z.log2_spec (Z.pos d) ltac:(lia)) as [Hbl Hbu]. fold b in Hbl, Hbu.
  assert (Ha0 : (0 <= a)%Z) by apply Z.log2_nonneg.
  assert (Hb0 : (0 <= b)%Z) by apply Z.log2_nonneg.
  assert (HA : 0 < 2 ^ a) by apply pow2_pos.
  assert (HB : 0 < 2 ^ b) by apply pow2_pos.
  assert (HnA : 2 ^ a <= inject_Z n).
  { rewrite <- pow2_inject by exact Ha0. rewrite <- Zle_Qle. exact Hal. }
  assert (HnA' : inject_Z n < 2 * 2 ^ a).
  { rewrite <- pow2_succ, <- pow2_inject by lia. rewrite <- Zlt_Qlt.
    replace (a + 1)%Z with (Z.succ a) by lia. exact Hau. }
  assert (HdB : 2 ^ b <= inject_Z (Z.pos d)).
  { rewrite <- pow2_inject by exact Hb0. rewrite <- Zle_Qle. exact Hbl. }
  assert (HdB' : inject_Z (Z.pos d) < 2 * 2 ^ b).
  { rewrite <- pow2_succ, <- pow2_inject by lia. rewrite <- Zlt_Qlt.
    replace (b + 1)%Z with (Z.succ b) by lia. exact Hbu. }
  assert (Hl : 2 ^ (a - b) == 2 ^ a / 2 ^ b)
    by (apply Qpower_minus; discriminate).
  assert (Hx_eq : n # d == inject_Z n / inject_Z (Z.pos d))
    by apply Qmake_Qdiv.
  set (N := inject_Z n) in *. set (De := inject_Z (Z.pos d)) in *.
  set (A := 2 ^ a) in *. set (B := 2 ^ b) in *.
  assert (HDe : 0 < De) by Lqa.lra.
  assert (Hupper : N / De < 2 * (A / B)).
  { apply Qlt_shift_div_r; [exact HDe |].
    setoid_replace (2 * (A / B) * De) with (2 * A * (De / B)) by (field; Lqa.lra).
    assert (H1 : 1 <= De / B) by (apply Qle_shift_div_l; Lqa.lra).
    Lqa.nra. }
  assert (Hlower : A / B / 2 < N / De).
  { apply Qlt_shift_div_l; [exact HDe |].
    setoid_replace (A / B / 2 * De) with (A * (De / (2 * B))) by (field; Lqa.lra).
    assert (H1 : De / (2 * B) < 1) by (apply Qlt_shift_div_r; Lqa.lra).
    Lqa.nra. }
  destruct (Qle_bool (2 ^ (a - b)) (n # d)) eqn:Htest.
  - apply Qle_bool_iff in Htest. split; [exact Htest |].
    rewrite pow2_succ, Hl, Hx_eq. exact Hupper.
  - assert (Hlt : n # d < 2 ^ (a - b)).
    { apply Qnot_le_lt. intros Hle. apply Qle_bool_iff in Hle. congruence. }
    split.
    + rewrite pow2_pred, Hl, Hx_eq. apply Qlt_le_weak. exact Hlower.
    + replace (a - b - 1 + 1)%Z with (a - b)%Z by lia. exact Hlt.
Qed.

Lemma floor_log2_lt (x : Q) (k : Z) :
  0 < x -> x < 2 ^ k -> (IEEE754.floor_log2 x < k)%Z.
Proof.
  intros Hx Hk. destruct (floor_log2_spec Hx) as [Hl _].
  apply pow2_lt_inv. Lqa.lra.
Qed.

Lemma floor_log2_ge (x : Q) (k : Z) :
  0 < x -> 2 ^ k <= x -> (k <= IEEE754.floor_log2 x)%Z.
Proof.
  intros Hx Hk. destruct (floor_log2_spec Hx) as [_ Hu].
  assert (Hlt : (k < IEEE754.floor_log2 x + 1)%Z)
    by (apply pow2_lt_inv; Lqa.lra).
  lia.
Qed.

End BinaryLogarithm.

Section NearestInteger.

Import QArith Qround Qabs Qpower.
Local Open Scope Q_scope.

Lemma round_half_even_error (q : Q) :
  - (1 # 2) <= inject_Z (IEEE754.round_half_even q) - q <= 1 # 2.
Proof.
  unfold IEEE754.round_half_even.
  pose proof (Qfloor_le q) as Hle. pose proof (Qlt_floor q) as Hlt.
  rewrite inject_Z_plus in Hlt.
  change (inject_Z 1) with 1 in Hlt.
  destruct (Qcompare_spec (q - inject_Z (Qfloor q)) (1 # 2)) as [Heq | Hlow | Hhigh].
  - destruct (Z.even (Qfloor q)).
    + Lqa.lra.
    + rewrite inject_Z_plus. change (inject_Z 1) with 1. Lqa.lra.
  - Lqa.lra.
  - rewrite inject_Z_plus. change (inject_Z 1) with 1. Lqa.lra.
Qed.

Lemma round_half_even_comp (q q' : Q) :
  q == q' -> IEEE754.round_half_even q = IEEE754.round_half_even q'.
Proof.
  intros Heq. unfold IEEE754.round_half_even.
  rewrite (Qfloor_comp q q' Heq).
  assert (Hc : Qcompare (q - inject_Z (Qfloor q')) (1 # 2)
               = Qcompare (q' - inject_Z (Qfloor q')) (1 # 2))
    by (apply Qcompare_comp; [rewrite Heq |]; reflexivity).
  rewrite Hc. reflexivity.
Qed.

Lemma round_half_even_Z (z : Z) : IEEE754.round_half_even (inject_Z z) = z.
Proof.
  unfold IEEE754.round_half_even. rewrite Qfloor_Z.
  destruct (Qcompare_spec (inject_Z z - inject_Z z) (1 # 2)) as [Heq | _ | Hhigh];
    [| reflexivity |]; exfalso; Lqa.lra.
Qed.

Lemma round_half_even_bound (q : Q) (n : Z) :
  - inject_Z n <= q <= inject_Z n ->
  (- n <= IEEE754.round_half_even q <= n)%Z.
Proof.
  intros Hq. pose proof (round_half_even_error q) as Herr.
  assert (Hup : inject_Z (IEEE754.round_half_even q) < inject_Z (n + 1)).
  { rewrite inject_Z_plus. change (inject_Z 1) with 1. Lqa.lra. }
  assert (Hlow : inject_Z (- n - 1) < inject_Z (IEEE754.round_half_even q)).
  { unfold Z.sub. rewrite inject_Z_plus, inject_Z_opp.
    change (inject_Z (- (1))) with (- (1)). Lqa.lra. }
  rewrite <- Zlt_Qlt in Hup, Hlow. lia.
Qed.

End NearestInteger.

(** ** Rounding to binary32 *)

Section Binary32.

Import QArith Qround Qabs Qpower.
Local Open Scope Q_scope.

(** The unit roundoff, half of the smallest positive number and the
    smallest normal number. *)
Definition unit_roundoff : Q := Eval vm_compute in 2 ^ (-24).
Definition half_least : Q := Eval vm_compute in 2 ^ (-150).
Definition least_normal : Q := Eval vm_compute in 2 ^ (-126).

(** Zero or a number of the normal range. *)
Definition not_subnormal (x : Q) : Prop := x == 0 \/ 2 ^ (-126) <= Qabs x.

(** A binary32 number: an integer of less than 24 bits times a power of
    two that is at least the smallest positive number. *)
Definition in_format (y : Q) : Prop :=
  exists m c, y == inject_Z m * 2 ^ c /\ (Z.abs m < 2 ^ 24)%Z /\ (-149 <= c)%Z.

Lemma Qabs_bounds (x b : Q) : Qabs x <= b -> - b <= x /\ x <= b.
Proof. intros H. apply Qabs_Qle_condition in H. exact H. Qed.

Lemma Qabs_le_of_bounds (x b : Q) : - b <= x -> x <= b -> Qabs x <= b.
Proof. intros H1 H2. apply Qabs_Qle_condition. split; assumption. Qed.

Lemma scaled_error (d ulp : Q) :
  0 < ulp -> - (1 # 2) <= d <= 1 # 2 -> Qabs (d * ulp) <= ulp * (1 # 2).
Proof.
  intros Hulp Hd. apply Qabs_le_of_bounds; Lqa.nra.
Qed.

Lemma ulp_exponent_cases (x : Q) :
  let c := IEEE754.ulp_exponent 24 128 x in
  (-149 <= c)%Z
  /\ (IEEE754.floor_log2 (Qabs x) - 23 <= c)%Z
  /\ (c = IEEE754.floor_log2 (Qabs x) - 23 \/ c = -149)%Z.
Proof. unfold IEEE754.ulp_exponent. cbv zeta. lia. Qed.

Lemma half_ulp_bound (x : Q) :
  ~ x == 0 ->
  2 ^ IEEE754.ulp_exponent 24 128 x * (1 # 2)
  <= unit_roundoff * Qabs x + half_least.
Proof.
  intros Hx.
  assert (Hpos : 0 < Qabs x).
  { pose proof (Qabs_nonneg x) as Hn.
    destruct (Qeq_dec (Qabs x) 0) as [Hz | Hnz]; [| Lqa.lra].
    exfalso. apply Hx.
    destruct (@Qabs_bounds x 0 ltac:(Lqa.lra)). Lqa.lra. }
  destruct (floor_log2_spec Hpos) as [Hlow _].
  destruct (ulp_exponent_cases x) as (_ & _ & [Hc | Hc]).
  - rewrite Hc.
    replace (IEEE754.floor_log2 (Qabs x) - 23)%Z
      with (IEEE754.floor_log2 (Qabs x) + -24 + 1)%Z by lia.
    rewrite pow2_succ, Qpower_plus by discriminate.
    change (2 ^ (-24)) with unit_roundoff.
    assert (Hu : 0 < unit_roundoff) by reflexivity.
    assert (Hh : 0 < half_least) by reflexivity.
    setoid_replace (2 * (2 ^ IEEE754.floor_log2 (Qabs x) * unit_roundoff) * (1 # 2))
      with (unit_roundoff * 2 ^ IEEE754.floor_log2 (Qabs x)) by ring.
    Lqa.nra.
  - rewrite Hc.
    assert (Hval : 2 ^ (-149) * (1 # 2) == half_least) by reflexivity.
    rewrite Hval.
    assert (Hu : 0 < unit_roundoff) by reflexivity.
    Lqa.nra.
Qed.

Lemma round_reduced_error (x : Q) :
  Qabs x <= 2 ^ 127 ->
  exists y,
    IEEE754.round_reduced 24 128 x = IEEE754.Finite y
    /\ Qabs (y - x) <= unit_roundoff * Qabs x + half_least.
Proof.
  intros Hbound. unfold IEEE754.round_reduced.
  assert (Hu : 0 < unit_roundoff) by reflexivity.
  assert (Hh : 0 < half_least) by reflexivity.
  pose proof (Qabs_nonneg x) as Habs.
  destruct (Qeq_bool x 0) eqn:Hzero.
  - apply Qeq_bool_eq in Hzero. exists 0. split; [reflexivity |].
    setoid_replace (0 - x) with 0 by (rewrite Hzero; ring).
    change (Qabs 0) with 0. Lqa.nra.
  - apply Qeq_bool_neq in Hzero.
    set (ulp := 2 ^ IEEE754.ulp_exponent 24 128 x).
    assert (Hulp : 0 < ulp) by apply pow2_pos.
    set (m := IEEE754.round_half_even (x / ulp)).
    pose proof (round_half_even_error (x / ulp)) as Herr. fold m in Herr.
    pose proof (half_ulp_bound Hzero) as Hhalf. fold ulp in Hhalf.
    assert (Hdiff : inject_Z m * ulp - x == (inject_Z m - x / ulp) * ulp)
      by (field; Lqa.lra).
    assert (Hnear : Qabs (inject_Z m * ulp - x) <= ulp * (1 # 2)).
    { rewrite Hdiff.
      apply scaled_error; [exact Hulp | exact Herr]. }
    assert (Herror : Qabs (inject_Z m * ulp - x)
                     <= unit_roundoff * Qabs x + half_least) by Lqa.lra.
    assert (Hsmall : Qabs (inject_Z m * ulp) < 2 ^ 128).
    { destruct (@Qabs_bounds _ _ Herror) as [H1 H2].
      destruct (@Qabs_bounds _ _ Hbound) as [H3 H4].
      assert (Hu' : unit_roundoff == 1 # 16777216) by reflexivity.
      assert (Hh' : half_least <= 1) by (vm_compute; discriminate).
      assert (Hp : (2 : Q) ^ 127 == 170141183460469231731687303715884105728 # 1)
        by reflexivity.
      assert (Hq : (2 : Q) ^ 128 == 340282366920938463463374607431768211456 # 1)
        by reflexivity.
      rewrite Hq. rewrite Hp in *.
      apply Qabs_Qlt_condition. split; Lqa.nra. }
    destruct (Qle_bool (2 ^ 128) (Qabs (inject_Z m * ulp))) eqn:Hover.
    + apply Qle_bool_iff in Hover. exfalso. Lqa.lra.
    + exists (Qred (inject_Z m * ulp)). split; [reflexivity |].
      rewrite (Qred_correct (inject_Z m * ulp)). exact Herror.
Qed.

Lemma Qabs_inject_Z (m : Z) : Qabs (inject_Z m) == inject_Z (Z.abs m).
Proof. unfold Qabs, inject_Z. reflexivity. Qed.

Lemma Qabs_pow2 (c : Z) : Qabs (2 ^ c) == 2 ^ c.
Proof. apply Qabs_pos. apply Qlt_le_weak. apply pow2_pos. Qed.

Lemma Qabs_nonzero (x : Q) : ~ x == 0 -> 0 < Qabs x.
Proof.
  intros Hx. pose proof (Qabs_nonneg x) as Hn.
  destruct (Qeq_dec (Qabs x) 0) as [Hz | Hnz]; [| Lqa.lra].
  exfalso. apply Hx.
  destruct (@Qabs_bounds x 0 ltac:(Lqa.lra)). Lqa.lra.
Qed.

Lemma Qle_bool_false (x y : Q) : y < x -> Qle_bool x y = false.
Proof.
  intros Hlt. destruct (Qle_bool x y) eqn:Htest; [| reflexivity].
  apply Qle_bool_iff in Htest. exfalso. Lqa.lra.
Qed.

(** A binary32 number is rounded to itself. *)
Lemma round_reduced_exact (r : Q) :
  in_format r -> Qabs r < 2 ^ 128 ->
  IEEE754.round_reduced 24 128 r = IEEE754.Finite (Qred r).
Proof.
  intros (m & c & Hr & Hm & Hc) Hsmall.
  unfold IEEE754.round_reduced.
  destruct (Qeq_bool r 0) eqn:Hzero.
  - apply Qeq_bool_eq in Hzero.
    rewrite (Qred_complete r 0 Hzero). reflexivity.
  - apply Qeq_bool_neq in Hzero.
    set (c' := IEEE754.ulp_exponent 24 128 r).
    pose proof (Qabs_nonzero Hzero) as Hpos.
    assert (Habs : Qabs r == inject_Z (Z.abs m) * 2 ^ c).
    { rewrite Hr, Qabs_Qmult, Qabs_inject_Z, Qabs_pow2. reflexivity. }
    assert (Hmq : inject_Z (Z.abs m) < 2 ^ 24).
    { rewrite <- pow2_inject by lia. rewrite <- Zlt_Qlt. exact Hm. }
    assert (Hlt : Qabs r < 2 ^ (c + 24)).
    { rewrite Habs, Qpower_plus by discriminate.
      pose proof (pow2_pos c) as Hc0.
      set (P := 2 ^ c) in *. set (M := inject_Z (Z.abs m)) in *.
      set (T := 2 ^ 24) in *. Lqa.nra. }
    pose proof (@floor_log2_lt _ _ Hpos Hlt) as Hlog.
    assert (Hcc : (c' <= c)%Z).
    { destruct (ulp_exponent_cases r) as (_ & _ & Hcases). fold c' in Hcases. lia. }
    set (k := (m * 2 ^ (c - c'))%Z).
    assert (Hk : r / 2 ^ c' == inject_Z k).
    { unfold k. rewrite inject_Z_mult, pow2_inject by lia.
      rewrite Qpower_minus by discriminate. rewrite Hr.
      field. pose proof (pow2_pos c'). Lqa.lra. }
    rewrite (round_half_even_comp Hk), round_half_even_Z.
    assert (Hback : inject_Z k * 2 ^ c' == r).
    { rewrite <- Hk. field. pose proof (pow2_pos c'). Lqa.lra. }
    rewrite Qle_bool_false by (rewrite Hback; exact Hsmall).
    rewrite (Qred_complete _ _ Hback). reflexivity.
Qed.

(** What rounding returns is a binary32 number, in lowest terms. *)
Lemma round_reduced_in_format (r y : Q) :
  IEEE754.round_reduced 24 128 r = IEEE754.Finite y ->
  in_format y /\ Qabs y < 2 ^ 128 /\ Qred y = y.
Proof.
  unfold IEEE754.round_reduced.
  destruct (Qeq_bool r 0) eqn:Hzero.
  - intros [= <-]. split; [| split; reflexivity].
    exists 0%Z, 0%Z. split; [reflexivity | split; [reflexivity | lia]].
  - apply Qeq_bool_neq in Hzero.
    set (c' := IEEE754.ulp_exponent 24 128 r).
    set (m := IEEE754.round_half_even (r / 2 ^ c')).
    destruct (Qle_bool (2 ^ 128) (Qabs (inject_Z m * 2 ^ c'))) eqn:Hover;
      [discriminate |].
    set (y0 := inject_Z m * 2 ^ c') in *.
    assert (Hred : Qred y0 == y0) by exact (Qred_correct y0).
    assert (Htwice : Qred (Qred y0) = Qred y0)
      by (apply Qred_complete; exact Hred).
    remember (Qred y0) as yr eqn:Hyr.
    intros Heq. injection Heq as Heq. subst y.
    assert (Hsmall : Qabs y0 < 2 ^ 128).
    { apply Qnot_le_lt. intros Hle. apply Qle_bool_iff in Hle. congruence. }
    split; [| split].
    + pose proof (Qabs_nonzero Hzero) as Hpos.
      destruct (floor_log2_spec Hpos) as [_ Hup].
      destruct (ulp_exponent_cases r) as (Hmin & Hlog & _).
      fold c' in Hmin, Hlog.
      assert (Hlt : Qabs r < 2 ^ 24 * 2 ^ c').
      { rewrite <- Qpower_plus by discriminate.
        eapply Qlt_le_trans; [exact Hup |]. apply pow2_le. lia. }
      assert (Hquot : - inject_Z (2 ^ 24) <= r / 2 ^ c' <= inject_Z (2 ^ 24)).
      { rewrite pow2_inject by lia.
        pose proof (pow2_pos c') as Hc0.
        destruct (@Qabs_bounds r (2 ^ 24 * 2 ^ c') ltac:(Lqa.lra)) as [H1 H2].
        split.
        - apply Qle_shift_div_l; [exact Hc0 | Lqa.lra].
        - apply Qle_shift_div_r; [exact Hc0 | Lqa.lra]. }
      apply round_half_even_bound in Hquot. fold m in Hquot.
      destruct (Z.eq_dec (Z.abs m) (2 ^ 24)) as [Hfull | Hless].
      * exists (m / 2)%Z, (c' + 1)%Z.
        split; [| split; [| lia]].
        -- rewrite Hred. unfold y0. rewrite pow2_succ.
           assert (Hm2 : m = (2 * (m / 2))%Z).
           { assert (Hcases : m = (2 ^ 24)%Z \/ m = (- 2 ^ 24)%Z) by lia.
             destruct Hcases as [-> | ->]; reflexivity. }
           rewrite Hm2 at 1. rewrite inject_Z_mult.
           change (inject_Z 2) with 2. ring.
        -- assert (Hcases : m = (2 ^ 24)%Z \/ m = (- 2 ^ 24)%Z) by lia.
           destruct Hcases as [-> | ->]; reflexivity.
      * exists m, c'. split; [exact Hred | split; [lia | exact Hmin]].
    + rewrite Hred. exact Hsmall.
    + exact Htwice.
Qed.

Lemma in_format_comp (x y : Q) : x == y -> in_format x -> in_format y.
Proof.
  intros Heq (m & c & Hx & Hm & Hc). exists m, c.
  split; [rewrite <- Heq; exact Hx | split; assumption].
Qed.

Lemma not_subnormal_comp (x y : Q) : x == y -> not_subnormal x -> not_subnormal y.
Proof.
  intros Heq [Hzero | Hnormal]; [left | right].
  - rewrite <- Heq. exact Hzero.
  - rewrite <- Heq. exact Hnormal.
Qed.

Lemma tiny_small (x : Q) : IEEE754.tiny 128 x = true -> Qabs x < least_normal.
Proof.
  unfold IEEE754.tiny. intros Htiny.
  apply andb_prop in Htiny. destruct Htiny as [_ Hsmall].
  apply Qnot_le_lt. intros Hle.
  change least_normal with (2 ^ (2 - 128)) in Hle.
  apply Qle_bool_iff in Hle. rewrite Hle in Hsmall. discriminate Hsmall.
Qed.

Lemma tiny_false (x : Q) : not_subnormal x -> IEEE754.tiny 128 x = false.
Proof.
  unfold IEEE754.tiny. intros [Hzero | Hnormal].
  - apply Qeq_bool_iff in Hzero. rewrite Hzero. reflexivity.
  - change (2 ^ (-126)) with (2 ^ (2 - 128)) in Hnormal.
    apply Qle_bool_iff in Hnormal. rewrite Hnormal. apply andb_false_r.
Qed.

Section Underflow.

Variable mode : IEEE754.underflow.

(** One rounding: the relative error is at most the unit roundoff, up to
    the smallest normal number. *)
Lemma round32_error (x : Q) :
  Qabs x <= 2 ^ 127 ->
  exists y,
    Float32.round mode x = IEEE754.Finite y
    /\ Qabs (y - x) <= unit_roundoff * Qabs x + least_normal.
Proof.
  intros Hbound. unfold Float32.round, IEEE754.round. cbv zeta.
  assert (Hu : 0 < unit_roundoff) by reflexivity.
  pose proof (Qabs_nonneg x) as Habs.
  destruct (IEEE754.tiny 128 (Qred x) && IEEE754.result_flushed mode (Qred x))%bool
    eqn:Hflush.
  - apply andb_prop in Hflush. destruct Hflush as [Htiny _].
    apply tiny_small in Htiny. rewrite (Qred_correct x) in Htiny.
    exists 0. split; [reflexivity |].
    assert (Hopp : Qabs (0 - x) == Qabs x).
    { setoid_replace (0 - x) with (- x) by ring. apply Qabs_opp. }
    rewrite Hopp. Lqa.nra.
  - destruct (@round_reduced_error (Qred x)) as (y & Hy & Herr).
    + rewrite (Qred_correct x). exact Hbound.
    + exists y. split; [exact Hy |].
      rewrite (Qred_correct x) in Herr.
      unfold half_least, least_normal in *. Lqa.lra.
Qed.

Lemma round32_comp (x x' : Q) :
  x == x' -> Float32.round mode x = Float32.round mode x'.
Proof.
  intros Heq. unfold Float32.round, IEEE754.round.
  rewrite (Qred_complete x x' Heq). reflexivity.
Qed.

(** A binary32 number that is not subnormal is rounded to itself. *)
Lemma round32_exact (y : Q) :
  in_format y -> Qabs y < 2 ^ 128 -> not_subnormal y ->
  Float32.round mode y = IEEE754.Finite (Qred y).
Proof.
  intros Hformat Hsmall Hnormal. unfold Float32.round, IEEE754.round. cbv zeta.
  assert (Hred : y == Qred y) by (symmetry; apply Qred_correct).
  rewrite (tiny_false (not_subnormal_comp Hred Hnormal)). cbn [andb].
  rewrite round_reduced_exact.
  - f_equal. apply Qred_complete. apply Qred_correct.
  - apply (in_format_comp Hred). exact Hformat.
  - rewrite (Qred_correct y). exact Hsmall.
Qed.

(** The operand that an operation reads: at most the smallest normal
    number away from the operand, and the operand itself unless it is
    subnormal. *)
Lemma flushed_error (x : Q) :
  Qabs (IEEE754.flushed 128 mode x - x) <= least_normal
  /\ Qabs (IEEE754.flushed 128 mode x) <= Qabs x.
Proof.
  unfold IEEE754.flushed.
  pose proof (Qabs_nonneg x) as Habs.
  destruct (IEEE754.tiny 128 x && IEEE754.operand_flushed mode x)%bool eqn:Hflush.
  - apply andb_prop in Hflush. destruct Hflush as [Htiny _].
    apply tiny_small in Htiny.
    assert (Hopp : Qabs (0 - x) == Qabs x).
    { setoid_replace (0 - x) with (- x) by ring. apply Qabs_opp. }
    rewrite Hopp. change (Qabs 0) with 0. split; Lqa.lra.
  - setoid_replace (x - x) with 0 by ring. change (Qabs 0) with 0.
    split; [vm_compute; discriminate | Lqa.lra].
Qed.

Lemma flushed_exact (x : Q) :
  not_subnormal x -> IEEE754.flushed 128 mode x = x.
Proof.
  intros Hnormal. unfold IEEE754.flushed.
  rewrite (tiny_false Hnormal). reflexivity.
Qed.

(** Integers of at most 24 bits are binary32 numbers. *)
Lemma integer_not_subnormal (i : Z) : not_subnormal (inject_Z i).
Proof.
  destruct (Z.eq_dec i 0) as [-> | Hnonzero]; [left; reflexivity | right].
  rewrite Qabs_inject_Z.
  apply Qle_trans with (inject_Z 1); [vm_compute; discriminate |].
  rewrite <- Zle_Qle. lia.
Qed.

Lemma of_Z_exact (i : Z) :
  (Z.abs i <= 2 ^ 24)%Z ->
  exists y, Float32.of_Z mode i = IEEE754.Finite y /\ y == inject_Z i.
Proof.
  intros Hi. exists (Qred (inject_Z i)). split; [| apply Qred_correct].
  unfold Float32.of_Z, IEEE754.of_Z. apply round32_exact.
  - destruct (Z.eq_dec (Z.abs i) (2 ^ 24)) as [Hfull | Hless].
    + exists (i / 2)%Z, 1%Z. split; [| split; [| lia]].
      * assert (Hcases : i = (2 ^ 24)%Z \/ i = (- 2 ^ 24)%Z) by lia.
        destruct Hcases as [-> | ->]; reflexivity.
      * assert (Hcases : i = (2 ^ 24)%Z \/ i = (- 2 ^ 24)%Z) by lia.
        destruct Hcases as [-> | ->]; reflexivity.
    + exists i, 0%Z. split; [| split; lia].
      change (2 ^ 0) with 1. ring.
  - rewrite Qabs_inject_Z.
    apply Qle_lt_trans with (inject_Z (2 ^ 24)).
    + rewrite <- Zle_Qle. exact Hi.
    + reflexivity.
  - apply integer_not_subnormal.
Qed.

End Underflow.

(** What the conversion of a Python number returns is a binary32 number,
    in lowest terms. *)
Lemma of_python_in_format (r y : Q) :
  Float32.of_python r = IEEE754.Finite y ->
  in_format y /\ Qabs y < 2 ^ 128 /\ Qred y = y.
Proof.
  unfold Float32.of_python, Float32.round, IEEE754.round. cbv zeta.
  cbn [IEEE754.result_flushed IEEE754.gradual].
  rewrite andb_false_r. apply round_reduced_in_format.
Qed.

(** A converted Python number that is not subnormal is a fixed point of
    rounding, on every backend. *)
Lemma of_python_fixed (mode : IEEE754.underflow) (r y : Q) :
  Float32.of_python r = IEEE754.Finite y -> not_subnormal y ->
  Float32.round mode y = IEEE754.Finite y.
Proof.
  intros Hy Hnormal.
  destruct (of_python_in_format _ Hy) as (Hformat & Hsmall & Hred).
  rewrite (round32_exact mode Hformat Hsmall Hnormal), Hred. reflexivity.
Qed.

End Binary32.

(** ** [jnp.linspace] in binary32 *)

Section LinspaceError.

Import QArith Qround Qabs Qpower.
Local Open Scope Q_scope.

Variable mode : IEEE754.underflow.

Lemma Qabs_mult_bound (a b A B : Q) :
  Qabs a <= A -> Qabs b <= B -> Qabs (a * b) <= A * B.
Proof.
  intros Ha Hb. rewrite Qabs_Qmult.
  pose proof (Qabs_nonneg a). pose proof (Qabs_nonneg b).
  set (p := Qabs a) in *. set (q := Qabs b) in *. Lqa.nra.
Qed.

Lemma Qabs_plus_bound (a b A B : Q) :
  Qabs a <= A -> Qabs b <= B -> Qabs (a + b) <= A + B.
Proof.
  intros Ha Hb. pose proof (Qabs_triangle a b). Lqa.lra.
Qed.

Lemma pow2_127_value :
  (2 : Q) ^ 127 == 170141183460469231731687303715884105728 # 1.
Proof. reflexivity. Qed.

Lemma pow2_100_value : (2 : Q) ^ 100 == 1267650600228229401496703205376 # 1.
Proof. reflexivity. Qed.

Lemma Qabs_le_Qeq (a b c : Q) : a == b -> Qabs a <= c -> Qabs b <= c.
Proof. intros Heq Ha. rewrite <- Heq. exact Ha. Qed.

(** One rounding, with the magnitude of the argument bounded by [bound]. *)
Lemma round32_within (x bound : Q) :
  Qabs x <= bound -> bound <= 2 ^ 127 ->
  exists y,
    Float32.round mode x = IEEE754.Finite y
    /\ Qabs (y - x) <= unit_roundoff * bound + least_normal.
Proof.
  intros Hx Hbound.
  destruct (@round32_error mode x) as (y & Hy & Herr); [Lqa.lra |].
  exists y. split; [exact Hy |].
  assert (Hu : 0 < unit_roundoff) by reflexivity.
  pose proof (Qabs_nonneg x).
  set (p := Qabs x) in *. set (e := Qabs (y - x)) in *. Lqa.nra.
Qed.

(** A sum of magnitude at most [bound]. *)
Lemma add32_error (a b bound : Q) :
  Qabs (a + b) <= bound -> bound <= 2 ^ 126 ->
  exists r,
    Float32.add mode (IEEE754.Finite a) (IEEE754.Finite b) = IEEE754.Finite r
    /\ Qabs (r - (a + b)) <= unit_roundoff * bound + 4 * least_normal.
Proof.
  intros Hsum Hbound.
  unfold Float32.add, IEEE754.add. fold (Float32.round mode).
  destruct (flushed_error mode a) as [Ha _].
  destruct (flushed_error mode b) as [Hb _].
  set (fa := IEEE754.flushed 128 mode a) in *.
  set (fb := IEEE754.flushed 128 mode b) in *.
  pose proof (@Qabs_plus_bound _ _ _ _ Ha Hb) as Hab.
  assert (Hshift : Qabs (fa + fb) <= bound + 2 * least_normal).
  { apply (@Qabs_le_Qeq ((a + b) + ((fa - a) + (fb - b)))); [ring |].
    apply (Qle_trans _ (bound + (least_normal + least_normal)));
      [apply Qabs_plus_bound; assumption | Lqa.lra]. }
  pose proof pow2_127_value as H127.
  assert (H126 : (2 : Q) ^ 126 == 85070591730234615865843651857942052864 # 1)
    by reflexivity.
  destruct (@round32_within (fa + fb) (bound + 2 * least_normal))
    as (r & Hr & Herr); [exact Hshift | unfold least_normal; Lqa.lra |].
  exists r. split; [exact Hr |].
  apply (@Qabs_le_Qeq ((r - (fa + fb)) + ((fa - a) + (fb - b)))); [ring |].
  pose proof (@Qabs_plus_bound _ _ _ _ Herr Hab) as Htotal.
  unfold unit_roundoff, least_normal in *. Lqa.lra.
Qed.

(** A product of factors of magnitudes at most [A] and [B]. *)
Lemma mul32_error (a b A B : Q) :
  Qabs a <= A -> Qabs b <= B -> A * B <= 2 ^ 127 ->
  exists r,
    Float32.mul mode (IEEE754.Finite a) (IEEE754.Finite b) = IEEE754.Finite r
    /\ Qabs (r - a * b)
       <= unit_roundoff * (A * B) + least_normal * (A + B) + least_normal.
Proof.
  intros HA HB Hbound.
  unfold Float32.mul, IEEE754.mul. fold (Float32.round mode).
  destruct (flushed_error mode a) as [Ha Ha'].
  destruct (flushed_error mode b) as [Hb Hb'].
  set (fa := IEEE754.flushed 128 mode a) in *.
  set (fb := IEEE754.flushed 128 mode b) in *.
  assert (HfA : Qabs fa <= A) by Lqa.lra.
  assert (HfB : Qabs fb <= B) by Lqa.lra.
  destruct (@round32_within (fa * fb) (A * B)) as (r & Hr & Herr);
    [apply Qabs_mult_bound; assumption | exact Hbound |].
  exists r. split; [exact Hr |].
  apply (@Qabs_le_Qeq ((r - fa * fb) + ((fa - a) * fb + a * (fb - b))));
    [ring |].
  pose proof (@Qabs_mult_bound _ _ _ _ Ha HfB) as H1.
  pose proof (@Qabs_mult_bound _ _ _ _ HA Hb) as H2.
  pose proof (@Qabs_plus_bound _ _ _ _ H1 H2) as H3.
  pose proof (@Qabs_plus_bound _ _ _ _ Herr H3) as Htotal.
  eapply Qle_trans; [exact Htotal |].
  unfold unit_roundoff, least_normal. Lqa.lra.
Qed.

Lemma one_value : Float32.one = IEEE754.Finite 1.
Proof. reflexivity. Qed.

Lemma round32_zero (x : Q) : x == 0 -> Float32.round mode x = IEEE754.Finite 0.
Proof. intros Hx. rewrite (round32_comp mode Hx). reflexivity. Qed.

(** The quotient [i / n] of two small integers, rounded. *)
Lemma step_error (i n : nat) :
  (i < n)%nat -> (Z.of_nat n <= 2 ^ 24)%Z ->
  exists s,
    Float32.div mode (Float32.of_Z mode (Z.of_nat i))
                (Float32.of_Z mode (Z.of_nat n))
    = IEEE754.Finite s
    /\ (i = 0%nat -> s = 0)
    /\ Qabs (s - inject_Z (Z.of_nat i) / inject_Z (Z.of_nat n))
       <= unit_roundoff + least_normal.
Proof.
  intros Hi Hn.
  destruct (@of_Z_exact mode (Z.of_nat i)) as (qi & Hqi & Hqi_eq); [lia |].
  destruct (@of_Z_exact mode (Z.of_nat n)) as (qn & Hqn & Hqn_eq); [lia |].
  rewrite Hqi, Hqn. unfold Float32.div, IEEE754.div, IEEE754.is_zero.
  fold (Float32.round mode).
  assert (Hqi_normal : not_subnormal qi).
  { apply (@not_subnormal_comp (inject_Z (Z.of_nat i)));
      [symmetry; exact Hqi_eq | apply integer_not_subnormal]. }
  assert (Hqn_normal : not_subnormal qn).
  { apply (@not_subnormal_comp (inject_Z (Z.of_nat n)));
      [symmetry; exact Hqn_eq | apply integer_not_subnormal]. }
  rewrite (flushed_exact mode Hqi_normal), (flushed_exact mode Hqn_normal).
  assert (Hn_pos : 0 < inject_Z (Z.of_nat n)).
  { change 0 with (inject_Z 0). rewrite <- Zlt_Qlt. lia. }
  assert (Hi_nonneg : 0 <= inject_Z (Z.of_nat i)).
  { change 0 with (inject_Z 0). rewrite <- Zle_Qle. lia. }
  assert (Hi_le : inject_Z (Z.of_nat i) <= inject_Z (Z.of_nat n)).
  { rewrite <- Zle_Qle. lia. }
  assert (Hnonzero : Qeq_bool qn 0 = false).
  { destruct (Qeq_bool qn 0) eqn:Htest; [| reflexivity].
    apply Qeq_bool_eq in Htest. exfalso. rewrite Htest in Hqn_eq. Lqa.lra. }
  rewrite Hnonzero.
  assert (Hquot : qi / qn == inject_Z (Z.of_nat i) / inject_Z (Z.of_nat n))
    by (rewrite Hqi_eq, Hqn_eq; reflexivity).
  assert (Hrange : 0 <= inject_Z (Z.of_nat i) / inject_Z (Z.of_nat n) <= 1).
  { split.
    - apply Qle_shift_div_l; [exact Hn_pos | Lqa.lra].
    - apply Qle_shift_div_r; [exact Hn_pos | Lqa.lra]. }
  destruct (@round32_within (qi / qn) 1) as (s & Hs & Herr).
  - rewrite Hquot. apply Qabs_le_of_bounds; Lqa.lra.
  - rewrite pow2_127_value. Lqa.lra.
  - exists s. split; [exact Hs |]. split.
    + intros ->. rewrite round32_zero in Hs.
      * injection Hs as <-. reflexivity.
      * rewrite Hquot. change (inject_Z (Z.of_nat 0)) with 0.
        unfold Qdiv. ring.
    + apply (@Qabs_le_Qeq (s - qi / qn)); [rewrite Hquot; reflexivity |].
      unfold unit_roundoff, least_normal in *. Lqa.lra.
Qed.

(** The error of one interpolated entry. *)
Definition entry_error (B : Q) : Q := (1 # 1048576) * B + 16 * least_normal.

Lemma interpolation_error (x y B s s' : Q) :
  Qabs x <= B -> Qabs y <= B -> B <= 2 ^ 100 ->
  0 <= s <= 1 -> Qabs (s' - s) <= unit_roundoff + least_normal ->
  exists r,
    Float32.add mode
      (Float32.mul mode (IEEE754.Finite x)
                   (Float32.sub mode Float32.one (IEEE754.Finite s')))
      (Float32.mul mode (IEEE754.Finite y) (IEEE754.Finite s'))
    = IEEE754.Finite r
    /\ Qabs (r - (x + (y - x) * s)) <= entry_error B.
Proof.
  intros Hx Hy HB Hs Hs'.
  pose proof pow2_127_value as H127.
  pose proof pow2_100_value as H100.
  assert (H126 : (2 : Q) ^ 126 == 85070591730234615865843651857942052864 # 1)
    by reflexivity.
  assert (HB0 : 0 <= B) by (pose proof (Qabs_nonneg x); Lqa.lra).
  rewrite one_value.
  unfold Float32.sub, IEEE754.sub, IEEE754.opp.
  fold (Float32.add mode).
  set (e1 := s' - s) in *.
  destruct (@Qabs_bounds _ _ Hs') as [He1l He1u].
  (* 1 - s' *)
  assert (Harg2 : 1 + Qred (- s') == 1 - s')
    by (rewrite (Qred_correct (- s')); ring).
  destruct (@add32_error 1 (Qred (- s')) 2) as (t & Ht & Hterr).
  { rewrite Harg2. unfold unit_roundoff, least_normal in *.
    apply Qabs_le_of_bounds; unfold e1 in *; Lqa.lra. }
  { Lqa.lra. }
  rewrite Ht.
  set (e2 := t - (1 - s')).
  assert (He2 : Qabs e2 <= unit_roundoff * 2 + 4 * least_normal).
  { apply (@Qabs_le_Qeq (t - (1 + Qred (- s')))); [| exact Hterr].
    unfold e2. rewrite Harg2. reflexivity. }
  destruct (@Qabs_bounds _ _ He2) as [He2l He2u].
  assert (Ht_abs : Qabs t <= 2).
  { unfold unit_roundoff, least_normal in *.
    apply Qabs_le_of_bounds; unfold e2, e1 in *; Lqa.lra. }
  assert (Hs_abs : Qabs s' <= 2).
  { unfold unit_roundoff, least_normal in *.
    apply Qabs_le_of_bounds; unfold e1 in *; Lqa.lra. }
  (* x * t *)
  destruct (@mul32_error x t B 2 Hx Ht_abs) as (a & Ha & Haerr).
  { Lqa.lra. }
  rewrite Ha.
  (* y * s' *)
  destruct (@mul32_error y s' B 2 Hy Hs_abs) as (b & Hb & Hberr).
  { Lqa.lra. }
  rewrite Hb.
  set (e3 := a - x * t) in *. set (e4 := b - y * s') in *.
  assert (Hxt : Qabs (x * t) <= B * 2) by (apply Qabs_mult_bound; assumption).
  assert (Hys : Qabs (y * s') <= B * 2) by (apply Qabs_mult_bound; assumption).
  assert (Hab : Qabs (a + b) <= 5 * B + 8 * least_normal).
  { setoid_replace (a + b) with ((x * t + e3) + (y * s' + e4))
      by (unfold e3, e4; ring).
    pose proof (@Qabs_plus_bound _ _ _ _ Hxt Haerr) as H1.
    pose proof (@Qabs_plus_bound _ _ _ _ Hys Hberr) as H2.
    pose proof (@Qabs_plus_bound _ _ _ _ H1 H2) as H3.
    unfold unit_roundoff, least_normal in *. Lqa.lra. }
  destruct (@add32_error a b (5 * B + 8 * least_normal)) as (r & Hr & Hrerr).
  { exact Hab. }
  { unfold least_normal. Lqa.lra. }
  exists r. split; [exact Hr |].
  set (e5 := r - (a + b)) in *.
  assert (Hsplit : r - (x + (y - x) * s)
                   == x * (e2 - e1) + y * e1 + e3 + e4 + e5)
    by (unfold e1, e2, e3, e4, e5; ring).
  assert (He21 : Qabs (e2 - e1)
                 <= (unit_roundoff * 2 + 4 * least_normal)
                    + (unit_roundoff + least_normal)).
  { apply Qabs_le_of_bounds; Lqa.lra. }
  pose proof (@Qabs_mult_bound _ _ _ _ Hx He21) as Hp1.
  pose proof (@Qabs_mult_bound _ _ _ _ Hy Hs') as Hp2.
  pose proof (@Qabs_plus_bound _ _ _ _ Hp1 Hp2) as Hs1.
  pose proof (@Qabs_plus_bound _ _ _ _ Hs1 Haerr) as Hs2.
  pose proof (@Qabs_plus_bound _ _ _ _ Hs2 Hberr) as Hs3.
  pose proof (@Qabs_plus_bound _ _ _ _ Hs3 Hrerr) as Htotal.
  apply (@Qabs_le_Qeq (x * (e2 - e1) + y * e1 + e3 + e4 + e5));
    [symmetry; exact Hsplit |].
  unfold entry_error. unfold unit_roundoff, least_normal in *. Lqa.lra.
Qed.

(** The first entry is [start] itself. *)
Lemma interpolation_first (x y : Q) :
  Float32.round mode x = IEEE754.Finite x -> not_subnormal x ->
  Float32.add mode
    (Float32.mul mode (IEEE754.Finite x)
                 (Float32.sub mode Float32.one (IEEE754.Finite 0)))
    (Float32.mul mode (IEEE754.Finite y) (IEEE754.Finite 0))
  = IEEE754.Finite x.
Proof.
  intros Hx Hnormal.
  assert (Hone : Float32.sub mode Float32.one (IEEE754.Finite 0)
                 = IEEE754.Finite 1) by reflexivity.
  rewrite Hone.
  assert (Hzero : not_subnormal 0) by (left; reflexivity).
  assert (Hunit : not_subnormal 1) by (right; vm_compute; discriminate).
  unfold Float32.mul, Float32.add, IEEE754.mul, IEEE754.add.
  fold (Float32.round mode).
  rewrite (flushed_exact mode Hnormal), (flushed_exact mode Hunit),
    (flushed_exact mode Hzero).
  rewrite (@round32_comp mode (x * 1) x) by ring. rewrite Hx.
  rewrite (@round32_zero (IEEE754.flushed 128 mode y * 0)) by ring.
  rewrite (flushed_exact mode Hnormal), (flushed_exact mode Hzero).
  rewrite (@round32_comp mode (x + 0) x) by ring. exact Hx.
Qed.

Lemma map_finite {A : Type} (g : A -> IEEE754.float) (P : A -> Q -> Prop)
    (xs : list A) :
  (forall a, In a xs -> exists r, g a = IEEE754.Finite r /\ P a r) ->
  exists rs,
    map g xs = map IEEE754.Finite rs
    /\ length rs = length xs
    /\ forall (k : nat) (a : A) (d : Q),
         nth_error xs k = Some a -> P a (nth k rs d).
Proof.
  induction xs as [| a xs IH]; intros Hall.
  - exists []. split; [reflexivity | split; [reflexivity |]].
    intros k a d Hk. destruct k; discriminate Hk.
  - destruct (Hall a (or_introl eq_refl)) as (r & Hr & HP).
    destruct IH as (rs & Hmap & Hlen & Hnth).
    { intros a' Ha'. apply Hall. right. exact Ha'. }
    exists (r :: rs). split; [| split].
    + simpl. rewrite Hr, Hmap. reflexivity.
    + simpl. rewrite Hlen. reflexivity.
    + intros k a' d Hk. destruct k as [| k].
      * injection Hk as <-. exact HP.
      * simpl. apply (Hnth k a' d). exact Hk.
Qed.

(** The entry that exact arithmetic would give. *)
Definition ideal_entry (x y : Q) (n i : nat) : Q :=
  x + (y - x) * (inject_Z (Z.of_nat i) / inject_Z (Z.of_nat n)).

(** Every entry of [linspace] is finite and near the ideal entry; the first
    is [start] and the last is [stop]. *)
Lemma linspace_entries (x y : Q) (n : nat) :
  Float32.round mode x = IEEE754.Finite x -> not_subnormal x ->
  Qabs x + Qabs y <= 2 ^ 100 ->
  (0 < n)%nat -> (Z.of_nat n <= 2 ^ 24)%Z ->
  exists radii,
    Float32.linspace mode (IEEE754.Finite x) (IEEE754.Finite y) (S n)
    = map IEEE754.Finite radii
    /\ length radii = S n
    /\ nth 0 radii 0 = x
    /\ nth n radii 0 = y
    /\ forall i, (i < n)%nat ->
         Qabs (nth i radii 0 - ideal_entry x y n i)
         <= entry_error (Qabs x + Qabs y).
Proof.
  intros Hx Hnormal Hmag Hn Hsmall.
  set (B := Qabs x + Qabs y) in *.
  assert (HxB : Qabs x <= B) by (unfold B; pose proof (Qabs_nonneg y); Lqa.lra).
  assert (HyB : Qabs y <= B) by (unfold B; pose proof (Qabs_nonneg x); Lqa.lra).
  pose (g := fun i : nat =>
               let step := Float32.div mode (Float32.of_Z mode (Z.of_nat i))
                                       (Float32.of_Z mode (Z.of_nat n)) in
               Float32.add mode
                 (Float32.mul mode (IEEE754.Finite x)
                              (Float32.sub mode Float32.one step))
                 (Float32.mul mode (IEEE754.Finite y) step)).
  pose (P := fun (i : nat) (r : Q) =>
               (i = 0%nat -> r = x)
               /\ Qabs (r - ideal_entry x y n i) <= entry_error B).
  destruct (@map_finite nat g P (seq 0 n)) as (rs & Hmap & Hlen & Hnth).
  { intros i Hi. apply in_seq in Hi.
    destruct (@step_error i n) as (s' & Hs' & Hs0 & Herr);
      [lia | exact Hsmall |].
    assert (Hrange : 0 <= inject_Z (Z.of_nat i) / inject_Z (Z.of_nat n) <= 1).
    { assert (Hn_pos : 0 < inject_Z (Z.of_nat n)).
      { change 0 with (inject_Z 0). rewrite <- Zlt_Qlt. lia. }
      assert (Hi_nonneg : 0 <= inject_Z (Z.of_nat i)).
      { change 0 with (inject_Z 0). rewrite <- Zle_Qle. lia. }
      assert (Hi_le : inject_Z (Z.of_nat i) <= inject_Z (Z.of_nat n)).
      { rewrite <- Zle_Qle. lia. }
      split.
      - apply Qle_shift_div_l; [exact Hn_pos | Lqa.lra].
      - apply Qle_shift_div_r; [exact Hn_pos | Lqa.lra]. }
    destruct (@interpolation_error x y B _ s' HxB HyB Hmag Hrange Herr)
      as (r & Hr & Hrerr).
    exists r. unfold g. cbv zeta. rewrite Hs'.
    split; [exact Hr |].
    split; [| exact Hrerr].
    intros Hi0. rewrite (Hs0 Hi0) in Hr.
    rewrite (@interpolation_first x y Hx Hnormal) in Hr.
    injection Hr as Hr. symmetry. exact Hr. }
  rewrite length_seq in Hlen.
  exists (rs ++ [y]).
  split; [| split; [| split; [| split]]].
  - unfold Float32.linspace. destruct n as [| n']; [lia |].
    fold g. rewrite Hmap, map_app. reflexivity.
  - rewrite length_app, Hlen. simpl. lia.
  - rewrite app_nth1 by lia.
    destruct (Hnth 0%nat 0%nat 0) as [Hfirst _].
    { destruct n; [lia | reflexivity]. }
    apply Hfirst. reflexivity.
  - rewrite app_nth2 by lia. rewrite Hlen, Nat.sub_diag. reflexivity.
  - intros i Hi. rewrite app_nth1 by lia.
    destruct (Hnth i i 0) as [_ Herr]; [| exact Herr].
    rewrite nth_error_nth' with (d := 0%nat) by (rewrite length_seq; lia).
    rewrite seq_nth by lia. reflexivity.
Qed.

End LinspaceError.

(** ** [create_radii] and [RADII] in the arithmetic of the arrays *)

Section RadialBins.

Import QArith Qround Qabs Qpower.
Local Open Scope Q_scope.

(** Every entry is less than the next one. *)
Definition increasing (radii : list Q) : Prop :=
  forall i, (S i < length radii)%nat -> nth i radii 0 < nth (S i) radii 0.

Fixpoint increasingb (radii : list Q) : bool :=
  match radii with
  | [] => true
  | x :: rest =>
      match rest with
      | [] => true
      | y :: _ => negb (Qle_bool y x) && increasingb rest
      end
  end.

Lemma increasingb_correct (radii : list Q) :
  increasingb radii = true -> increasing radii.
Proof.
  induction radii as [| x [| y rest] IH]; intros Hb i Hi; simpl in Hi; try lia.
  change (increasingb (x :: y :: rest))
    with (negb (Qle_bool y x) && increasingb (y :: rest))%bool in Hb.
  apply andb_prop in Hb. destruct Hb as [Hxy Hrest].
  destruct i as [| i].
  - simpl. apply Qnot_le_lt. intros Hle. apply Qle_bool_iff in Hle.
    rewrite Hle in Hxy. discriminate Hxy.
  - change (nth i (y :: rest) 0 < nth (S i) (y :: rest) 0).
    apply IH; [exact Hrest | simpl; lia].
Qed.

(** The least spacing for which the rounded entries stay in order. *)
Definition least_spacing (B : Q) : Q := (1 # 524288) * B + 64 * least_normal.

Lemma ideal_entry_step (x y : Q) (n i : nat) :
  (0 < n)%nat ->
  ideal_entry x y n (S i) - ideal_entry x y n i
  == (y - x) / inject_Z (Z.of_nat n).
Proof.
  intros Hn. unfold ideal_entry.
  rewrite Nat2Z.inj_succ. unfold Z.succ. rewrite inject_Z_plus.
  change (inject_Z 1) with 1.
  assert (Hpos : 0 < inject_Z (Z.of_nat n)).
  { change 0 with (inject_Z 0). rewrite <- Zlt_Qlt. lia. }
  field. Lqa.lra.
Qed.

Lemma ideal_entry_last (x y : Q) (n : nat) :
  (0 < n)%nat -> ideal_entry x y n n == y.
Proof.
  intros Hn. unfold ideal_entry.
  assert (Hpos : 0 < inject_Z (Z.of_nat n)).
  { change 0 with (inject_Z 0). rewrite <- Zlt_Qlt. lia. }
  field. Lqa.lra.
Qed.

(** With the least spacing between the ideal entries, [linspace] is
    strictly increasing. *)
Lemma linspace_increasing (mode : IEEE754.underflow) (x y : Q) (n : nat) :
  Float32.round mode x = IEEE754.Finite x -> not_subnormal x ->
  Qabs x + Qabs y <= 2 ^ 100 ->
  (0 < n)%nat -> (Z.of_nat n <= 2 ^ 24)%Z ->
  least_spacing (Qabs x + Qabs y) * inject_Z (Z.of_nat n) <= y - x ->
  exists radii,
    Float32.linspace mode (IEEE754.Finite x) (IEEE754.Finite y) (S n)
    = map IEEE754.Finite radii
    /\ length radii = S n
    /\ nth 0 radii 0 = x
    /\ nth n radii 0 = y
    /\ increasing radii.
Proof.
  intros Hx Hnormal Hmag Hn Hsmall Hspacing.
  destruct (@linspace_entries mode _ y _ Hx Hnormal Hmag Hn Hsmall)
    as (radii & Hrun & Hlen & Hfirst & Hlast & Hnear).
  exists radii.
  split; [exact Hrun |]. split; [exact Hlen |].
  split; [exact Hfirst |]. split; [exact Hlast |].
  set (B := Qabs x + Qabs y) in *.
  assert (HB : 0 <= B).
  { unfold B. pose proof (Qabs_nonneg x). pose proof (Qabs_nonneg y). Lqa.lra. }
  assert (Hpos : 0 < inject_Z (Z.of_nat n)).
  { change 0 with (inject_Z 0). rewrite <- Zlt_Qlt. lia. }
  assert (Hgap : least_spacing B <= (y - x) / inject_Z (Z.of_nat n)).
  { apply Qle_shift_div_l; [exact Hpos | exact Hspacing]. }
  intros i Hi. rewrite Hlen in Hi.
  assert (Hi_near := Hnear i ltac:(lia)).
  destruct (@Qabs_bounds _ _ Hi_near) as [Hil Hiu].
  pose proof (@ideal_entry_step x y n i Hn) as Hstep.
  destruct (Nat.eq_dec (S i) n) as [Hend | Hmiddle].
  - rewrite Hend, Hlast.
    pose proof (@ideal_entry_last x y n Hn) as Hideal.
    rewrite Hend in Hstep.
    unfold least_spacing, entry_error, least_normal in *. Lqa.lra.
  - assert (Hnext := Hnear (S i) ltac:(lia)).
    destruct (@Qabs_bounds _ _ Hnext) as [Hnl Hnu].
    unfold least_spacing, entry_error, least_normal in *. Lqa.lra.
Qed.

Lemma create_radii_linspace (mode : IEEE754.underflow)
    (min_radius max_radius x y : Q) (num_radii : Z) :
  Float32.of_python min_radius = IEEE754.Finite x ->
  Float32.of_python max_radius = IEEE754.Finite y ->
  not_subnormal x ->
  (2 <= num_radii <= 2 ^ 24)%Z ->
  (if (num_radii <? 0)%Z then Raised ValueError
   else Returned (Float32.linspace mode (Float32.of_python min_radius)
                                   (Float32.of_python max_radius)
                                   (Z.to_nat num_radii)))
  = Returned (Float32.linspace mode (IEEE754.Finite x) (IEEE754.Finite y)
                               (S (Z.to_nat (num_radii - 1))))
  /\ Float32.round mode x = IEEE754.Finite x
  /\ (0 < Z.to_nat (num_radii - 1))%nat
  /\ (Z.of_nat (Z.to_nat (num_radii - 1)) <= 2 ^ 24)%Z
  /\ inject_Z (Z.of_nat (Z.to_nat (num_radii - 1))) == inject_Z (num_radii - 1).
Proof.
  intros Hx Hy Hnormal Hnum.
  destruct (Z.ltb_spec num_radii 0) as [Hneg | _]; [lia |].
  rewrite Hx, Hy.
  replace (Z.to_nat num_radii) with (S (Z.to_nat (num_radii - 1))) by lia.
  split; [reflexivity |].
  split; [exact (of_python_fixed mode _ Hx Hnormal) |].
  split; [lia |]. split; [lia |].
  rewrite Z2Nat.id by lia. reflexivity.
Qed.

(** The radii of the module constant, as numbers. *)
Definition RADII_values : list Q :=
  Eval vm_compute in
    match Float32.RADII with
    | Returned radii => map Float32.value radii
    | Raised _ => []
    end.

Lemma RADII_returned : Float32.RADII = Returned (map IEEE754.Finite RADII_values).
Proof. vm_compute. reflexivity. Qed.

(** A joint predictor with three bins between two neighbouring binary32
    numbers, 1 and [1 + 2^-23]. *)
Definition adjacent_bins : Float32.TargetPositionPredictor.Self :=
  {| Float32.TargetPositionPredictor.position_coeffs_lmax := 1;
     Float32.TargetPositionPredictor.res_beta := 4;
     Float32.TargetPositionPredictor.res_alpha := 3;
     Float32.TargetPositionPredictor.num_channels := 1;
     Float32.TargetPositionPredictor.num_species := 5;
     Float32.TargetPositionPredictor.min_radius := 1;
     Float32.TargetPositionPredictor.max_radius := 8388609 # 8388608;
     Float32.TargetPositionPredictor.num_radii := 3;
     Float32.TargetPositionPredictor.apply_gate := false |}.

(** C8, as stated, fails.  Between two neighbouring binary32 numbers there
    is no third one: with [min_radius = 1], [max_radius = 1 + 2^-23] and
    three radii, the middle radius is rounded to [min_radius], and the
    sequence is not strictly increasing, whatever the backend does with
    subnormal numbers. *)
Lemma create_radii_adjacent_floats :
  Float32.TargetPositionPredictor.min_radius adjacent_bins
  < Float32.TargetPositionPredictor.max_radius adjacent_bins
  /\ (2 <= Float32.TargetPositionPredictor.num_radii adjacent_bins)%Z
  /\ (forall mode : IEEE754.underflow,
        Float32.TargetPositionPredictor.create_radii mode adjacent_bins
        = Returned (map IEEE754.Finite [1; 1; 8388609 # 8388608]))
  /\ ~ increasing [1; 1; 8388609 # 8388608].
Proof.
  split; [reflexivity |].
  split; [discriminate |].
  split; [intros mode; vm_compute; reflexivity |].
  intros Hinc. specialize (Hinc 0%nat ltac:(simpl; lia)).
  simpl in Hinc. revert Hinc. apply Qlt_irrefl.
Qed.

(** Where the backend flushes subnormal numbers, radii next to the
    smallest normal number lose their order, which gradual underflow
    keeps: five radii from [2^-126] to [2^-125]. *)
Definition smallest_bins : Float32.TargetPositionPredictor.Self :=
  {| Float32.TargetPositionPredictor.position_coeffs_lmax := 1;
     Float32.TargetPositionPredictor.res_beta := 4;
     Float32.TargetPositionPredictor.res_alpha := 3;
     Float32.TargetPositionPredictor.num_channels := 1;
     Float32.TargetPositionPredictor.num_species := 5;
     Float32.TargetPositionPredictor.min_radius := least_normal;
     Float32.TargetPositionPredictor.max_radius := 2 * least_normal;
     Float32.TargetPositionPredictor.num_radii := 5;
     Float32.TargetPositionPredictor.apply_gate := false |}.

Example create_radii_flushed :
  Float32.TargetPositionPredictor.create_radii IEEE754.flush_to_zero
                                               smallest_bins
  = Returned
      (map IEEE754.Finite
           [least_normal; 0; least_normal;
            3 # 170141183460469231731687303715884105728;
            1 # 42535295865117307932921825928971026432])
  /\ Float32.TargetPositionPredictor.create_radii IEEE754.gradual
                                                  smallest_bins
     = Returned
         (map IEEE754.Finite
              [least_normal;
               5 # 340282366920938463463374607431768211456;
               3 # 170141183460469231731687303715884105728;
               7 # 340282366920938463463374607431768211456;
               1 # 42535295865117307932921825928971026432]).
Proof. split; vm_compute; reflexivity. Qed.

(** C8, as the code has it.  Let [x] and [y] be [min_radius] and
    [max_radius] as binary32 numbers, both finite with
    [|x| + |y| <= 2^100], and [x] zero or normal.  With between 2 and
    [2^24] radii whose spacing [(y - x) / (num_radii - 1)] is at least
    [2^-19 (|x| + |y|) + 2^-120], both [create_radii] methods return
    [num_radii] strictly increasing radii that start at [x] and end at
    [y], whether the backend keeps subnormal numbers or flushes them; the
    constant [RADII] has 64 strictly increasing radii. *)
Theorem create_radii_increasing :
  (forall (mode : IEEE754.underflow)
          (self : Float32.TargetPositionPredictor.Self) (x y : Q),
      Float32.of_python (Float32.TargetPositionPredictor.min_radius self)
      = IEEE754.Finite x ->
      Float32.of_python (Float32.TargetPositionPredictor.max_radius self)
      = IEEE754.Finite y ->
      not_subnormal x ->
      Qabs x + Qabs y <= 2 ^ 100 ->
      (2 <= Float32.TargetPositionPredictor.num_radii self <= 2 ^ 24)%Z ->
      least_spacing (Qabs x + Qabs y)
      * inject_Z (Float32.TargetPositionPredictor.num_radii self - 1)
      <= y - x ->
      exists radii,
        Float32.TargetPositionPredictor.create_radii mode self
        = Returned (map IEEE754.Finite radii)
        /\ length radii
           = Z.to_nat (Float32.TargetPositionPredictor.num_radii self)
        /\ nth 0 radii 0 = x
        /\ nth (length radii - 1) radii 0 = y
        /\ increasing radii)
  /\ (forall (mode : IEEE754.underflow)
             (self : Float32.FactorizedTargetPositionPredictor.Self) (x y : Q),
      Float32.of_python (Float32.FactorizedTargetPositionPredictor.min_radius self)
      = IEEE754.Finite x ->
      Float32.of_python (Float32.FactorizedTargetPositionPredictor.max_radius self)
      = IEEE754.Finite y ->
      not_subnormal x ->
      Qabs x + Qabs y <= 2 ^ 100 ->
      (2 <= Float32.FactorizedTargetPositionPredictor.num_radii self <= 2 ^ 24)%Z ->
      least_spacing (Qabs x + Qabs y)
      * inject_Z (Float32.FactorizedTargetPositionPredictor.num_radii self - 1)
      <= y - x ->
      exists radii,
        Float32.FactorizedTargetPositionPredictor.create_radii mode self
        = Returned (map IEEE754.Finite radii)
        /\ length radii
           = Z.to_nat (Float32.FactorizedTargetPositionPredictor.num_radii self)
        /\ nth 0 radii 0 = x
        /\ nth (length radii - 1) radii 0 = y
        /\ increasing radii)
  /\ exists radii,
       Float32.RADII = Returned (map IEEE754.Finite radii)
       /\ length radii = 64%nat
       /\ increasing radii.
Proof.
  assert (Hboth : forall (mode : IEEE754.underflow)
                         (min_radius max_radius x y : Q) (num_radii : Z),
             Float32.of_python min_radius = IEEE754.Finite x ->
             Float32.of_python max_radius = IEEE754.Finite y ->
             not_subnormal x ->
             Qabs x + Qabs y <= 2 ^ 100 ->
             (2 <= num_radii <= 2 ^ 24)%Z ->
             least_spacing (Qabs x + Qabs y) * inject_Z (num_radii - 1) <= y - x ->
             exists radii,
               (if (num_radii <? 0)%Z then Raised ValueError
                else Returned (Float32.linspace mode
                                 (Float32.of_python min_radius)
                                 (Float32.of_python max_radius)
                                 (Z.to_nat num_radii)))
               = Returned (map IEEE754.Finite radii)
               /\ length radii = Z.to_nat num_radii
               /\ nth 0 radii 0 = x
               /\ nth (length radii - 1) radii 0 = y
               /\ increasing radii).
  { intros mode min_radius max_radius x y num_radii
           Hx Hy Hnormal Hmag Hnum Hspacing.
    destruct (@create_radii_linspace mode _ _ _ _ _ Hx Hy Hnormal Hnum)
      as (Hrun & Hfixed & Hpos & Hsmall & Hn).
    destruct (@linspace_increasing mode x y (Z.to_nat (num_radii - 1))
                Hfixed Hnormal Hmag Hpos Hsmall)
      as (radii & Hradii & Hlen & Hfirst & Hlast & Hinc).
    { rewrite Hn. exact Hspacing. }
    exists radii. rewrite Hrun, Hradii.
    split; [reflexivity |].
    split; [rewrite Hlen; lia |].
    split; [exact Hfirst |].
    split; [| exact Hinc].
    rewrite Hlen. simpl. rewrite Nat.sub_0_r. exact Hlast. }
  split; [| split].
  - intros mode self x y. apply Hboth.
  - intros mode self x y. apply Hboth.
  - exists RADII_values.
    split; [exact RADII_returned |].
    split; [reflexivity |].
    apply increasingb_correct. vm_compute. reflexivity.
Qed.

(** A joint predictor with three bins between 0.5 and 2. *)
Definition three_bins : Float32.TargetPositionPredictor.Self :=
  {| Float32.TargetPositionPredictor.position_coeffs_lmax := 1;
     Float32.TargetPositionPredictor.res_beta := 4;
     Float32.TargetPositionPredictor.res_alpha := 3;
     Float32.TargetPositionPredictor.num_channels := 1;
     Float32.TargetPositionPredictor.num_species := 5;
     Float32.TargetPositionPredictor.min_radius := 1 # 2;
     Float32.TargetPositionPredictor.max_radius := 2;
     Float32.TargetPositionPredictor.num_radii := 3;
     Float32.TargetPositionPredictor.apply_gate := false |}.

Lemma create_radii_increasing_witness :
  Float32.of_python (Float32.TargetPositionPredictor.min_radius three_bins)
  = IEEE754.Finite (1 # 2)
  /\ Float32.of_python (Float32.TargetPositionPredictor.max_radius three_bins)
     = IEEE754.Finite 2
  /\ not_subnormal (1 # 2)
  /\ Qabs (1 # 2) + Qabs 2 <= 2 ^ 100
  /\ (2 <= Float32.TargetPositionPredictor.num_radii three_bins <= 2 ^ 24)%Z
  /\ least_spacing (Qabs (1 # 2) + Qabs 2)
     * inject_Z (Float32.TargetPositionPredictor.num_radii three_bins - 1)
     <= 2 - (1 # 2)
  /\ exists radii,
       Float32.TargetPositionPredictor.create_radii IEEE754.flush_to_zero
                                                    three_bins
       = Returned (map IEEE754.Finite radii)
       /\ length radii = 3%nat
       /\ nth 0 radii 0 = 1 # 2
       /\ nth (length radii - 1) radii 0 = 2
       /\ increasing radii.
Proof.
  assert (Hx : Float32.of_python
                 (Float32.TargetPositionPredictor.min_radius three_bins)
               = IEEE754.Finite (1 # 2)) by reflexivity.
  assert (Hy : Float32.of_python
                 (Float32.TargetPositionPredictor.max_radius three_bins)
               = IEEE754.Finite 2) by reflexivity.
  assert (Hnormal : not_subnormal (1 # 2)) by (right; vm_compute; discriminate).
  assert (Hmag : Qabs (1 # 2) + Qabs 2 <= 2 ^ 100) by (vm_compute; discriminate).
  assert (Hnum : (2 <= Float32.TargetPositionPredictor.num_radii three_bins
                  <= 2 ^ 24)%Z) by (simpl; lia).
  assert (Hspacing :
            least_spacing (Qabs (1 # 2) + Qabs 2)
            * inject_Z (Float32.TargetPositionPredictor.num_radii three_bins - 1)
            <= 2 - (1 # 2)) by (vm_compute; discriminate).
  split; [exact Hx |]. split; [exact Hy |]. split; [exact Hnormal |].
  split; [exact Hmag |]. split; [exact Hnum |]. split; [exact Hspacing |].
  exact (proj1 create_radii_increasing IEEE754.flush_to_zero three_bins
           (1 # 2) 2 Hx Hy Hnormal Hmag Hnum Hspacing).
Defined.

End RadialBins.

(** ** Segments of a batch *)

Open Scope R_scope.

Lemma Rsum_app (xs ys : list R) : Rsum (xs ++ ys) = Rsum xs + Rsum ys.
Proof.
  induction xs as [| x xs IH]; simpl.
  - lra.
  - rewrite IH. lra.
Qed.

Lemma Rsum_map_div (xs : list R) (c : R) :
  Rsum (map (fun e => e / c) xs) = Rsum xs / c.
Proof.
  induction xs as [| x xs IH]; simpl.
  - unfold Rdiv. lra.
  - rewrite IH. unfold Rdiv. lra.
Qed.

Lemma Rsum_exp_pos {A : Type} (f : A -> R) (xs : list A) :
  xs <> [] -> 0 < Rsum (map (fun x => exp (f x)) xs).
Proof.
  intros Hne.
  assert (Hnonneg : forall ys : list A, 0 <= Rsum (map (fun x => exp (f x)) ys)).
  { induction ys as [| y ys IH]; simpl; [lra |].
    pose proof (exp_pos (f y)). lra. }
  destruct xs as [| x xs]; [contradiction |].
  simpl. pose proof (exp_pos (f x)). pose proof (Hnonneg xs). lra.
Qed.

Close Scope R_scope.

Section SegmentMembers.

Context {A : Type}.

Lemma segment_members_nil_ids (data : list A) (g : nat) :
  segment_members data [] g = [].
Proof. unfold segment_members. destruct data; reflexivity. Qed.

Lemma segment_members_cons (x : A) (data : list A) (s : nat) (ids : list nat)
    (g : nat) :
  segment_members (x :: data) (s :: ids) g
  = if s =? g then x :: segment_members data ids g
    else segment_members data ids g.
Proof.
  unfold segment_members. simpl.
  destruct (s =? g); reflexivity.
Qed.

Lemma segment_members_app (d1 d2 : list A) (i1 i2 : list nat) (g : nat) :
  length d1 = length i1 ->
  segment_members (d1 ++ d2) (i1 ++ i2) g
  = segment_members d1 i1 g ++ segment_members d2 i2 g.
Proof.
  revert i1.
  induction d1 as [| x d1 IH]; intros [| s i1] Hlen; try discriminate Hlen.
  - reflexivity.
  - simpl app. rewrite !segment_members_cons.
    rewrite IH by (simpl in Hlen; lia).
    destruct (s =? g); reflexivity.
Qed.

Lemma segment_members_absent (data : list A) (ids : list nat) (g : nat) :
  ~ In g ids -> segment_members data ids g = [].
Proof.
  revert ids.
  induction data as [| x data IH]; intros [| s ids] Hnot; try reflexivity.
  rewrite segment_members_cons.
  destruct (Nat.eqb_spec s g) as [-> | Hne].
  - exfalso. apply Hnot. left. reflexivity.
  - apply IH. intros Hin. apply Hnot. right. exact Hin.
Qed.

Lemma segment_members_repeat (data : list A) (g n : nat) :
  length data = n -> segment_members data (repeat g n) g = data.
Proof.
  revert n.
  induction data as [| x data IH]; intros [| n] Hlen; try discriminate Hlen.
  - reflexivity.
  - simpl repeat. rewrite segment_members_cons, Nat.eqb_refl.
    f_equal. apply IH. simpl in Hlen. lia.
Qed.

(** The members of a segment that occupies one block of the batch. *)
Lemma segment_members_block (data : list A) (i1 i3 : list nat) (g n : nat) :
  ~ In g i1 -> ~ In g i3 ->
  length data = length (i1 ++ repeat g n ++ i3) ->
  segment_members data (i1 ++ repeat g n ++ i3) g
  = firstn n (skipn (length i1) data).
Proof.
  intros H1 H3 Hlen.
  rewrite !length_app, repeat_length in Hlen.
  rewrite <- (firstn_skipn (length i1) data) at 1.
  rewrite segment_members_app by (rewrite length_firstn; lia).
  rewrite (@segment_members_absent _ i1) by exact H1. simpl app.
  rewrite <- (firstn_skipn n (skipn (length i1) data)) at 1.
  rewrite segment_members_app
    by (rewrite length_firstn, length_skipn, repeat_length; lia).
  rewrite (@segment_members_absent _ i3), app_nil_r by exact H3.
  apply segment_members_repeat.
  rewrite length_firstn, length_skipn. lia.
Qed.

End SegmentMembers.

(** A per-node map that reads the node's value and segment commutes with
    taking the members of a segment. *)
Lemma segment_members_map2 {A B : Type} (F : A -> nat -> B) (data : list A)
    (ids : list nat) (g : nat) :
  segment_members (map (fun ds => F (fst ds) (snd ds)) (combine data ids)) ids g
  = map (fun d => F d g) (segment_members data ids g).
Proof.
  revert ids.
  induction data as [| x data IH]; intros [| s ids]; try reflexivity.
  simpl combine. simpl map. rewrite !segment_members_cons.
  destruct (Nat.eqb_spec s g) as [-> | Hne].
  - simpl. f_equal. apply IH.
  - apply IH.
Qed.

(** The segment identifiers of a batch: graph [k], [k + 1], ... in blocks. *)
Definition ids_from (k : nat) (counts : list nat) : list nat :=
  flat_map (fun gn => repeat (fst gn) (snd gn))
           (combine (seq k (length counts)) counts).

Lemma ids_from_cons (k n : nat) (counts : list nat) :
  ids_from k (n :: counts) = repeat k n ++ ids_from (S k) counts.
Proof. reflexivity. Qed.

Lemma ids_from_app (k : nat) (pre post : list nat) :
  ids_from k (pre ++ post) = ids_from k pre ++ ids_from (k + length pre) post.
Proof.
  revert k.
  induction pre as [| n pre IH]; intros k.
  - simpl. rewrite Nat.add_0_r. reflexivity.
  - simpl app. rewrite !ids_from_cons, IH, <- app_assoc.
    simpl length. rewrite Nat.add_succ_r. reflexivity.
Qed.

Lemma ids_from_length (k : nat) (counts : list nat) :
  length (ids_from k counts) = list_sum counts.
Proof.
  revert k.
  induction counts as [| n counts IH]; intros k.
  - reflexivity.
  - rewrite ids_from_cons, length_app, repeat_length, IH. reflexivity.
Qed.

Lemma ids_from_range (k : nat) (counts : list nat) (x : nat) :
  In x (ids_from k counts) -> k <= x < k + length counts.
Proof.
  revert k.
  induction counts as [| n counts IH]; intros k Hin.
  - contradiction.
  - rewrite ids_from_cons in Hin. apply in_app_or in Hin.
    destruct Hin as [Hin | Hin].
    + apply repeat_spec in Hin. subst. simpl. lia.
    + apply IH in Hin. simpl. lia.
Qed.

Lemma repeat_arange_exact (counts : list nat) :
  repeat_arange counts (list_sum counts) = ids_from 0 counts.
Proof.
  unfold repeat_arange. fold (ids_from 0 counts).
  rewrite ids_from_length, Nat.sub_diag. simpl repeat.
  rewrite app_nil_r.
  rewrite <- (ids_from_length 0 counts). apply firstn_all.
Qed.

(** The identifiers of a well-formed batch, cut at graph [g]: the nodes of
    the graphs before [g], the block of [g], the nodes of the graphs after. *)
Lemma repeat_arange_block (counts : list nat) (g : nat) :
  g < length counts ->
  exists i1 i3,
    repeat_arange counts (list_sum counts)
    = i1 ++ repeat g (nth g counts 0) ++ i3
    /\ length i1 = list_sum (firstn g counts)
    /\ ~ In g i1 /\ ~ In g i3.
Proof.
  intros Hg.
  rewrite repeat_arange_exact.
  exists (ids_from 0 (firstn g counts)), (ids_from (S g) (skipn (S g) counts)).
  assert (Hsplit : counts = firstn g counts ++ nth g counts 0 :: skipn (S g) counts).
  { rewrite <- (firstn_skipn g counts) at 1. f_equal.
    clear - Hg. revert g Hg.
    induction counts as [| n counts IH]; intros [| g] Hg; simpl in *; try lia.
    - reflexivity.
    - apply IH. lia. }
  assert (Hlen : length (firstn g counts) = g) by (rewrite length_firstn; lia).
  split; [| split; [| split]].
  - rewrite Hsplit at 1.
    rewrite ids_from_app, ids_from_cons, Hlen. reflexivity.
  - apply ids_from_length.
  - intros Hin. apply ids_from_range in Hin. rewrite Hlen in Hin. lia.
  - intros Hin. apply ids_from_range in Hin. lia.
Qed.

(** ** The partition softmax of the focus logits *)

Open Scope R_scope.

Lemma nth_map_combine {A B C : Type} (F : A * B -> C) (xs : list A) (ys : list B)
    (i : nat) (dx : A) (dy : B) (d : C) :
  (i < length xs)%nat -> length xs = length ys ->
  nth i (map F (combine xs ys)) d = F (nth i xs dx, nth i ys dy).
Proof.
  intros Hi Hlen.
  rewrite (nth_indep _ d (F (dx, dy)))
    by (rewrite length_map, length_combine; lia).
  rewrite map_nth, combine_nth by exact Hlen.
  reflexivity.
Qed.

(** The shift that [segment_shift] applies in segment [g]. *)
Definition shift_in (logits : list R) (ids : list nat) (num_segments : nat)
    (x : R) (g : nat) : R :=
  match nth g (segment_max logits ids num_segments) None with
  | Some m => x - m
  | None => x
  end.

Lemma segment_exps_members (logits : list R) (ids : list nat)
    (num_segments g : nat) :
  segment_members (map exp (segment_shift logits ids num_segments)) ids g
  = map (fun x => exp (shift_in logits ids num_segments x g))
        (segment_members logits ids g).
Proof.
  unfold segment_shift. rewrite map_map.
  exact (segment_members_map2
           (fun x s => exp (shift_in logits ids num_segments x s)) logits ids g).
Qed.

Lemma segment_normalizers_nth (logits : list R) (ids : list nat)
    (num_segments g : nat) :
  (g < num_segments)%nat ->
  nth g (segment_normalizers logits ids num_segments) 0
  = Rsum (segment_members (map exp (segment_shift logits ids num_segments)) ids g).
Proof.
  intros Hg. unfold segment_normalizers, segment_sum.
  rewrite nth_map_seq by exact Hg. reflexivity.
Qed.

Lemma segment_normalizers_pos (logits : list R) (ids : list nat)
    (num_segments g : nat) :
  (g < num_segments)%nat -> segment_members logits ids g <> [] ->
  0 < nth g (segment_normalizers logits ids num_segments) 0.
Proof.
  intros Hg Hne.
  rewrite segment_normalizers_nth, segment_exps_members by exact Hg.
  apply Rsum_exp_pos. exact Hne.
Qed.

(** The probabilities of a segment that has a member sum to one. *)
Lemma segment_softmax_sums_to_one (logits : list R) (ids : list nat)
    (num_segments g : nat) :
  (g < num_segments)%nat -> segment_members logits ids g <> [] ->
  Rsum (segment_members (segment_softmax logits ids num_segments) ids g) = 1.
Proof.
  intros Hg Hne.
  pose proof (segment_normalizers_pos logits ids Hg Hne) as Hpos.
  unfold segment_softmax.
  rewrite (segment_members_map2
             (fun e s => e / nth s (segment_normalizers logits ids num_segments) 0)).
  rewrite Rsum_map_div, <- segment_normalizers_nth by exact Hg.
  field. lra.
Qed.

(** In a batch whose node counts add up to the number of nodes, the
    members of graph [g] are its [n_node[g]] nodes, which start after the
    nodes of the graphs before it. *)
Lemma graph_members {A : Type} (data : list A) (counts : list nat) (g : nat) :
  length data = list_sum counts -> (g < length counts)%nat ->
  segment_members data (repeat_arange counts (length data)) g
  = firstn (nth g counts 0%nat) (skipn (list_sum (firstn g counts)) data)
  /\ (list_sum (firstn g counts) + nth g counts 0%nat <= length data)%nat
  /\ ((0 < nth g counts 0)%nat ->
      nth (list_sum (firstn g counts)) (repeat_arange counts (length data)) 0%nat
      = g).
Proof.
  intros Hlen Hg. rewrite Hlen.
  destruct (repeat_arange_block counts Hg) as (i1 & i3 & Hids & Hi1 & Hn1 & Hn3).
  assert (Hids_len : length (repeat_arange counts (list_sum counts))
                     = list_sum counts)
    by (rewrite repeat_arange_exact; apply ids_from_length).
  rewrite Hids in Hids_len |- *.
  split; [| split].
  - rewrite <- Hi1. apply segment_members_block; try assumption. lia.
  - rewrite !length_app, repeat_length in Hids_len. lia.
  - intros Hpos.
    rewrite <- Hi1, app_nth2, Nat.sub_diag by lia.
    destruct (nth g counts 0%nat); [lia | reflexivity].
Qed.

Example segment_ids_of_three_graphs :
  repeat_arange [2; 0; 3]%nat 5 = [0; 0; 2; 2; 2]%nat.
Proof. reflexivity. Qed.

(** Too few counts: the rest is filled with the last graph; too many: cut. *)
Example segment_ids_filled : repeat_arange [2; 0]%nat 5 = [0; 0; 1; 1; 1]%nat.
Proof. reflexivity. Qed.

Example segment_ids_cut : repeat_arange [3; 2]%nat 4 = [0; 0; 0; 1]%nat.
Proof. reflexivity. Qed.

Example empty_graph_has_no_mass :
  Rsum (segment_members (partition_softmax [0] [1; 0]%nat 1)
                        (repeat_arange [1; 0]%nat 1) 1)
  = 0.
Proof. reflexivity. Qed.

(** C5, as the code has it.  In a batch whose node counts add up to the
    number of nodes, the focus probabilities of every graph with at least
    one node sum to one over the nodes of the graph alone: the softmax of
    evaluation mode runs over the node logits, and no stop logit takes
    part in it. *)
Theorem focus_probabilities_sum_to_one (graphs : Fragment) (focus_logits : list R)
    (g : nat) :
  let num_nodes := length (positions (nodes graphs)) in
  let focus_probs := partition_softmax focus_logits (n_node graphs) num_nodes in
  let segment_ids := repeat_arange (n_node graphs) num_nodes in
  length focus_logits = num_nodes ->
  list_sum (n_node graphs) = num_nodes ->
  (g < length (n_node graphs))%nat ->
  (0 < nth g (n_node graphs) 0)%nat ->
  Rsum (segment_members focus_probs segment_ids g) = 1.
Proof.
  intros num_nodes focus_probs segment_ids Hlen Hsum Hg Hpos.
  subst focus_probs segment_ids. unfold partition_softmax.
  apply segment_softmax_sums_to_one; [exact Hg |].
  assert (Hlen' : length focus_logits = list_sum (n_node graphs)) by lia.
  destruct (graph_members focus_logits (n_node graphs) Hlen' Hg)
    as (Hmem & Hbound & _).
  fold num_nodes in Hlen. rewrite <- Hlen, Hmem.
  intros Hnil. apply (f_equal (@length R)) in Hnil.
  rewrite length_firstn, length_skipn in Hnil. simpl in Hnil. lia.
Qed.

(** A batch of two graphs, of two nodes and one node. *)
Definition two_graphs : Fragment :=
  {| nodes := {| positions := [(0, 0, 0); (1, 0, 0); (0, 0, 2)];
                 species := [1; 0; 0]%nat |};
     senders := [0; 1]%nat;
     receivers := [1; 0]%nat;
     n_node := [2; 1]%nat;
     n_edge := [2; 0]%nat;
     globals := {| stop := [false; true];
                   target_species := [0; 0]%nat;
                   target_positions := [(0, 1, 0); (0, 0, 0)] |} |}.

Lemma focus_probabilities_sum_to_one_witness :
  length [0; 1; 2] = length (positions (nodes two_graphs))
  /\ list_sum (n_node two_graphs) = length (positions (nodes two_graphs))
  /\ (0 < length (n_node two_graphs))%nat
  /\ (0 < nth 0 (n_node two_graphs) 0)%nat
  /\ Rsum (segment_members
             (partition_softmax [0; 1; 2] (n_node two_graphs)
                                (length (positions (nodes two_graphs))))
             (repeat_arange (n_node two_graphs)
                            (length (positions (nodes two_graphs)))) 0)
     = 1.
Proof.
  split; [reflexivity |].
  split; [reflexivity |].
  split; [simpl; lia |].
  split; [simpl; lia |].
  apply (focus_probabilities_sum_to_one two_graphs [0; 1; 2] (g := 0)).
  - reflexivity.
  - reflexivity.
  - simpl; lia.
  - simpl; lia.
Defined.

(** The reading of the specification: a softmax over the node logits of the
    graph and one more, virtual, stop logit; the stop mass is the share of
    the stop logit. *)
Definition spec_stop_mass (graph_logits : list R) (stop_logit : R) : R :=
  exp stop_logit / (Rsum (map exp graph_logits) + exp stop_logit).

Lemma spec_stop_mass_pos (graph_logits : list R) (stop_logit : R) :
  0 < spec_stop_mass graph_logits stop_logit.
Proof.
  unfold spec_stop_mass.
  assert (Hsum : 0 <= Rsum (map exp graph_logits)).
  { induction graph_logits as [| x xs IH]; simpl; [lra |].
    pose proof (exp_pos x). lra. }
  pose proof (exp_pos stop_logit).
  apply Rdiv_lt_0_compat; lra.
Qed.

(** C5, as stated, fails twice.  For one graph of one node the
    probabilities of the nodes already sum to one, so no stop logit can
    contribute a share to a total of one; and in a batch that ends with a
    graph without nodes, the probabilities of that graph sum to zero. *)
Lemma focus_stop_mass_counterexample :
  (~ exists stop_logit : R,
       Rsum (segment_members (partition_softmax [0] [1%nat] 1)
                             (repeat_arange [1%nat] 1) 0)
       + spec_stop_mass [0] stop_logit
       = 1)
  /\ Rsum (segment_members (partition_softmax [0] [1; 0]%nat 1)
                           (repeat_arange [1; 0]%nat 1) 1)
     <> 1.
Proof.
  split.
  - intros [stop_logit Htotal].
    assert (Hnodes : Rsum (segment_members (partition_softmax [0] [1%nat] 1)
                                           (repeat_arange [1%nat] 1) 0) = 1).
    { unfold partition_softmax.
      apply segment_softmax_sums_to_one; [simpl; lia |].
      discriminate. }
    pose proof (spec_stop_mass_pos [0] stop_logit).
    lra.
  - rewrite empty_graph_has_no_mass. lra.
Qed.




Close Scope R_scope.

(** ** The segment sampler *)

Open Scope R_scope.

Lemma last_cons_default {A : Type} (xs : list A) (z d : A) :
  last (z :: xs) d = last xs z.
Proof.
  revert z d.
  induction xs as [| x xs IH]; intros z d.
  - reflexivity.
  - change (last (z :: x :: xs) d) with (last (x :: xs) d).
    rewrite (IH x d), (IH x z). reflexivity.
Qed.

Lemma last_cumsum_from (acc : R) (xs : list R) :
  last (cumsum_from acc xs) acc = acc + Rsum xs.
Proof.
  revert acc.
  induction xs as [| x xs IH]; intros acc.
  - simpl. lra.
  - change (cumsum_from acc (x :: xs))
      with ((acc + x) :: cumsum_from (acc + x) xs).
    rewrite last_cons_default, IH. simpl. lra.
Qed.

Lemma last_item_cumsum_from (acc x : R) (rest : list R) :
  last_item (cumsum_from acc (x :: rest)) = Returned (acc + Rsum (x :: rest)).
Proof.
  change (cumsum_from acc (x :: rest))
    with ((acc + x) :: cumsum_from (acc + x) rest).
  unfold last_item. rewrite last_cumsum_from. simpl. f_equal. lra.
Qed.

Lemma last_item_cumsum (p : list R) :
  p <> [] -> last_item (cumsum p) = Returned (Rsum p).
Proof.
  destruct p as [| x rest]; intros Hne; [contradiction |].
  unfold cumsum. rewrite last_item_cumsum_from. f_equal. lra.
Qed.

(** Inverse transform sampling lands on an entry of positive weight: for
    non-negative weights and a threshold [r] in [(acc, acc + sum]], the
    first cumulative sum that reaches [r] belongs to a positive entry. *)
Lemma searchsorted_cumsum (p : list R) (acc r : R) :
  Forall (fun x => 0 <= x) p ->
  acc < r <= acc + Rsum p ->
  (searchsorted (cumsum_from acc p) r < length p)%nat
  /\ 0 < nth (searchsorted (cumsum_from acc p) r) p 0.
Proof.
  intros Hnonneg. revert acc.
  induction Hnonneg as [| x p Hx Hp IH]; intros acc [Hlo Hhi]; simpl in *.
  - lra.
  - destruct (Rlt_dec (acc + x) r) as [Hlt | Hge].
    + destruct (IH (acc + x)) as [Hidx Hpos]; [lra |].
      split; [lia | exact Hpos].
    + split; [lia | lra].
Qed.

(** The weights that [sample_for_segment] hands to [choice]. *)
Definition masked (i : nat) (ids : list nat) (probabilities : list R) : list R :=
  map (fun sv => if (i =? fst sv)%nat then snd sv else 0)
      (combine ids probabilities).

Lemma where_eq_masked (i : nat) (ids : list nat) (probabilities : list R) :
  length probabilities = length ids ->
  where_eq i ids probabilities = Returned (masked i ids probabilities).
Proof.
  intros Hlen. unfold where_eq.
  rewrite Hlen, Nat.eqb_refl. reflexivity.
Qed.

Lemma masked_length (i : nat) (ids : list nat) (probabilities : list R) :
  length probabilities = length ids ->
  length (masked i ids probabilities) = length ids.
Proof.
  intros Hlen. unfold masked.
  rewrite length_map, length_combine. lia.
Qed.

Lemma masked_nonneg (i : nat) (ids : list nat) (probabilities : list R) :
  Forall (fun x => 0 <= x) probabilities ->
  Forall (fun x => 0 <= x) (masked i ids probabilities).
Proof.
  intros Hnonneg. revert ids.
  induction Hnonneg as [| x p Hx Hp IH]; intros [| s ids];
    try (unfold masked; simpl; constructor).
  - destruct (i =? s)%nat; lra.
  - apply IH.
Qed.

Lemma masked_sum (i : nat) (ids : list nat) (probabilities : list R) :
  Rsum (masked i ids probabilities) = Rsum (segment_members probabilities ids i).
Proof.
  revert ids.
  induction probabilities as [| x p IH]; intros [| s ids]; try reflexivity.
  rewrite segment_members_cons. unfold masked in *. simpl.
  rewrite IH, Nat.eqb_sym.
  destruct (s =? i)%nat; simpl; lra.
Qed.

(** A positive masked weight sits on a node of segment [i]. *)
Lemma masked_positive (i : nat) (ids : list nat) (probabilities : list R)
    (k : nat) :
  0 < nth k (masked i ids probabilities) 0 -> nth_error ids k = Some i.
Proof.
  revert ids probabilities.
  induction k as [| k IH]; intros [| s ids] [| x p] Hpos;
    unfold masked in Hpos; simpl in Hpos; try lra.
  - destruct (Nat.eqb_spec i s) as [-> | Hne]; [reflexivity | lra].
  - simpl. apply (IH ids p). exact Hpos.
Qed.

Lemma getitem_seq (n k : nat) :
  (0 < n)%nat -> getitem (seq 0 n) k = Returned (Nat.min k (n - 1)).
Proof.
  intros Hn. unfold getitem.
  rewrite length_seq.
  assert (Hnth : nth_error (seq 0 n) (Nat.min k (n - 1)) = Some (Nat.min k (n - 1))).
  { rewrite (nth_error_nth' _ 0%nat) by (rewrite length_seq; lia).
    rewrite seq_nth by lia. reflexivity. }
  rewrite Hnth. reflexivity.
Qed.

Section SegmentSampleProperties.

Context {Key : Type} `{PRNG Key}.

(** One draw, for a batch with at least one node: the index found by the
    search, clamped to the array. *)
Lemma sample_for_segment_value (probabilities : list R) (ids : list nat)
    (rng : Key) (i : nat) :
  length probabilities = length ids -> ids <> [] ->
  sample_for_segment probabilities ids (seq 0 (length ids)) rng i
  = Returned
      (Nat.min (searchsorted (cumsum (masked i ids probabilities))
                             (Rsum (masked i ids probabilities) * (1 - uniform rng)))
               (length ids - 1)).
Proof.
  intros Hlen Hne.
  unfold sample_for_segment.
  rewrite where_eq_masked by exact Hlen. simpl bind.
  unfold choice.
  rewrite masked_length, length_seq, Nat.eqb_refl by exact Hlen. simpl negb. cbv iota.
  pose proof (masked_length i ids probabilities Hlen) as Hmlen.
  assert (Hn : (0 < length ids)%nat)
    by (destruct ids; [contradiction | simpl; lia]).
  rewrite last_item_cumsum
    by (intros Hnil; rewrite Hnil in Hmlen; simpl in Hmlen; lia).
  cbn [bind].
  apply getitem_seq. exact Hn.
Qed.

(** A draw for a segment that carries mass lands in that segment. *)
Lemma sample_for_segment_in_segment (probabilities : list R) (ids : list nat)
    (rng : Key) (i : nat) :
  length probabilities = length ids ->
  Forall (fun x => 0 <= x) probabilities ->
  Rsum (segment_members probabilities ids i) <> 0 ->
  exists k,
    sample_for_segment probabilities ids (seq 0 (length ids)) rng i = Returned k
    /\ nth_error ids k = Some i.
Proof.
  intros Hlen Hnonneg Hmass.
  assert (Hne : ids <> []).
  { intros ->. apply Hmass. rewrite segment_members_nil_ids. reflexivity. }
  rewrite sample_for_segment_value by assumption.
  eexists. split; [reflexivity |].
  pose proof (masked_nonneg i ids Hnonneg) as Hm.
  assert (Htotal : 0 < Rsum (masked i ids probabilities)).
  { rewrite masked_sum.
    rewrite <- masked_sum in Hmass.
    assert (Hge : forall xs, Forall (fun x => 0 <= x) xs -> 0 <= Rsum xs).
    { induction 1; simpl; lra. }
    pose proof (Hge _ Hm). rewrite <- masked_sum. lra. }
  pose proof (uniform_range rng) as [Hu0 Hu1].
  destruct (searchsorted_cumsum (acc := 0)
              (r := Rsum (masked i ids probabilities) * (1 - uniform rng)) Hm)
    as [Hidx Hpos].
  { split; [apply Rmult_lt_0_compat; lra |].
    rewrite Rplus_0_l.
    rewrite <- (Rmult_1_r (Rsum (masked i ids probabilities))) at 2.
    apply Rmult_le_compat_l; lra. }
  fold (cumsum (masked i ids probabilities)) in Hidx, Hpos.
  rewrite masked_length in Hidx by exact Hlen.
  rewrite Nat.min_l by lia.
  apply masked_positive with (probabilities := probabilities). exact Hpos.
Qed.

Lemma vmap2_returned {A B C : Type} (f : A -> B -> outcome C)
    (xs : list A) (ys : list B) :
  length xs = length ys ->
  (forall x y, exists z, f x y = Returned z) ->
  exists zs,
    vmap2 f xs ys = Returned zs
    /\ length zs = length xs
    /\ forall (j : nat) (dx : A) (dy : B) (dz : C),
         (j < length xs)%nat ->
         f (nth j xs dx) (nth j ys dy) = Returned (nth j zs dz).
Proof.
  intros Hlen Hf. revert ys Hlen.
  induction xs as [| x xs IH]; intros [| y ys] Hlen; try discriminate Hlen.
  - exists []. split; [reflexivity | split; [reflexivity |]].
    intros j dx dy dz Hj. simpl in Hj. lia.
  - destruct (IH ys ltac:(simpl in Hlen; lia)) as (zs & Hzs & Hzlen & Hnth).
    destruct (Hf x y) as [z Hz].
    exists (z :: zs). split; [| split].
    + simpl. rewrite Hz. simpl. rewrite Hzs. reflexivity.
    + simpl. rewrite Hzlen. reflexivity.
    + intros [| j] dx dy dz Hj; simpl.
      * exact Hz.
      * apply Hnth. simpl in Hj. lia.
Qed.


End SegmentSampleProperties.

(** A generator on counters: key [k] splits into [2 k], [2 k + 1], ..., and
    draws [1 / (k + 2)]. *)
#[local] Program Instance counter_prng : PRNG nat := {|
  split := fun key num => map (fun j => (2 * key + j)%nat) (seq 0 num);
  uniform := fun key => / (INR key + 2)
|}.
Next Obligation.
  rewrite length_map, length_seq. reflexivity.
Qed.
Next Obligation.
  pose proof (pos_INR key) as Hk.
  assert (Hpos : 0 < INR key + 2) by lra.
  split.
  - left. apply Rinv_0_lt_compat. exact Hpos.
  - rewrite <- Rinv_1. apply Rinv_lt_contravar; lra.
Qed.


Close Scope R_scope.

(** ** Indexing *)

Lemma getitem_nonempty {A : Type} (xs : list A) (i : nat) :
  xs <> [] -> exists x, getitem xs i = Returned x.
Proof.
  intros Hne. unfold getitem.
  destruct (nth_error xs (Nat.min i (length xs - 1))) as [x |] eqn:Hnth.
  - exists x. reflexivity.
  - apply nth_error_None in Hnth.
    destruct xs; [contradiction | simpl in Hnth; lia].
Qed.

Lemma getitem_in_range {A : Type} (xs : list A) (i : nat) (x : A) :
  (i < length xs)%nat -> getitem xs i = Returned x -> nth_error xs i = Some x.
Proof.
  intros Hi. unfold getitem.
  rewrite Nat.min_l by lia.
  destruct (nth_error xs i); intros Hx; inversion Hx. reflexivity.
Qed.

Lemma take_returned {A : Type} (xs : list A) (idx : list nat) :
  xs <> [] ->
  exists ys,
    take xs idx = Returned ys
    /\ length ys = length idx
    /\ forall g i, nth_error idx g = Some i ->
         exists y, getitem xs i = Returned y /\ nth_error ys g = Some y.
Proof.
  intros Hne.
  induction idx as [| i idx IH].
  - exists []. split; [reflexivity | split; [reflexivity |]].
    intros [| g] j Hj; discriminate Hj.
  - destruct IH as (ys & Hys & Hlen & Hnth).
    destruct (getitem_nonempty i Hne) as [x Hx].
    exists (x :: ys). split; [| split].
    + simpl. rewrite Hx. simpl. rewrite Hys. reflexivity.
    + simpl. rewrite Hlen. reflexivity.
    + intros [| g] j Hj; simpl in Hj.
      * inversion Hj; subst. exists x. split; [exact Hx | reflexivity].
      * apply Hnth. exact Hj.
Qed.

Lemma take_no_index {A : Type} (xs : list A) : take xs [] = Returned [].
Proof. reflexivity. Qed.

Lemma nth_error_combine {A B : Type} (xs : list A) (ys : list B) (g : nat)
    (x : A) (y : B) :
  nth_error xs g = Some x -> nth_error ys g = Some y ->
  nth_error (combine xs ys) g = Some (x, y).
Proof.
  revert xs ys.
  induction g as [| g IH]; intros [| x0 xs] [| y0 ys] Hx Hy;
    simpl in *; try discriminate.
  - inversion Hx; inversion Hy; reflexivity.
  - apply IH; assumption.
Qed.

(** ** The first node of every graph *)

Lemma cumsum_nat_from_nth (acc : nat) (counts : list nat) (k : nat) :
  k < length counts ->
  nth_error (cumsum_nat_from acc counts) k
  = Some (acc + list_sum (firstn (S k) counts)).
Proof.
  revert acc k.
  induction counts as [| n counts IH]; intros acc k Hk; simpl in Hk; [lia |].
  destruct k as [| k].
  - simpl. f_equal. lia.
  - change (cumsum_nat_from acc (n :: counts))
      with ((acc + n) :: cumsum_nat_from (acc + n) counts).
    change (nth_error ((acc + n) :: cumsum_nat_from (acc + n) counts) (S k))
      with (nth_error (cumsum_nat_from (acc + n) counts) k).
    rewrite IH by lia.
    change (firstn (S (S k)) (n :: counts)) with (n :: firstn (S k) counts).
    simpl list_sum. f_equal. lia.
Qed.

Lemma cumsum_nat_from_length (acc : nat) (counts : list nat) :
  length (cumsum_nat_from acc counts) = length counts.
Proof.
  revert acc.
  induction counts as [| n counts IH]; intros acc; simpl; [| rewrite IH];
    reflexivity.
Qed.

Lemma nth_error_removelast {A : Type} (xs : list A) (k : nat) :
  S k < length xs -> nth_error (removelast xs) k = nth_error xs k.
Proof.
  revert k.
  induction xs as [| x xs IH]; intros k Hk; simpl in Hk; [lia |].
  destruct xs as [| x' xs]; [simpl in Hk; lia |].
  change (removelast (x :: x' :: xs)) with (x :: removelast (x' :: xs)).
  destruct k as [| k]; [reflexivity |].
  simpl nth_error. apply IH. simpl in *. lia.
Qed.

(** The index that [get_first_node_indices] gives to graph [g] is the
    number of nodes of the graphs before it. *)
Lemma get_first_node_indices_nth (counts : list nat) (g : nat) :
  g < length counts ->
  nth_error (get_first_node_indices counts) g
  = Some (list_sum (firstn g counts)).
Proof.
  intros Hg. unfold get_first_node_indices, cumsum_nat.
  destruct g as [| k]; [reflexivity |].
  simpl app. simpl nth_error.
  rewrite nth_error_removelast by (rewrite cumsum_nat_from_length; lia).
  rewrite cumsum_nat_from_nth by lia. reflexivity.
Qed.

Lemma get_first_node_indices_length (counts : list nat) :
  counts <> [] -> length (get_first_node_indices counts) = length counts.
Proof.
  intros Hne. unfold get_first_node_indices, cumsum_nat.
  simpl. rewrite removelast_firstn_len, length_firstn, cumsum_nat_from_length.
  destruct counts; [contradiction | simpl; lia].
Qed.

Example first_nodes_of_three_graphs :
  get_first_node_indices [3; 1; 4] = [0; 3; 4].
Proof. reflexivity. Qed.

(** Without graphs the function still returns one index. *)
Example first_nodes_of_no_graph : get_first_node_indices [] = [0].
Proof. reflexivity. Qed.

(** ** The heads of [MACE] *)

(** The irreps of the position coefficients before the radii become an
    axis: [len(RADII)] copies of every degree up to [lmax]. *)
Definition radial_irreps (lmax : nat) : Irreps :=
  map (fun mi => (length RADII * fst mi, snd mi)) (MACE.s2_irreps lmax).

(** What the layers promise about shapes: the encoder returns one entry per
    node and interaction in its output irreps, the position layer returns
    the radial irreps on the embeddings of the encoder, the species
    perceptron returns one logit per element, the embedding rows have the
    requested width. *)
Definition layers_well_shaped (self : MACE.Model) : Prop :=
  (forall vectors species senders receivers,
      let out := MACE.mace self vectors species senders receivers in
      length (rows2 out) = length species
      /\ Forall (fun row => length row = MACE.num_interactions self) (rows2 out)
      /\ irreps_dim (irreps2 out) = irreps_dim (MACE.output_irreps self)
      /\ MACE.position_linear_irreps self
           (irreps1 (axis_to_mul (MACE.num_interactions self) out))
         = radial_irreps (MACE.position_coeffs_lmax self))
  /\ (forall irreps chunks,
        length (MACE.species_mlp self irreps chunks) = NUM_ELEMENTS)
  /\ (forall width s, length (MACE.species_embed self width s) = width).

(** What the heads read of a batch: at least one node, edges with both
    ends, at least one graph, one target species per graph. *)
Definition well_formed_batch (graphs : Fragment) : Prop :=
  positions (nodes graphs) <> []
  /\ species (nodes graphs) <> []
  /\ length (senders graphs) = length (receivers graphs)
  /\ n_node graphs <> []
  /\ length (target_species (globals graphs)) = length (n_node graphs)
  /\ list_sum (n_node graphs) = length (species (nodes graphs)).

(** The species head and the position head on the embedding of one node. *)
Definition species_head (self : MACE.Model) (irreps : Irreps) (row : Chunks)
  : list R :=
  MACE.species_mlp self (filter (fun mi => is_0e (snd mi)) irreps)
                   (filter_0e_chunks irreps row).

Definition position_head (self : MACE.Model) (irreps : Irreps) (row : Chunks)
    (target : nat) : list Chunks :=
  MACE.mul_to_axis_chunks (length RADII)
    (MACE.position_linear_irreps self irreps)
    (MACE.position_linear self irreps
       (MACE.scale_chunks
          (MACE.species_embed self (MACE.num_irreps irreps) target) row)).

Lemma forallb_Forall_length {A : Type} (xs : list (list A)) (n : nat) :
  Forall (fun row => length row = n) xs ->
  forallb (fun row => length row =? n) xs = true.
Proof.
  induction 1 as [| row xs Hrow Hxs IH]; simpl; [reflexivity |].
  rewrite IH, andb_true_r. apply Nat.eqb_eq. exact Hrow.
Qed.

Lemma forallb_map_length {A B : Type} (f : A -> list B) (xs : list A) (n : nat) :
  (forall x, length (f x) = n) ->
  forallb (fun row => length row =? n) (map f xs) = true.
Proof.
  intros Hf. apply forallb_Forall_length.
  apply Forall_forall. intros row Hin.
  apply in_map_iff in Hin. destruct Hin as (x & <- & _). apply Hf.
Qed.

Lemma combine_map_fst {A B C : Type} (f : A -> C) (xs : list A) (ys : list B) :
  combine (map f xs) ys = map (fun p => (f (fst p), snd p)) (combine xs ys).
Proof.
  revert ys.
  induction xs as [| x xs IH]; intros [| y ys]; simpl; try reflexivity.
  rewrite IH. reflexivity.
Qed.

Section HeadsReturn.

Variable self : MACE.Model.
Hypothesis Hlayers : layers_well_shaped self.

Lemma node_embeddings_returns (graphs : Fragment) :
  positions (nodes graphs) <> [] ->
  length (senders graphs) = length (receivers graphs) ->
  exists vectors,
    MACE.node_embeddings self graphs
    = Returned (axis_to_mul (MACE.num_interactions self)
                  (MACE.mace self vectors (species (nodes graphs))
                             (senders graphs) (receivers graphs))).
Proof.
  intros Hpos Hedges.
  destruct (take_returned (receivers graphs) Hpos) as (tos & Htos & Htlen & _).
  destruct (take_returned (senders graphs) Hpos) as (froms & Hfroms & Hflen & _).
  unfold MACE.node_embeddings, MACE.subtract.
  rewrite Htos, Hfroms. cbn [bind].
  replace (length tos =? length froms) with true
    by (symmetry; apply Nat.eqb_eq; lia).
  cbn [bind].
  eexists.
  destruct Hlayers as (Hmace & _).
  edestruct Hmace as (Hrows & Hinner & Hdim & _).
  rewrite Hrows, Nat.eqb_refl, (forallb_Forall_length Hinner), Hdim, Nat.eqb_refl.
  reflexivity.
Qed.

Lemma focus_logits_returns (embeddings : Irreps1) :
  MACE.focus_logits self embeddings
  = Returned (map (MACE.focus_linear self (irreps1 embeddings))
                  (rows1 embeddings)).
Proof.
  unfold MACE.focus_logits.
  rewrite length_map, Nat.eqb_refl. reflexivity.
Qed.

Lemma target_species_logits_returns (focus : Irreps1) :
  MACE.target_species_logits self focus
  = Returned (map (species_head self (irreps1 focus)) (rows1 focus)).
Proof.
  unfold MACE.target_species_logits, filter_0e. cbn [irreps1 rows1].
  destruct Hlayers as (_ & Hmlp & _).
  rewrite !length_map, Nat.eqb_refl.
  rewrite forallb_map_length by (intros x; apply Hmlp).
  cbn [andb assert bind].
  rewrite map_map. reflexivity.
Qed.

Lemma radii_divide (lmax : nat) :
  forallb (fun mi => fst mi mod length RADII =? 0) (radial_irreps lmax) = true
  /\ map (fun mi => (fst mi / length RADII, snd mi)) (radial_irreps lmax)
     = MACE.s2_irreps lmax.
Proof.
  unfold radial_irreps.
  assert (Hradii : length RADII <> 0) by (rewrite RADII_length; lia).
  split.
  - apply forallb_forall. intros mi Hin.
    apply in_map_iff in Hin. destruct Hin as (mi0 & <- & _).
    cbn [fst]. apply Nat.eqb_eq.
    rewrite Nat.mul_comm. apply Nat.Div0.mod_mul.
  - rewrite map_map.
    rewrite <- (map_id (MACE.s2_irreps lmax)) at 2.
    apply map_ext. intros [mul ir]. cbn [fst snd].
    rewrite Nat.mul_comm, Nat.div_mul by exact Hradii. reflexivity.
Qed.

Lemma target_position_returns (focus : Irreps1) (targets : list nat) :
  length targets = length (rows1 focus) ->
  MACE.position_linear_irreps self (irreps1 focus)
  = radial_irreps (MACE.position_coeffs_lmax self) ->
  MACE.target_position self focus targets
  = Returned
      {| irreps2 := MACE.s2_irreps (MACE.position_coeffs_lmax self);
         rows2 :=
           map (fun tr => position_head self (irreps1 focus) (snd tr) (fst tr))
               (combine targets (rows1 focus)) |}.
Proof.
  intros Hlen Hirreps.
  destruct Hlayers as (_ & _ & Hembed).
  destruct (radii_divide (MACE.position_coeffs_lmax self)) as (Hmod & Hdiv).
  unfold MACE.target_position.
  rewrite !Nat.eqb_refl. cbn [andb assert bind].
  rewrite length_map, Hlen, Nat.eqb_refl.
  rewrite forallb_map_length by (intros x; apply Hembed).
  cbn [andb assert bind].
  unfold MACE.mul_to_axis. cbn [irreps1 rows1].
  rewrite Hirreps, Hmod. cbn [assert bind irreps2 rows2].
  rewrite Hdiv, Nat.eqb_refl, andb_true_r.
  rewrite !length_map, length_combine, length_map, Hlen, Nat.min_id, Nat.eqb_refl.
  rewrite forallb_map_length
    by (intros x; unfold MACE.mul_to_axis_chunks;
        rewrite length_map, length_seq; reflexivity).
  cbn [andb assert bind].
  f_equal. f_equal.
  rewrite combine_map_fst, !map_map.
  apply map_ext. intros [target row]. cbn [fst snd].
  unfold position_head. rewrite Hirreps. reflexivity.
Qed.

End HeadsReturn.

(** ** Training: all heads, on the first node of every graph *)

(** The batch with other stop flags. *)
Definition with_stop (graphs : Fragment) (flags : list bool) : Fragment :=
  {| nodes := nodes graphs;
     senders := senders graphs;
     receivers := receivers graphs;
     n_node := n_node graphs;
     n_edge := n_edge graphs;
     globals := {| stop := flags;
                   target_species := target_species (globals graphs);
                   target_positions := target_positions (globals graphs) |} |}.

(** C1.  In training mode the forward pass returns, for layers of the
    right shapes and a well-formed batch, one focus logit per node and one
    row of species logits and of position coefficients per graph, whatever
    the stop flags are; the row of graph [g] is computed from the embedding
    at the index that is the number of nodes of the graphs before [g],
    which is the first node of [g] when [g] has a node. *)
Theorem training_evaluates_all_heads (self : MACE.Model) (graphs : Fragment) :
  layers_well_shaped self -> well_formed_batch graphs ->
  exists embeddings predictions,
    MACE.node_embeddings self graphs = Returned embeddings
    /\ MACE.get_training_predictions self graphs = Returned predictions
    /\ (forall flags,
          MACE.get_training_predictions self (with_stop graphs flags)
          = Returned predictions)
    /\ pred_focus_logits predictions
       = map (MACE.focus_linear self (irreps1 embeddings)) (rows1 embeddings)
    /\ length (rows1 embeddings) = length (species (nodes graphs))
    /\ length (pred_target_species_logits predictions) = length (n_node graphs)
    /\ length (rows2 (pred_position_coeffs predictions)) = length (n_node graphs)
    /\ forall g, g < length (n_node graphs) ->
         let first := list_sum (firstn g (n_node graphs)) in
         nth_error (get_first_node_indices (n_node graphs)) g = Some first
         /\ exists row,
              getitem (rows1 embeddings) first = Returned row
              /\ (0 < nth g (n_node graphs) 0 ->
                  nth_error (rows1 embeddings) first = Some row)
              /\ nth_error (pred_target_species_logits predictions) g
                 = Some (species_head self (irreps1 embeddings) row)
              /\ nth_error (rows2 (pred_position_coeffs predictions)) g
                 = Some (position_head self (irreps1 embeddings) row
                           (nth g (target_species (globals graphs)) 0)).
Proof.
  intros Hlayers (Hpos & Hspecies & Hedges & Hgraphs & Htargets & Hsum).
  destruct (node_embeddings_returns Hlayers graphs Hpos Hedges)
    as (vectors & Hembed).
  set (out := MACE.mace self vectors (species (nodes graphs))
                        (senders graphs) (receivers graphs)) in *.
  set (embeddings := axis_to_mul (MACE.num_interactions self) out) in *.
  destruct (proj1 Hlayers vectors (species (nodes graphs))
                  (senders graphs) (receivers graphs))
    as (Hrows & _ & _ & Hirreps).
  fold out in Hrows, Hirreps. fold embeddings in Hirreps.
  assert (Hnodes : length (rows1 embeddings) = length (species (nodes graphs))).
  { unfold embeddings, axis_to_mul. cbn [rows1]. rewrite length_map. exact Hrows. }
  assert (Hne : rows1 embeddings <> []).
  { intros Hnil. rewrite Hnil in Hnodes.
    destruct (species (nodes graphs)); [contradiction | discriminate Hnodes]. }
  destruct (take_returned (get_first_node_indices (n_node graphs)) Hne)
    as (focus_rows & Htake & Hflen & Hfnth).
  rewrite get_first_node_indices_length in Hflen by exact Hgraphs.
  set (focus := {| irreps1 := irreps1 embeddings; rows1 := focus_rows |}).
  assert (Hrun : MACE.get_training_predictions self graphs
                 = Returned
                     {| pred_focus_logits :=
                          map (MACE.focus_linear self (irreps1 embeddings))
                              (rows1 embeddings);
                        pred_target_species_logits :=
                          map (species_head self (irreps1 focus)) (rows1 focus);
                        pred_position_coeffs :=
                          {| irreps2 := MACE.s2_irreps (MACE.position_coeffs_lmax self);
                             rows2 :=
                               map (fun tr => position_head self (irreps1 focus)
                                                (snd tr) (fst tr))
                                   (combine (target_species (globals graphs))
                                            (rows1 focus)) |} |}).
  { unfold MACE.get_training_predictions.
    rewrite Hembed. cbn [bind].
    rewrite (focus_logits_returns self). cbn [bind].
    unfold take1. fold embeddings. rewrite Htake. cbn [bind]. fold focus.
    rewrite (target_species_logits_returns Hlayers). cbn [bind].
    rewrite (target_position_returns Hlayers focus)
      by (cbn [rows1 irreps1 focus]; first [lia | exact Hirreps]).
    reflexivity. }
  exists embeddings. eexists.
  split; [exact Hembed |].
  split; [exact Hrun |].
  split; [intros flags; exact Hrun |].
  cbn [pred_focus_logits pred_target_species_logits pred_position_coeffs
       rows2 rows1 irreps1 focus].
  split; [reflexivity |].
  split; [exact Hnodes |].
  split; [rewrite length_map; exact Hflen |].
  split; [rewrite length_map, length_combine; lia |].
  intros g Hg. cbv zeta.
  set (first := list_sum (firstn g (n_node graphs))).
  pose proof (get_first_node_indices_nth (n_node graphs) Hg) as Hfirst.
  fold first in Hfirst.
  split; [exact Hfirst |].
  destruct (Hfnth g first Hfirst) as (row & Hrow & Hfocus).
  exists row.
  split; [exact Hrow |].
  split.
  - intros Hsome.
    apply getitem_in_range; [| exact Hrow].
    assert (Hlen : length (rows1 embeddings) = list_sum (n_node graphs)) by lia.
    destruct (graph_members (rows1 embeddings) (n_node graphs) Hlen Hg)
      as (_ & Hbound & _).
    fold first in Hbound. lia.
  - split.
    + apply map_nth_error. exact Hfocus.
    + assert (Hpair : nth_error (combine (target_species (globals graphs))
                                         focus_rows) g
                      = Some (nth g (target_species (globals graphs)) 0, row)).
      { apply nth_error_combine; [| exact Hfocus].
        apply nth_error_nth'. lia. }
      exact (map_nth_error
               (fun tr => position_head self (irreps1 embeddings) (snd tr) (fst tr))
               g _ Hpair).
Qed.

(** ** A small model

    An encoder with one interaction that gives every node one vector, the
    sum of the displacement vectors of all edges; the heads are constant. *)

Open Scope R_scope.

Definition vadd (a b : Vec3) : Vec3 :=
  let '(a1, a2, a3) := a in
  let '(b1, b2, b3) := b in
  (a1 + b1, a2 + b2, a3 + b3).

Definition vsum (vs : list Vec3) : Vec3 := fold_right vadd (0, 0, 0) vs.

Definition coefficients (v : Vec3) : list R :=
  let '(v1, v2, v3) := v in [v1; v2; v3].

Definition vector_irrep : Irrep := {| l := 1; odd := true |}.

Definition tiny_mace : MACE.Model :=
  {| MACE.output_irreps := [(1%nat, vector_irrep)];
     MACE.num_interactions := 1;
     MACE.position_coeffs_lmax := 0;
     MACE.run_in_evaluation_mode := false;
     MACE.mace := fun vectors species _ _ =>
       {| irreps2 := [(1%nat, vector_irrep)];
          rows2 := map (fun _ => [[[coefficients (vsum vectors)]]]) species |};
     MACE.focus_linear := fun _ _ => 0;
     MACE.species_mlp := fun _ _ => repeat 0 NUM_ELEMENTS;
     MACE.species_embed := fun width _ => repeat 1 width;
     MACE.position_linear_irreps := fun _ => radial_irreps 0;
     MACE.position_linear := fun _ _ => [repeat [0] (length RADII)] |}.

Close Scope R_scope.

Lemma tiny_mace_well_shaped : layers_well_shaped tiny_mace.
Proof.
  split; [| split].
  - intros vectors species senders receivers. cbn.
    split; [apply length_map |].
    split; [| split; reflexivity].
    apply Forall_forall. intros row Hin.
    apply in_map_iff in Hin. destruct Hin as (s & <- & _). reflexivity.
  - intros irreps chunks. apply repeat_length.
  - intros width s. apply repeat_length.
Qed.

Lemma two_graphs_well_formed : well_formed_batch two_graphs.
Proof.
  unfold well_formed_batch. cbn.
  repeat split; try reflexivity; discriminate.
Qed.

Lemma training_evaluates_all_heads_witness :
  layers_well_shaped tiny_mace
  /\ well_formed_batch two_graphs
  /\ exists predictions,
       MACE.get_training_predictions tiny_mace two_graphs = Returned predictions
       /\ length (pred_target_species_logits predictions) = 2
       /\ nth_error (get_first_node_indices (n_node two_graphs)) 1 = Some 2.
Proof.
  split; [exact tiny_mace_well_shaped |].
  split; [exact two_graphs_well_formed |].
  destruct (training_evaluates_all_heads
              tiny_mace_well_shaped two_graphs_well_formed)
    as (embeddings & predictions & _ & Hrun & _ & _ & _ & Hspecies & _ & Hgraph).
  exists predictions.
  split; [exact Hrun |].
  split; [exact Hspecies |].
  exact (proj1 (Hgraph 1 ltac:(cbn; lia))).
Defined.

(** ** Evaluation: shapes and the sampling steps *)

Lemma softmax_length (row : list R) : length (softmax row) = length row.
Proof.
  unfold softmax.
  destruct row as [| x row]; [reflexivity |].
  cbn [Rmax_list]. rewrite !length_map. reflexivity.
Qed.

Lemma partition_softmax_length (logits : list R) (counts : list nat) :
  length logits = list_sum counts ->
  length (partition_softmax logits counts (list_sum counts)) = list_sum counts
  /\ length (repeat_arange counts (list_sum counts)) = list_sum counts.
Proof.
  intros Hlen.
  assert (Hids : length (repeat_arange counts (list_sum counts)) = list_sum counts)
    by (rewrite repeat_arange_exact; apply ids_from_length).
  split; [| exact Hids].
  unfold partition_softmax, segment_softmax, segment_shift.
  rewrite !length_map, length_combine, !length_map, length_combine.
  lia.
Qed.

Section EvaluationProperties.

Context {Key : Type} `{PRNG Key}.

Lemma split2_returns (key : Key) :
  exists k1 k2, split2 key = Returned (k1, k2).
Proof.
  unfold split2.
  pose proof (split_length key 2) as Hlen.
  destruct (split key 2) as [| k1 [| k2 [| k3 rest]]]; try discriminate Hlen.
  exists k1, k2. reflexivity.
Qed.

Lemma vmap2_returned_in {A B C : Type} (f : A -> B -> outcome C)
    (xs : list A) (ys : list B) :
  length xs = length ys ->
  (forall x y, In y ys -> exists z, f x y = Returned z) ->
  exists zs, vmap2 f xs ys = Returned zs /\ length zs = length xs.
Proof.
  revert ys.
  induction xs as [| x xs IH]; intros [| y ys] Hlen Hf; try discriminate Hlen.
  - exists []. split; reflexivity.
  - destruct (IH ys) as (zs & Hzs & Hzlen).
    + simpl in Hlen. lia.
    + intros x' y' Hin. apply Hf. right. exact Hin.
    + destruct (Hf x y (or_introl eq_refl)) as [z Hz].
      exists (z :: zs). split.
      * simpl. rewrite Hz. simpl. rewrite Hzs. reflexivity.
      * simpl. rewrite Hzlen. reflexivity.
Qed.

Lemma choice_species_returns (key : Key) (p : list R) :
  length p = NUM_ELEMENTS ->
  exists k, choice key (seq 0 NUM_ELEMENTS) p = Returned k.
Proof.
  intros Hlen. unfold choice.
  rewrite length_seq, Hlen, Nat.eqb_refl. cbn [negb].
  rewrite last_item_cumsum
    by (intros Hnil; rewrite Hnil in Hlen; discriminate Hlen).
  cbn [bind].
  rewrite getitem_seq by (unfold NUM_ELEMENTS; lia).
  eexists. reflexivity.
Qed.

End EvaluationProperties.

(** ** [GSchNet.target_species_logits] *)

Lemma shape_of_three_axes (a b c d e : nat) : GSchNet.shape_eqb [a; b; c] [d; e] = false.
Proof.
  unfold GSchNet.shape_eqb.
  destruct (list_eq_dec Nat.eq_dec [a; b; c] [d; e]) as [Heq | _];
    [discriminate Heq | reflexivity].
Qed.

(** A network of latent size two, three nodes in graphs of two and one. *)
Definition small_gschnet : GSchNet.Model :=
  {| GSchNet.latent_size := 2;
     GSchNet.num_interactions := 1;
     GSchNet.activation := fun x => x;
     GSchNet.species_embedder := fun _ => [1%R; 1%R];
     GSchNet.species_mlp := fun _ => repeat 0%R NUM_ELEMENTS |}.

Definition three_node_embeddings : GSchNet.Array2 :=
  {| GSchNet.shape2 := (3, 2);
     GSchNet.data2 := [[1%R; 0%R]; [0%R; 1%R]; [1%R; 1%R]] |}.

(** C7.  [GSchNet.target_species_logits] never returns an array: the
    logits of the perceptron have three axes, (nodes, elements, elements),
    so the first shape assertion fails whenever the products are defined;
    and the body has no [return].  On three nodes in two graphs the call
    raises [AssertionError]. *)
Theorem gschnet_target_species_logits_returns_no_array :
  (forall (self : GSchNet.Model) (node_embeddings : GSchNet.Array2)
          (n_node : list nat) (logits : GSchNet.Array2),
      GSchNet.target_species_logits self node_embeddings n_node
      <> Returned (Some logits))
  /\ GSchNet.target_species_logits small_gschnet three_node_embeddings [2; 1]
     = Raised AssertionError.
Proof.
  split.
  - intros self node_embeddings n_node logits.
    unfold GSchNet.target_species_logits.
    destruct (GSchNet.map_outcome _ (GSchNet.data2 node_embeddings))
      as [products | e]; cbn [bind]; [| discriminate].
    unfold GSchNet.shape_of3 at 1. cbn [GSchNet.shape3].
    rewrite shape_of_three_axes. cbn [assert bind]. discriminate.
  - unfold GSchNet.target_species_logits.
    cbn [small_gschnet three_node_embeddings GSchNet.data2 GSchNet.shape2
         GSchNet.latent_size GSchNet.species_embedder GSchNet.species_mlp
         GSchNet.map_outcome GSchNet.multiply NUM_ELEMENTS seq map length
         Nat.eqb bind combine fst snd].
    unfold GSchNet.shape_of3 at 1. cbn [GSchNet.shape3].
    rewrite shape_of_three_axes. reflexivity.
Qed.

(** ** [S2Activation.__call__] *)

Lemma getattr_res (self : S2Activation.Self) :
  S2Activation.getattr self "res" = Raised AttributeError.
Proof. reflexivity. Qed.

(** Reading the irreps information never returns: when both assertions
    hold, the attribute [res] is read, which the object does not have. *)
Lemma extract_irreps_info_raises (self : S2Activation.Self) :
  exists e, S2Activation._extract_irreps_info self = Raised e.
Proof.
  unfold S2Activation._extract_irreps_info.
  destruct (rev (S2Activation.simplify (S2Activation.irreps self)))
    as [| entry rest]; cbn [bind]; [eexists; reflexivity |].
  destruct (forallb _ _); cbn [assert bind]; [| eexists; reflexivity].
  destruct (list_eq_dec _ _ _); cbn [assert bind]; [| eexists; reflexivity].
  rewrite getattr_res. cbn [bind S2Activation.try_except_TypeError].
  eexists. reflexivity.
Qed.

(** The module for degrees 0 and 1 on a 4 x 3 grid, with the identity as
    activation and without layer norm. *)
Definition identity_activation : S2Activation.Self :=
  {| S2Activation.irreps := [(1, {| l := 0; odd := false |});
                             (1, {| l := 1; odd := true |})];
     S2Activation.resolution := S2Activation.ResPair 4 3;
     S2Activation.activation := fun x => x;
     S2Activation.lmax_out := None;
     S2Activation.layer_norm := false |}.

(** C9.  [S2Activation.__call__] never returns coefficients, whatever the
    transforms of e3nn are: [_extract_irreps_info] reads [self.res], and the
    field is called [resolution].  With the identity activation and no
    layer norm, on degrees 0 and 1, the call raises [AttributeError]. *)
Theorem s2_activation_call_raises :
  forall (SphericalSignal : Type)
         (to_s2grid : Irreps1 -> Z -> Z -> SphericalSignal)
         (from_s2grid : SphericalSignal -> Z -> Z -> Irreps1)
         (signal_apply : (R -> R) -> SphericalSignal -> SphericalSignal)
         (LayerNorm : SphericalSignal -> SphericalSignal),
    (forall (self : S2Activation.Self) (feature_coeffs : Irreps1),
        exists e,
          S2Activation.__call__ to_s2grid from_s2grid signal_apply LayerNorm
                                self feature_coeffs
          = Raised e)
    /\ (forall feature_coeffs : Irreps1,
          S2Activation.__call__ to_s2grid from_s2grid signal_apply LayerNorm
                                identity_activation feature_coeffs
          = Raised AttributeError).
Proof.
  intros SphericalSignal to_s2grid from_s2grid signal_apply LayerNorm.
  split.
  - intros self feature_coeffs.
    unfold S2Activation.__call__.
    destruct (extract_irreps_info_raises self) as [e ->].
    exists e. reflexivity.
  - intros feature_coeffs. reflexivity.
Qed.

(** * Further properties of the code *)

(** ** [S2Activation._complete_lmax_and_res]: completion in full *)

Open Scope Z_scope.

(** The triple that the three [if ... is None] blocks build, before the
    assertions look at it. *)
Definition completed (lmax res_beta res_alpha : option Z) : option (Z * Z * Z) :=
  match lmax, res_beta, res_alpha with
  | None, None, None => None
  | Some l, Some b, Some a => Some (l, b, a)
  | Some l, Some b, None => Some (l, b, Z.max (2 * l + 1) (b - 1))
  | Some l, None, Some a => Some (l, 2 * (l + 1), a)
  | Some l, None, None =>
      Some (l, 2 * (l + 1), Z.max (2 * l + 1) (2 * (l + 1) - 1))
  | None, Some b, Some a => Some (Z.min (b / 2 - 1) ((a - 1) / 2), b, a)
  | None, Some b, None => Some (Z.min (b / 2 - 1) ((b - 1 - 1) / 2), b, b - 1)
  | None, None, Some a =>
      Some (Z.min (2 * ((a + 1) / 2) / 2 - 1) ((a - 1) / 2),
            2 * ((a + 1) / 2), a)
  end.

Definition checked (t : Z * Z * Z) : outcome (Z * Z * Z) :=
  let '(lmax, b, a) := t in
  _ <- assert (b mod 2 =? 0) ;;
  _ <- assert (lmax + 1 <=? b / 2) ;;
  Returned (lmax, b, a).

Lemma complete_unfold (lmax res_beta res_alpha : option Z) :
  S2Activation._complete_lmax_and_res lmax res_beta res_alpha
  = match completed lmax res_beta res_alpha with
    | None => Raised ValueError
    | Some t => checked t
    end.
Proof.
  destruct lmax as [l |], res_beta as [b |], res_alpha as [a |]; reflexivity.
Qed.

Lemma checked_cases (l b a : Z) :
  (b mod 2 = 0 /\ l + 1 <= b / 2 /\ checked (l, b, a) = Returned (l, b, a))
  \/ ((b mod 2 <> 0 \/ b / 2 < l + 1) /\ checked (l, b, a) = Raised AssertionError).
Proof.
  unfold checked.
  destruct (Z.eqb_spec (b mod 2) 0) as [Heven | Hodd]; cbn [assert bind].
  - destruct (Z.leb_spec (l + 1) (b / 2)) as [Hle | Hgt]; cbn [assert bind].
    + left. auto.
    + right. split; [right; exact Hgt | reflexivity].
  - right. split; [left; exact Hodd | reflexivity].
Qed.

(** X1.  [_complete_lmax_and_res] never raises [TypeError]: the arithmetic
    on a missing value is never reached.  It raises [ValueError] or
    [AssertionError], or returns. *)
Theorem complete_lmax_and_res_errors (lmax res_beta res_alpha : option Z) (e : exn) :
  S2Activation._complete_lmax_and_res lmax res_beta res_alpha = Raised e ->
  e = ValueError \/ e = AssertionError.
Proof.
  rewrite complete_unfold.
  destruct (completed lmax res_beta res_alpha) as [[[l b] a] |].
  - destruct (checked_cases l b a) as [(_ & _ & ->) | (_ & ->)].
    + discriminate.
    + intros Hr. inversion Hr. right. reflexivity.
  - intros Hr. inversion Hr. left. reflexivity.
Qed.

Lemma complete_lmax_and_res_errors_witness :
  S2Activation._complete_lmax_and_res (Some 5) (Some 4) None = Raised AssertionError
  /\ (AssertionError = ValueError \/ AssertionError = AssertionError).
Proof.
  split; [reflexivity |].
  exact (complete_lmax_and_res_errors (Some 5) (Some 4) None eq_refl).
Defined.

(** X2.  An argument that is given is returned as it is: the function only
    fills in what is missing. *)
Theorem complete_lmax_and_res_keeps_arguments
    (lmax res_beta res_alpha : option Z) (l b a : Z) :
  S2Activation._complete_lmax_and_res lmax res_beta res_alpha = Returned (l, b, a) ->
  (forall v, lmax = Some v -> l = v)
  /\ (forall v, res_beta = Some v -> b = v)
  /\ (forall v, res_alpha = Some v -> a = v).
Proof.
  rewrite complete_unfold.
  destruct (completed lmax res_beta res_alpha) as [[[l0 b0] a0] |] eqn:Hc;
    [| discriminate].
  destruct (checked_cases l0 b0 a0) as [(_ & _ & ->) | (_ & ->)];
    [| discriminate].
  intros Hr. inversion Hr; subst.
  destruct lmax as [lv |], res_beta as [bv |], res_alpha as [av |];
    cbn in Hc; inversion Hc; subst;
    repeat split; intros v Hv; inversion Hv; reflexivity.
Qed.

Lemma complete_lmax_and_res_keeps_arguments_witness :
  S2Activation._complete_lmax_and_res (Some 3) (Some 10) None
  = Returned (3, 10, 9)
  /\ 3 = 3 /\ 10 = 10.
Proof.
  assert (Hrun : S2Activation._complete_lmax_and_res (Some 3) (Some 10) None
                 = Returned (3, 10, 9)) by reflexivity.
  destruct (complete_lmax_and_res_keeps_arguments _ _ _ Hrun) as (Hl & Hb & _).
  split; [exact Hrun |].
  split; [exact (Hl 3 eq_refl) | exact (Hb 10 eq_refl)].
Defined.

(** X3.  Completion is idempotent: a triple that the function returned is
    accepted and returned unchanged when it is passed back in full. *)
Theorem complete_lmax_and_res_idempotent
    (lmax res_beta res_alpha : option Z) (l b a : Z) :
  S2Activation._complete_lmax_and_res lmax res_beta res_alpha = Returned (l, b, a) ->
  S2Activation._complete_lmax_and_res (Some l) (Some b) (Some a)
  = Returned (l, b, a).
Proof.
  rewrite !complete_unfold. cbn [completed].
  destruct (completed lmax res_beta res_alpha) as [[[l0 b0] a0] |];
    [| discriminate].
  destruct (checked_cases l0 b0 a0) as [(Heven & Hle & Hrun) | (_ & Hrun)];
    rewrite Hrun; [| discriminate].
  intros Hr. inversion Hr; subst. exact Hrun.
Qed.

Lemma complete_lmax_and_res_idempotent_witness :
  S2Activation._complete_lmax_and_res None None (Some 51) = Returned (25, 52, 51)
  /\ S2Activation._complete_lmax_and_res (Some 25) (Some 52) (Some 51)
     = Returned (25, 52, 51).
Proof.
  assert (Hrun : S2Activation._complete_lmax_and_res None None (Some 51)
                 = Returned (25, 52, 51)) by reflexivity.
  split; [exact Hrun |].
  exact (complete_lmax_and_res_idempotent _ _ _ Hrun).
Defined.

(** X4.  With a grid resolution alone, the largest degree that the grid
    supports is chosen.  From [res_alpha] alone the call always returns,
    with [lmax = (res_alpha - 1) // 2] and [res_beta = 2 * (lmax + 1)];
    from [res_beta] alone it returns [(res_beta // 2 - 1, res_beta,
    res_beta - 1)] when [res_beta] is even and raises [AssertionError] when
    it is odd. *)
Theorem complete_from_resolution_alone (res : Z) :
  S2Activation._complete_lmax_and_res None None (Some res)
  = Returned ((res - 1) / 2, 2 * ((res - 1) / 2 + 1), res)
  /\ S2Activation._complete_lmax_and_res None (Some res) None
     = if res mod 2 =? 0 then Returned (res / 2 - 1, res, res - 1)
       else Raised AssertionError.
Proof.
  split.
  - rewrite complete_unfold. cbn [completed].
    assert (Hhalf : (res + 1) / 2 = (res - 1) / 2 + 1).
    { replace (res + 1) with ((res - 1) + 1 * 2) by lia.
      rewrite Z.div_add by lia. reflexivity. }
    rewrite Hhalf.
    set (k := (res - 1) / 2).
    assert (Hdiv : 2 * (k + 1) / 2 = k + 1)
      by (rewrite Z.mul_comm; apply Z.div_mul; lia).
    rewrite Hdiv.
    replace (Z.min (k + 1 - 1) k) with k by lia.
    unfold checked. rewrite Hdiv.
    replace (2 * (k + 1) mod 2 =? 0) with true
      by (symmetry; apply Z.eqb_eq; rewrite Z.mul_comm; apply Z.mod_mul; lia).
    replace (k + 1 <=? k + 1) with true by (symmetry; apply Z.leb_le; lia).
    reflexivity.
  - rewrite complete_unfold. cbn [completed].
    unfold checked.
    destruct (Z.eqb_spec (res mod 2) 0) as [Heven | Hodd]; cbn [assert bind];
      [| reflexivity].
    assert (Hres : res = 2 * (res / 2))
      by (rewrite (Z.div_mod res 2) at 1 by lia; lia).
    assert (Hhalf : (res - 1 - 1) / 2 = res / 2 - 1).
    { rewrite Hres at 1.
      replace (2 * (res / 2) - 1 - 1) with ((res / 2 - 1) * 2) by lia.
      apply Z.div_mul. lia. }
    rewrite Hhalf, Z.min_id.
    replace (res / 2 - 1 + 1 <=? res / 2) with true
      by (symmetry; apply Z.leb_le; lia).
    reflexivity.
Qed.

Close Scope Z_scope.

(** ** [create_radii]: few bins *)

Open Scope R_scope.




Close Scope R_scope.

(** ** [create_radii]: the spacing of the radii *)

Section RadialBinsSpacing.

Import QArith Qround Qabs Qpower.
Local Open Scope Q_scope.

(** X7.  The radii of [create_radii] are equally spaced up to rounding.
    Let [x] and [y] be [min_radius] and [max_radius] as binary32 numbers,
    both finite with [|x| + |y| <= 2^100], and [x] zero or normal; with
    between 2 and [2^24] radii, radius [i] differs from
    [x + i (y - x) / (num_radii - 1)] by at most
    [2^-20 (|x| + |y|) + 2^-122], and the last radius is [y], whether the
    backend keeps subnormal numbers or flushes them. *)
Theorem create_radii_equally_spaced (mode : IEEE754.underflow)
    (self : Float32.TargetPositionPredictor.Self) (x y : Q) :
  Float32.of_python (Float32.TargetPositionPredictor.min_radius self)
  = IEEE754.Finite x ->
  Float32.of_python (Float32.TargetPositionPredictor.max_radius self)
  = IEEE754.Finite y ->
  not_subnormal x ->
  Qabs x + Qabs y <= 2 ^ 100 ->
  (2 <= Float32.TargetPositionPredictor.num_radii self <= 2 ^ 24)%Z ->
  exists radii,
    Float32.TargetPositionPredictor.create_radii mode self
    = Returned (map IEEE754.Finite radii)
    /\ nth (Z.to_nat (Float32.TargetPositionPredictor.num_radii self - 1))
           radii 0 = y
    /\ forall i : nat,
         (Z.of_nat i < Float32.TargetPositionPredictor.num_radii self - 1)%Z ->
         Qabs (nth i radii 0
               - (x + (y - x)
                      * (inject_Z (Z.of_nat i)
                         / inject_Z
                             (Float32.TargetPositionPredictor.num_radii self - 1))))
         <= (1 # 1048576) * (Qabs x + Qabs y) + 16 * least_normal.
Proof.
  intros Hx Hy Hnormal Hmag Hnum.
  destruct (@create_radii_linspace mode _ _ _ _ _ Hx Hy Hnormal Hnum)
    as (Hrun & Hfixed & Hpos & Hsmall & Hn).
  destruct (@linspace_entries mode _ y _ Hfixed Hnormal Hmag Hpos Hsmall)
    as (radii & Hradii & _ & _ & Hlast & Hnear).
  exists radii.
  unfold Float32.TargetPositionPredictor.create_radii.
  rewrite Hrun, Hradii.
  split; [reflexivity |]. split; [exact Hlast |].
  intros i Hi.
  specialize (Hnear i ltac:(lia)).
  unfold ideal_entry, entry_error in Hnear.
  rewrite Hn in Hnear. exact Hnear.
Qed.

Lemma create_radii_equally_spaced_witness :
  Float32.of_python (Float32.TargetPositionPredictor.min_radius three_bins)
  = IEEE754.Finite (1 # 2)
  /\ Float32.of_python (Float32.TargetPositionPredictor.max_radius three_bins)
     = IEEE754.Finite 2
  /\ not_subnormal (1 # 2)
  /\ Qabs (1 # 2) + Qabs 2 <= 2 ^ 100
  /\ (2 <= Float32.TargetPositionPredictor.num_radii three_bins <= 2 ^ 24)%Z
  /\ exists radii,
       Float32.TargetPositionPredictor.create_radii IEEE754.gradual three_bins
       = Returned (map IEEE754.Finite radii)
       /\ nth 2 radii 0 = 2.
Proof.
  assert (Hx : Float32.of_python
                 (Float32.TargetPositionPredictor.min_radius three_bins)
               = IEEE754.Finite (1 # 2)) by reflexivity.
  assert (Hy : Float32.of_python
                 (Float32.TargetPositionPredictor.max_radius three_bins)
               = IEEE754.Finite 2) by reflexivity.
  assert (Hnormal : not_subnormal (1 # 2)) by (right; vm_compute; discriminate).
  assert (Hmag : Qabs (1 # 2) + Qabs 2 <= 2 ^ 100) by (vm_compute; discriminate).
  assert (Hnum : (2 <= Float32.TargetPositionPredictor.num_radii three_bins
                  <= 2 ^ 24)%Z) by (simpl; lia).
  split; [exact Hx |]. split; [exact Hy |]. split; [exact Hnormal |].
  split; [exact Hmag |]. split; [exact Hnum |].
  destruct (@create_radii_equally_spaced IEEE754.gradual three_bins _ _
              Hx Hy Hnormal Hmag Hnum)
    as (radii & Hrun & Hlast & _).
  exists radii. split; [exact Hrun | exact Hlast].
Defined.

End RadialBinsSpacing.

(** ** [get_first_node_indices]: order and membership *)

Lemma list_sum_firstn_le (counts : list nat) (g h : nat) :
  g <= h -> list_sum (firstn g counts) <= list_sum (firstn h counts).
Proof.
  revert g h.
  induction counts as [| n counts IH]; intros g h Hgh.
  - rewrite !firstn_nil. lia.
  - destruct g as [| g]; [simpl; lia |].
    destruct h as [| h]; [lia |].
    simpl. specialize (IH g h ltac:(lia)). lia.
Qed.

Lemma list_sum_firstn_lt (counts : list nat) (g h : nat) :
  Forall (fun n => 0 < n) counts -> g < h <= length counts ->
  list_sum (firstn g counts) < list_sum (firstn h counts).
Proof.
  intros Hpos. revert g h.
  induction Hpos as [| n counts Hn Hcounts IH]; intros g h Hgh.
  - simpl in Hgh. lia.
  - destruct h as [| h]; [lia |].
    destruct g as [| g].
    + simpl. lia.
    + simpl in Hgh |- *. specialize (IH g h ltac:(lia)). lia.
Qed.

Lemma wrap_int32_small (z : Z) :
  (- 2 ^ 31 <= z < 2 ^ 31)%Z -> wrap_int32 z = z.
Proof.
  intros Hz. unfold wrap_int32. rewrite Z.mod_small by lia. lia.
Qed.

(** Below [2^31] nodes the machine sums are the sums. *)
Lemma cumsum_int32_exact (counts : list nat) (acc : nat) :
  (Z.of_nat (acc + list_sum counts) < 2 ^ 31)%Z ->
  cumsum_int32_from (Z.of_nat acc) (map Z.of_nat counts)
  = map Z.of_nat (cumsum_nat_from acc counts).
Proof.
  revert acc.
  induction counts as [| n counts IH]; intros acc Hsum; [reflexivity |].
  simpl in Hsum |- *.
  rewrite <- Nat2Z.inj_add.
  rewrite wrap_int32_small by lia.
  rewrite IH by lia. reflexivity.
Qed.

Lemma map_removelast {A B : Type} (f : A -> B) (xs : list A) :
  map f (removelast xs) = removelast (map f xs).
Proof.
  induction xs as [| x [| y xs] IH]; [reflexivity | reflexivity |].
  change (f x :: map f (removelast (y :: xs))
          = f x :: removelast (map f (y :: xs))).
  rewrite IH. reflexivity.
Qed.

Lemma get_first_node_indices_int32_exact (n_node : list nat) :
  (Z.of_nat (list_sum n_node) < 2 ^ 31)%Z ->
  get_first_node_indices_int32 (map Z.of_nat n_node)
  = map Z.of_nat (get_first_node_indices n_node).
Proof.
  intros Hsum.
  unfold get_first_node_indices_int32, get_first_node_indices,
    cumsum_int32, cumsum_nat.
  change 0%Z with (Z.of_nat 0).
  rewrite cumsum_int32_exact by exact Hsum.
  rewrite map_app, map_removelast. reflexivity.
Qed.

(** X8.  On a batch of fewer than [2^31] nodes, the machine integers that
    [get_first_node_indices] returns are the sums of the node counts of the
    preceding graphs: one index per graph, and the one index 0 when the
    batch has no graph.  The indices never decrease from one graph to the
    next, and they strictly increase when every graph has a node. *)
Theorem first_node_indices_ordered (n_node : list nat) :
  (Z.of_nat (list_sum n_node) < 2 ^ 31)%Z ->
  let indices := get_first_node_indices_int32 (map Z.of_nat n_node) in
  indices = map Z.of_nat (get_first_node_indices n_node)
  /\ length indices = Nat.max 1 (length n_node)
  /\ forall g h, g < h < length n_node ->
       (nth g indices 0 = Z.of_nat (list_sum (firstn g n_node)))%Z
       /\ (nth g indices 0 <= nth h indices 0)%Z
       /\ (Forall (fun n => 0 < n) n_node ->
           (nth g indices 0 < nth h indices 0)%Z).
Proof.
  intros Hsum indices. subst indices.
  rewrite (get_first_node_indices_int32_exact n_node Hsum).
  split; [reflexivity |].
  split.
  - rewrite length_map.
    destruct n_node as [| n rest]; [reflexivity |].
    rewrite get_first_node_indices_length by discriminate.
    simpl. lia.
  - intros g h Hgh.
    assert (Hnth : forall k, k < length n_node ->
               nth k (map Z.of_nat (get_first_node_indices n_node)) 0%Z
               = Z.of_nat (list_sum (firstn k n_node))).
    { intros k Hk.
      change 0%Z with (Z.of_nat 0). rewrite map_nth.
      rewrite (nth_error_nth _ _ 0 (get_first_node_indices_nth n_node Hk)).
      reflexivity. }
    rewrite !Hnth by lia.
    split; [reflexivity |].
    split.
    + apply inj_le. apply list_sum_firstn_le. lia.
    + intros Hpos. apply inj_lt. apply list_sum_firstn_lt; [exact Hpos | lia].
Qed.

Lemma first_node_indices_ordered_witness :
  (Z.of_nat (list_sum [3; 1; 4]%nat) < 2 ^ 31)%Z
  /\ 0 < 2 < length [3; 1; 4]
  /\ Forall (fun n => 0 < n) [3; 1; 4]
  /\ get_first_node_indices_int32 (map Z.of_nat [3; 1; 4]) = [0; 3; 4]%Z
  /\ (nth 0 (get_first_node_indices_int32 (map Z.of_nat [3; 1; 4]%nat)) 0
      < nth 2 (get_first_node_indices_int32 (map Z.of_nat [3; 1; 4]%nat)) 0)%Z.
Proof.
  assert (Hsum : (Z.of_nat (list_sum [3; 1; 4]%nat) < 2 ^ 31)%Z) by (simpl; lia).
  assert (Hgh : 0 < 2 < length [3; 1; 4]) by (simpl; lia).
  assert (Hpos : Forall (fun n => 0 < n) [3; 1; 4]) by (repeat constructor).
  split; [exact Hsum |].
  split; [exact Hgh |].
  split; [exact Hpos |].
  destruct (first_node_indices_ordered [3; 1; 4] Hsum) as (Hexact & _ & Horder).
  split; [exact Hexact |].
  exact (proj2 (proj2 (Horder 0 2 Hgh)) Hpos).
Defined.

(** From [2^31] nodes on the sums wrap around, and the indices are no
    longer ordered. *)
Example first_node_indices_wrap :
  get_first_node_indices_int32 [2147483647; 1; 5]%Z
  = [0; 2147483647; -2147483648]%Z.
Proof. reflexivity. Qed.

(** X9.  The first-node index of a graph that has a node is a node of the
    batch, and the segment identifier of that node, as evaluation computes
    the identifiers, is the graph. *)
Theorem first_node_belongs_to_graph (n_node : list nat) (g : nat) :
  g < length n_node -> 0 < nth g n_node 0 ->
  nth g (get_first_node_indices n_node) 0 < list_sum n_node
  /\ nth (nth g (get_first_node_indices n_node) 0)
         (repeat_arange n_node (list_sum n_node)) 0
     = g.
Proof.
  intros Hg Hpos.
  rewrite (nth_error_nth _ _ 0 (get_first_node_indices_nth n_node Hg)).
  destruct (graph_members (repeat tt (list_sum n_node)) n_node
              (repeat_length tt (list_sum n_node)) Hg)
    as (_ & Hbound & Hid).
  rewrite repeat_length in Hbound, Hid.
  split; [lia | exact (Hid Hpos)].
Qed.

Lemma first_node_belongs_to_graph_witness :
  1 < length [3; 1; 4]
  /\ 0 < nth 1 [3; 1; 4] 0
  /\ nth 1 (get_first_node_indices [3; 1; 4]) 0 < list_sum [3; 1; 4]
  /\ nth (nth 1 (get_first_node_indices [3; 1; 4]) 0)
         (repeat_arange [3; 1; 4] (list_sum [3; 1; 4])) 0
     = 1.
Proof.
  assert (Hg : 1 < length [3; 1; 4]) by (simpl; lia).
  assert (Hpos : 0 < nth 1 [3; 1; 4] 0) by (simpl; lia).
  split; [exact Hg |].
  split; [exact Hpos |].
  exact (first_node_belongs_to_graph [3; 1; 4] Hg Hpos).
Defined.

(** ** The sampler on segments without mass *)

Open Scope R_scope.

Section SamplerEdge.

Context {Key : Type} `{PRNG Key}.

(** What a successful [segment_sample] has computed: one draw per segment,
    each with its own key. *)
Lemma segment_sample_draws (probabilities : list R) (segment_ids : list nat)
    (num_segments : nat) (rng : Key) (sampled : list nat) :
  segment_sample probabilities segment_ids num_segments rng = Returned sampled ->
  length sampled = num_segments
  /\ forall i, (i < num_segments)%nat ->
       sample_for_segment probabilities segment_ids
         (seq 0 (length segment_ids)) (nth i (split rng num_segments) rng) i
       = Returned (nth i sampled 0%nat).
Proof.
  unfold segment_sample.
  pose proof (split_length rng num_segments) as Hkeys.
  assert (Hgen : forall (keys : list Key) (start : nat) (zs : list nat),
             vmap2 (sample_for_segment probabilities segment_ids
                      (seq 0 (length segment_ids)))
                   keys (seq start (length keys))
             = Returned zs ->
             length zs = length keys
             /\ forall i, (i < length keys)%nat ->
                  sample_for_segment probabilities segment_ids
                    (seq 0 (length segment_ids)) (nth i keys rng) (start + i)
                  = Returned (nth i zs 0%nat)).
  { induction keys as [| key keys IH]; intros start zs Hrun.
    - simpl in Hrun. inversion Hrun. split; [reflexivity |].
      intros i Hi. simpl in Hi. lia.
    - simpl in Hrun.
      destruct (sample_for_segment probabilities segment_ids
                  (seq 0 (length segment_ids)) key start) as [z | e] eqn:Hz;
        [| discriminate Hrun].
      cbn [bind] in Hrun.
      destruct (vmap2 _ keys (seq (S start) (length keys))) as [zs' | e] eqn:Hzs;
        [| discriminate Hrun].
      cbn [bind] in Hrun. inversion Hrun; subst.
      destruct (IH (S start) zs' Hzs) as (Hlen & Hnth).
      split; [simpl; rewrite Hlen; reflexivity |].
      intros [| i] Hi.
      + rewrite Nat.add_0_r. exact Hz.
      + simpl nth. rewrite Nat.add_succ_r. apply Hnth. simpl in Hi. lia. }
  intros Hrun.
  rewrite <- Hkeys in Hrun at 2.
  destruct (Hgen _ 0%nat _ Hrun) as (Hlen & Hnth).
  rewrite Hkeys in Hlen, Hnth.
  split; [exact Hlen |].
  intros i Hi. exact (Hnth i Hi).
Qed.

Lemma sample_for_segment_without_mass (probabilities : list R)
    (segment_ids : list nat) (rng : Key) (i : nat) :
  length probabilities = length segment_ids ->
  segment_ids <> [] ->
  Forall (fun x => 0 <= x) probabilities ->
  Rsum (segment_members probabilities segment_ids i) = 0 ->
  sample_for_segment probabilities segment_ids (seq 0 (length segment_ids)) rng i
  = Returned 0%nat.
Proof.
  intros Hlen Hne Hnonneg Hmass.
  rewrite sample_for_segment_value by assumption.
  rewrite masked_sum, Hmass, Rmult_0_l.
  pose proof (masked_nonneg i segment_ids Hnonneg) as Hm.
  destruct Hm as [| x rest Hx _]; [reflexivity |].
  unfold cumsum. simpl searchsorted.
  destruct (Rlt_dec (0 + x) 0) as [Hlt | _]; [lra | reflexivity].
Qed.

(** X10.  A segment without probability mass, for instance a graph without
    nodes, is given the index 0: the draw does not fail, and the index it
    returns is the first node of the batch, whatever segment that node is
    in. *)
Theorem segment_sample_without_mass (probabilities : list R)
    (segment_ids : list nat) (num_segments : nat) (rng : Key) (i : nat) :
  length probabilities = length segment_ids ->
  segment_ids <> [] ->
  Forall (fun x => 0 <= x) probabilities ->
  (i < num_segments)%nat ->
  Rsum (segment_members probabilities segment_ids i) = 0 ->
  exists sampled,
    segment_sample probabilities segment_ids num_segments rng = Returned sampled
    /\ nth_error sampled i = Some 0%nat.
Proof.
  intros Hlen Hne Hnonneg Hi Hmass.
  destruct (vmap2_returned
              (sample_for_segment probabilities segment_ids
                                  (seq 0 (length segment_ids)))
              (split rng num_segments) (seq 0 num_segments))
    as (sampled & Hrun & Hslen & _).
  { rewrite split_length, length_seq. reflexivity. }
  { intros key j. eexists. apply sample_for_segment_value; assumption. }
  rewrite split_length in Hslen.
  exists sampled. split; [exact Hrun |].
  destruct (segment_sample_draws _ _ _ _ Hrun) as (_ & Hdraw).
  specialize (Hdraw i Hi).
  rewrite sample_for_segment_value in Hdraw by assumption.
  rewrite masked_sum, Hmass, Rmult_0_l in Hdraw.
  assert (Hfirst : searchsorted (cumsum (masked i segment_ids probabilities)) 0
                   = 0%nat).
  { pose proof (masked_nonneg i segment_ids Hnonneg) as Hm.
    destruct Hm as [| x rest Hx _]; [reflexivity |].
    unfold cumsum. simpl.
    destruct (Rlt_dec (0 + x) 0) as [Hlt | _]; [lra | reflexivity]. }
  rewrite Hfirst in Hdraw. simpl Nat.min in Hdraw.
  inversion Hdraw as [Hzero].
  rewrite (nth_error_nth' sampled 0%nat) by lia.
  rewrite <- Hzero. reflexivity.
Qed.

End SamplerEdge.

Lemma segment_sample_without_mass_witness :
  length [/ 2; / 2; 1] = length [0; 0; 2]%nat
  /\ [0; 0; 2]%nat <> []
  /\ Forall (fun x => 0 <= x) [/ 2; / 2; 1]
  /\ (1 < 3)%nat
  /\ Rsum (segment_members [/ 2; / 2; 1] [0; 0; 2]%nat 1) = 0
  /\ exists sampled,
       segment_sample [/ 2; / 2; 1] [0; 0; 2]%nat 3 0%nat = Returned sampled
       /\ nth_error sampled 1 = Some 0%nat.
Proof.
  assert (Hlen : length [/ 2; / 2; 1] = length [0; 0; 2]%nat) by reflexivity.
  assert (Hne : [0; 0; 2]%nat <> []) by discriminate.
  assert (Hnonneg : Forall (fun x => 0 <= x) [/ 2; / 2; 1])
    by (repeat constructor; lra).
  assert (Hi : (1 < 3)%nat) by lia.
  assert (Hmass : Rsum (segment_members [/ 2; / 2; 1] [0; 0; 2]%nat 1) = 0)
    by reflexivity.
  split; [exact Hlen |].
  split; [exact Hne |].
  split; [exact Hnonneg |].
  split; [exact Hi |].
  split; [exact Hmass |].
  exact (@segment_sample_without_mass nat counter_prng
           [/ 2; / 2; 1] [0; 0; 2]%nat 3%nat 0%nat 1%nat
           Hlen Hne Hnonneg Hi Hmass).
Defined.

(** A member of a segment of non-negative numbers is at most the sum of
    the segment. *)
Lemma member_le_segment_sum (data : list R) (ids : list nat) (j : nat) :
  Forall (fun x => 0 <= x) data ->
  (j < length data)%nat -> (j < length ids)%nat ->
  nth j data 0 <= Rsum (segment_members data ids (nth j ids 0%nat)).
Proof.
  intros Hnonneg. revert ids j.
  induction Hnonneg as [| x data Hx Hdata IH]; intros [| s ids] j Hj Hjs;
    simpl in Hj, Hjs; try lia.
  assert (Hrest : forall g, 0 <= Rsum (segment_members data ids g)).
  { intros g. clear - Hdata. revert ids.
    induction Hdata as [| y data Hy Hdata IH]; intros [| t ids];
      try (unfold segment_members; simpl; lra).
    rewrite segment_members_cons.
    destruct (t =? g)%nat; simpl; [specialize (IH ids); lra | apply IH]. }
  rewrite segment_members_cons.
  destruct j as [| j]; simpl nth.
  - rewrite Nat.eqb_refl. simpl. specialize (Hrest s). lra.
  - specialize (IH ids j ltac:(lia) ltac:(lia)).
    destruct (s =? nth j ids 0%nat)%nat; simpl; lra.
Qed.

(** Every entry of the partition softmax of a well-formed batch lies in
    the interval (0, 1]. *)
Lemma partition_softmax_range (logits : list R) (counts : list nat) (node : nat) :
  length logits = list_sum counts -> (node < list_sum counts)%nat ->
  0 < nth node (partition_softmax logits counts (list_sum counts)) 0 <= 1.
Proof.
  intros Hlen Hnode.
  unfold partition_softmax.
  set (ids := repeat_arange counts (list_sum counts)).
  set (G := length counts).
  assert (Hids_eq : ids = ids_from 0 counts) by apply repeat_arange_exact.
  assert (Hids : length ids = list_sum counts)
    by (rewrite Hids_eq; apply ids_from_length).
  assert (Hg : (nth node ids 0 < G)%nat).
  { assert (Hin : In (nth node ids 0%nat) ids) by (apply nth_In; lia).
    rewrite Hids_eq in Hin at 2.
    apply ids_from_range in Hin. unfold G. lia. }
  set (exps := map exp (segment_shift logits ids G)).
  assert (Hexps_len : length exps = list_sum counts).
  { unfold exps, segment_shift. rewrite !length_map, length_combine. lia. }
  assert (Hexps_pos : Forall (fun x => 0 < x) exps).
  { apply Forall_forall. intros x Hin. unfold exps in Hin.
    apply in_map_iff in Hin. destruct Hin as (y & <- & _). apply exp_pos. }
  assert (Hexps_nonneg : Forall (fun x => 0 <= x) exps).
  { eapply Forall_impl; [| exact Hexps_pos]. intros x Hx. lra. }
  unfold segment_softmax. fold exps.
  rewrite (nth_map_combine _ _ _ 0 0%nat) by lia.
  cbn [fst snd].
  rewrite segment_normalizers_nth by exact Hg. fold exps.
  pose proof (member_le_segment_sum ids (j := node) Hexps_nonneg
                ltac:(lia) ltac:(lia)) as Hle.
  assert (Hpos : 0 < nth node exps 0).
  { rewrite Forall_forall in Hexps_pos. apply Hexps_pos. apply nth_In. lia. }
  split.
  - apply Rdiv_lt_0_compat; lra.
  - apply (Rmult_le_reg_r (Rsum (segment_members exps ids (nth node ids 0%nat))));
      [lra |].
    unfold Rdiv. rewrite Rmult_assoc, Rinv_l, Rmult_1_r, Rmult_1_l by lra.
    exact Hle.
Qed.

Lemma partition_softmax_nonneg (logits : list R) (counts : list nat) :
  length logits = list_sum counts ->
  Forall (fun x => 0 <= x) (partition_softmax logits counts (list_sum counts)).
Proof.
  intros Hlen.
  destruct (partition_softmax_length logits counts Hlen) as (Hprobs & _).
  apply Forall_forall. intros x Hin.
  destruct (In_nth _ _ 0 Hin) as (node & Hnode & <-).
  rewrite Hprobs in Hnode.
  destruct (partition_softmax_range logits counts Hlen Hnode). lra.
Qed.

Close Scope R_scope.

(** ** Evaluation: what the sampled focus and species are *)

Section EvaluationOutputs.

Context {Key : Type} `{PRNG Key}.


(** The steps of one evaluation call on a well-formed batch, with the
    values that each step hands to the next. *)
Lemma evaluation_steps (self : MACE.Model) (graphs : Fragment) (hk_key : Key) :
  layers_well_shaped self -> well_formed_batch graphs ->
  length (positions (nodes graphs)) = length (species (nodes graphs)) ->
  exists out kept embeddings focus_rng species_rng focus_rows,
    MACE.get_evaluation_predictions self graphs hk_key = Returned (out, kept)
    /\ MACE.node_embeddings self graphs = Returned embeddings
    /\ length (rows1 embeddings) = length (species (nodes graphs))
    /\ eval_focus_logits out
       = map (MACE.focus_linear self (irreps1 embeddings)) (rows1 embeddings)
    /\ segment_sample
         (partition_softmax (eval_focus_logits out) (n_node graphs)
                            (list_sum (n_node graphs)))
         (repeat_arange (n_node graphs) (list_sum (n_node graphs)))
         (length (n_node graphs)) focus_rng
       = Returned (eval_focus_indices out)
    /\ take (rows1 embeddings) (eval_focus_indices out) = Returned focus_rows
    /\ eval_target_species_logits out
       = map (species_head self (irreps1 embeddings)) focus_rows
    /\ vmap2 (fun key p => choice key (seq 0 NUM_ELEMENTS) p)
             (split species_rng (length (n_node graphs)))
             (map softmax (eval_target_species_logits out))
       = Returned (eval_target_species out)
    /\ rows2 (eval_position_coeffs out)
       = map (fun tr => position_head self (irreps1 embeddings) (snd tr) (fst tr))
             (combine (eval_target_species out) focus_rows).
Proof.
  intros Hlayers Hbatch Hnum.
  pose proof Hbatch as (Hpos & Hspecies & Hedges & Hgraphs & _ & Hsum).
  destruct (split2_returns hk_key) as (kept & rng & Hkey).
  destruct (node_embeddings_returns Hlayers graphs Hpos Hedges)
    as (vectors & Hembed).
  set (out := MACE.mace self vectors (species (nodes graphs))
                        (senders graphs) (receivers graphs)) in *.
  set (embeddings := axis_to_mul (MACE.num_interactions self) out) in *.
  destruct (proj1 Hlayers vectors (species (nodes graphs))
                  (senders graphs) (receivers graphs))
    as (Hrows & _ & _ & Hirreps).
  fold out in Hrows, Hirreps. fold embeddings in Hirreps.
  assert (Hnodes : length (rows1 embeddings) = length (species (nodes graphs))).
  { unfold embeddings, axis_to_mul. cbn [rows1]. rewrite length_map. exact Hrows. }
  destruct (split2_returns rng) as (rng' & focus_rng & Hfocus_key).
  set (focus_logits :=
         map (MACE.focus_linear self (irreps1 embeddings)) (rows1 embeddings)).
  assert (Hlogits : length focus_logits = list_sum (n_node graphs))
    by (unfold focus_logits; rewrite length_map; lia).
  destruct (partition_softmax_length focus_logits (n_node graphs) Hlogits)
    as (Hprobs & Hids).
  assert (Hids_ne : repeat_arange (n_node graphs) (list_sum (n_node graphs)) <> []).
  { intros Hnil. rewrite Hnil in Hids. simpl in Hids.
    destruct (species (nodes graphs)); [contradiction | simpl in Hsum; lia]. }
  destruct (vmap2_returned
              (sample_for_segment
                 (partition_softmax focus_logits (n_node graphs)
                                    (list_sum (n_node graphs)))
                 (repeat_arange (n_node graphs) (list_sum (n_node graphs)))
                 (seq 0 (length (repeat_arange (n_node graphs)
                                               (list_sum (n_node graphs))))))
              (split focus_rng (length (n_node graphs)))
              (seq 0 (length (n_node graphs))))
    as (focus_indices & Hsample & Hsampled & _).
  { rewrite split_length, length_seq. reflexivity. }
  { intros key j. eexists. apply sample_for_segment_value; [lia | exact Hids_ne]. }
  rewrite split_length in Hsampled.
  assert (Hne : rows1 embeddings <> []).
  { intros Hnil. rewrite Hnil in Hnodes.
    destruct (species (nodes graphs)); [contradiction | discriminate Hnodes]. }
  destruct (take_returned focus_indices Hne) as (focus_rows & Htake & Hflen & _).
  set (focus := {| irreps1 := irreps1 embeddings; rows1 := focus_rows |}).
  destruct (split2_returns rng') as (rng'' & species_rng & Hspecies_key).
  destruct (vmap2_returned_in
              (fun key p => choice key (seq 0 NUM_ELEMENTS) p)
              (split species_rng (length (n_node graphs)))
              (map softmax (map (species_head self (irreps1 focus)) (rows1 focus))))
    as (targets & Htargets & Htlen).
  { rewrite split_length, !length_map. cbn [rows1 focus]. lia. }
  { intros key p Hin.
    apply in_map_iff in Hin. destruct Hin as (row & <- & Hrow).
    apply in_map_iff in Hrow. destruct Hrow as (chunks & <- & _).
    apply choice_species_returns.
    rewrite softmax_length. apply (proj1 (proj2 Hlayers)). }
  rewrite split_length in Htlen.
  assert (Hposition :
            MACE.target_position self focus targets
            = Returned
                {| irreps2 := MACE.s2_irreps (MACE.position_coeffs_lmax self);
                   rows2 :=
                     map (fun tr => position_head self (irreps1 focus)
                                      (snd tr) (fst tr))
                         (combine targets (rows1 focus)) |}).
  { apply (target_position_returns Hlayers focus);
      cbn [rows1 irreps1 focus]; [lia | exact Hirreps]. }
  assert (Hrun :
            MACE.get_evaluation_predictions self graphs hk_key
            = Returned
                ({| eval_focus_logits := focus_logits;
                    eval_focus_indices := focus_indices;
                    eval_target_species_logits :=
                      map (species_head self (irreps1 focus)) (rows1 focus);
                    eval_position_coeffs :=
                      {| irreps2 := MACE.s2_irreps (MACE.position_coeffs_lmax self);
                         rows2 :=
                           map (fun tr => position_head self (irreps1 focus)
                                            (snd tr) (fst tr))
                               (combine targets (rows1 focus)) |};
                    eval_target_species := targets |},
                 kept)).
  { unfold MACE.get_evaluation_predictions, MACE.next_rng_key.
    rewrite Hkey. cbn [bind fst snd].
    rewrite Hembed. cbn [bind].
    rewrite (focus_logits_returns self). cbn [bind].
    rewrite Hfocus_key. cbn [bind fst snd].
    rewrite Hnum, <- Hsum. fold embeddings focus_logits.
    unfold segment_sample. rewrite Hsample. cbn [bind].
    unfold take1. rewrite Htake. cbn [bind]. fold focus.
    rewrite (target_species_logits_returns Hlayers). cbn [bind].
    rewrite Hspecies_key. cbn [bind fst snd].
    rewrite Htargets. cbn [bind].
    rewrite Hposition. reflexivity. }
  eexists. exists kept, embeddings, focus_rng, species_rng, focus_rows.
  split; [exact Hrun |].
  cbn [eval_focus_logits eval_focus_indices eval_target_species_logits
       eval_position_coeffs eval_target_species rows2 rows1 irreps1 focus].
  split; [exact Hembed |].
  split; [exact Hnodes |].
  split; [reflexivity |].
  split; [exact Hsample |].
  split; [exact Htake |].
  split; [reflexivity |].
  split; [exact Htargets |].
  reflexivity.
Qed.

End EvaluationOutputs.


Section EvaluationSamples.

Context {Key : Type} `{PRNG Key}.


(** X13.  Evaluation gives every graph that has a node a focus node of its
    own: the sampled focus index is a node whose segment identifier is the
    graph.  A graph without nodes, as padding graphs are, is given the
    index 0. *)
Theorem evaluation_focus_in_own_graph (self : MACE.Model) (graphs : Fragment)
    (hk_key : Key) :
  layers_well_shaped self -> well_formed_batch graphs ->
  length (positions (nodes graphs)) = length (species (nodes graphs)) ->
  exists out kept,
    MACE.get_evaluation_predictions self graphs hk_key = Returned (out, kept)
    /\ length (eval_focus_indices out) = length (n_node graphs)
    /\ forall g, g < length (n_node graphs) ->
         (0 < nth g (n_node graphs) 0 ->
          nth_error (repeat_arange (n_node graphs) (list_sum (n_node graphs)))
                    (nth g (eval_focus_indices out) 0)
          = Some g)
         /\ (nth g (n_node graphs) 0 = 0 ->
             nth_error (eval_focus_indices out) g = Some 0).
Proof.
  intros Hlayers Hbatch Hnum.
  destruct (evaluation_steps hk_key Hlayers Hbatch Hnum)
    as (out & kept & embeddings & focus_rng & species_rng & focus_rows
        & Hrun & _ & Hnodes & Hlogits & Hsample & _).
  destruct Hbatch as (_ & Hspecies & _ & _ & _ & Hsum).
  exists out, kept. split; [exact Hrun |].
  destruct (segment_sample_draws _ _ _ _ Hsample) as (Hlen & Hdraw).
  split; [exact Hlen |].
  set (probs := partition_softmax (eval_focus_logits out) (n_node graphs)
                                  (list_sum (n_node graphs))) in *.
  set (ids := repeat_arange (n_node graphs) (list_sum (n_node graphs))) in *.
  assert (Hlogits_len : length (eval_focus_logits out) = list_sum (n_node graphs))
    by (rewrite Hlogits, length_map; lia).
  destruct (partition_softmax_length _ (n_node graphs) Hlogits_len)
    as (Hprobs & Hids).
  fold probs in Hprobs. fold ids in Hids.
  assert (Hsame : length probs = length ids) by lia.
  assert (Hne : ids <> []).
  { intros Hnil. rewrite Hnil in Hids. simpl in Hids.
    destruct (species (nodes graphs)); [contradiction | simpl in Hsum; lia]. }
  pose proof (partition_softmax_nonneg _ (n_node graphs) Hlogits_len) as Hnonneg.
  fold probs in Hnonneg.
  intros g Hg. specialize (Hdraw g Hg).
  destruct (graph_members probs (n_node graphs) Hprobs Hg) as (Hmem & Hbound & _).
  rewrite Hprobs in Hmem. fold ids in Hmem.
  split.
  - intros Hpos.
    assert (Hmass : Rsum (segment_members probs ids g) = 1%R).
    { unfold probs, ids, partition_softmax.
      apply segment_softmax_sums_to_one; [exact Hg |].
      destruct (graph_members (eval_focus_logits out) (n_node graphs)
                              Hlogits_len Hg) as (Hlmem & Hlbound & _).
      rewrite Hlogits_len in Hlmem. rewrite Hlmem.
      intros Hnil. apply (f_equal (@length R)) in Hnil.
      rewrite length_firstn, length_skipn in Hnil. simpl in Hnil. lia. }
    destruct (@sample_for_segment_in_segment Key _ probs ids
                (nth g (split focus_rng (length (n_node graphs))) focus_rng) g
                Hsame Hnonneg ltac:(rewrite Hmass; lra))
      as (k & Hk & Hin).
    rewrite Hk in Hdraw. inversion Hdraw as [Heq]. rewrite <- Heq. exact Hin.
  - intros Hzero.
    assert (Hmass : Rsum (segment_members probs ids g) = 0%R).
    { rewrite Hmem, Hzero. reflexivity. }
    rewrite (sample_for_segment_without_mass _ g Hsame Hne Hnonneg Hmass) in Hdraw.
    inversion Hdraw as [Heq].
    rewrite (nth_error_nth' _ 0) by lia.
    rewrite <- Heq. reflexivity.
Qed.


End EvaluationSamples.

(** A batch of two graphs followed by a padding graph without nodes. *)
Definition padded_graphs : Fragment :=
  {| nodes := nodes two_graphs;
     senders := senders two_graphs;
     receivers := receivers two_graphs;
     n_node := [2; 1; 0];
     n_edge := [2; 0; 0];
     globals := {| stop := [false; true; true];
                   target_species := [0; 0; 0];
                   target_positions := target_positions (globals two_graphs)
                                       ++ [(0, 0, 0)%R] |} |}.

Lemma padded_graphs_well_formed : well_formed_batch padded_graphs.
Proof.
  unfold well_formed_batch. cbn.
  repeat split; try reflexivity; discriminate.
Qed.

Lemma evaluation_focus_in_own_graph_witness :
  layers_well_shaped tiny_mace
  /\ well_formed_batch padded_graphs
  /\ length (positions (nodes padded_graphs))
     = length (species (nodes padded_graphs))
  /\ exists out kept,
       MACE.get_evaluation_predictions tiny_mace padded_graphs 7
       = Returned (out, kept)
       /\ nth_error (repeat_arange [2; 1; 0] 3) (nth 1 (eval_focus_indices out) 0)
          = Some 1
       /\ nth_error (eval_focus_indices out) 2 = Some 0.
Proof.
  split; [exact tiny_mace_well_shaped |].
  split; [exact padded_graphs_well_formed |].
  split; [reflexivity |].
  destruct (@evaluation_focus_in_own_graph nat counter_prng tiny_mace
              padded_graphs 7 tiny_mace_well_shaped padded_graphs_well_formed
              eq_refl)
    as (out & kept & Hrun & _ & Hfocus).
  exists out, kept.
  split; [exact Hrun |].
  split.
  - exact (proj1 (Hfocus 1 ltac:(cbn; lia)) ltac:(cbn; lia)).
  - exact (proj2 (Hfocus 2 ltac:(cbn; lia)) eq_refl).
Defined.


(** ** Evaluation against training *)

Lemma take_nth {A : Type} (xs : list A) (idx : list nat) (ys : list A) :
  take xs idx = Returned ys ->
  forall g i, nth_error idx g = Some i ->
    exists y, getitem xs i = Returned y /\ nth_error ys g = Some y.
Proof.
  revert ys.
  induction idx as [| i0 idx IH]; intros ys Hrun g i Hg.
  - destruct g; discriminate Hg.
  - simpl in Hrun.
    destruct (getitem xs i0) as [x |] eqn:Hx; [| discriminate Hrun].
    cbn [bind] in Hrun.
    destruct (take xs idx) as [ys' |]; [| discriminate Hrun].
    cbn [bind] in Hrun. inversion Hrun; subst.
    destruct g as [| g]; simpl in Hg.
    + inversion Hg; subst. exists x. split; [exact Hx | reflexivity].
    + exact (IH ys' eq_refl g i Hg).
Qed.

(** The steps of one training call on a well-formed batch. *)
Lemma training_steps (self : MACE.Model) (graphs : Fragment) :
  layers_well_shaped self -> well_formed_batch graphs ->
  exists predictions embeddings focus_rows,
    MACE.get_training_predictions self graphs = Returned predictions
    /\ MACE.node_embeddings self graphs = Returned embeddings
    /\ pred_focus_logits predictions
       = map (MACE.focus_linear self (irreps1 embeddings)) (rows1 embeddings)
    /\ take (rows1 embeddings) (get_first_node_indices (n_node graphs))
       = Returned focus_rows
    /\ pred_target_species_logits predictions
       = map (species_head self (irreps1 embeddings)) focus_rows
    /\ irreps2 (pred_position_coeffs predictions)
       = MACE.s2_irreps (MACE.position_coeffs_lmax self)
    /\ rows2 (pred_position_coeffs predictions)
       = map (fun tr => position_head self (irreps1 embeddings) (snd tr) (fst tr))
             (combine (target_species (globals graphs)) focus_rows).
Proof.
  intros Hlayers (Hpos & Hspecies & Hedges & Hgraphs & Htargets & Hsum).
  destruct (node_embeddings_returns Hlayers graphs Hpos Hedges)
    as (vectors & Hembed).
  set (out := MACE.mace self vectors (species (nodes graphs))
                        (senders graphs) (receivers graphs)) in *.
  set (embeddings := axis_to_mul (MACE.num_interactions self) out) in *.
  destruct (proj1 Hlayers vectors (species (nodes graphs))
                  (senders graphs) (receivers graphs))
    as (Hrows & _ & _ & Hirreps).
  fold out in Hrows, Hirreps. fold embeddings in Hirreps.
  assert (Hne : rows1 embeddings <> []).
  { assert (Hnodes : length (rows1 embeddings) = length (species (nodes graphs))).
    { unfold embeddings, axis_to_mul. cbn [rows1]. rewrite length_map. exact Hrows. }
    intros Hnil. rewrite Hnil in Hnodes.
    destruct (species (nodes graphs)); [contradiction | discriminate Hnodes]. }
  destruct (take_returned (get_first_node_indices (n_node graphs)) Hne)
    as (focus_rows & Htake & Hflen & _).
  rewrite get_first_node_indices_length in Hflen by exact Hgraphs.
  set (focus := {| irreps1 := irreps1 embeddings; rows1 := focus_rows |}).
  eexists. exists embeddings, focus_rows.
  split.
  - unfold MACE.get_training_predictions.
    rewrite Hembed. cbn [bind].
    rewrite (focus_logits_returns self). cbn [bind].
    unfold take1. fold embeddings. rewrite Htake. cbn [bind]. fold focus.
    rewrite (target_species_logits_returns Hlayers). cbn [bind].
    rewrite (target_position_returns Hlayers focus)
      by (cbn [rows1 irreps1 focus]; first [lia | exact Hirreps]).
    reflexivity.
  - cbn [pred_focus_logits pred_target_species_logits pred_position_coeffs
         rows2 irreps2 rows1 irreps1 focus].
    repeat split; try reflexivity; assumption.
Qed.

Section EvaluationAgainstTraining.

Context {Key : Type} `{PRNG Key}.

(** X15.  On one batch, evaluation reports the focus logits that training
    computes; and for every graph whose sampled focus node is the first
    node of the graph, the species logits of evaluation are the species
    logits of training. *)
Theorem evaluation_agrees_with_training (self : MACE.Model) (graphs : Fragment)
    (hk_key : Key) :
  layers_well_shaped self -> well_formed_batch graphs ->
  length (positions (nodes graphs)) = length (species (nodes graphs)) ->
  exists predictions out kept,
    MACE.get_training_predictions self graphs = Returned predictions
    /\ MACE.get_evaluation_predictions self graphs hk_key = Returned (out, kept)
    /\ eval_focus_logits out = pred_focus_logits predictions
    /\ forall g, g < length (n_node graphs) ->
         nth g (eval_focus_indices out) 0
         = nth g (get_first_node_indices (n_node graphs)) 0 ->
         nth_error (eval_target_species_logits out) g
         = nth_error (pred_target_species_logits predictions) g.
Proof.
  intros Hlayers Hbatch Hnum.
  destruct (training_steps Hlayers Hbatch)
    as (predictions & embeddings & first_rows
        & Htrain & Hembed & Hlogits & Hfirst & Hspecies & _).
  destruct (evaluation_steps hk_key Hlayers Hbatch Hnum)
    as (out & kept & embeddings' & focus_rng & species_rng & focus_rows
        & Hrun & Hembed' & _ & Hlogits' & Hsample & Htake & Hspecies' & _).
  rewrite Hembed in Hembed'. inversion Hembed'; subst embeddings'.
  exists predictions, out, kept.
  split; [exact Htrain |].
  split; [exact Hrun |].
  split; [rewrite Hlogits, Hlogits'; reflexivity |].
  intros g Hg Hsame.
  destruct (segment_sample_draws _ _ _ _ Hsample) as (Hlen & _).
  destruct Hbatch as (_ & _ & _ & Hgraphs & _).
  pose proof (get_first_node_indices_length Hgraphs) as Hflen.
  assert (Hg1 : g < length (eval_focus_indices out)) by lia.
  assert (Hg2 : g < length (get_first_node_indices (n_node graphs))) by lia.
  destruct (take_nth _ _ Htake g (nth_error_nth' _ 0 Hg1))
    as (row & Hrow & Hnth).
  destruct (take_nth _ _ Hfirst g (nth_error_nth' _ 0 Hg2))
    as (row' & Hrow' & Hnth').
  rewrite Hsame, Hrow' in Hrow. inversion Hrow; subst row'.
  rewrite Hspecies, Hspecies'.
  rewrite (map_nth_error _ _ _ Hnth), (map_nth_error _ _ _ Hnth').
  reflexivity.
Qed.

End EvaluationAgainstTraining.

Lemma evaluation_agrees_with_training_witness :
  layers_well_shaped tiny_mace
  /\ well_formed_batch two_graphs
  /\ length (positions (nodes two_graphs)) = length (species (nodes two_graphs))
  /\ exists predictions out kept,
       MACE.get_training_predictions tiny_mace two_graphs = Returned predictions
       /\ MACE.get_evaluation_predictions tiny_mace two_graphs 7
          = Returned (out, kept)
       /\ eval_focus_logits out = pred_focus_logits predictions.
Proof.
  split; [exact tiny_mace_well_shaped |].
  split; [exact two_graphs_well_formed |].
  split; [reflexivity |].
  destruct (@evaluation_agrees_with_training nat counter_prng tiny_mace
              two_graphs 7 tiny_mace_well_shaped two_graphs_well_formed eq_refl)
    as (predictions & out & kept & Htrain & Hrun & Hlogits & _).
  exists predictions, out, kept. auto.
Defined.

(** ** [MACE.node_embeddings] and [MACE.target_position]: what they return *)

Lemma irreps_dim_axis_to_mul (n : nat) (irreps : Irreps) :
  irreps_dim (map (fun mi => (n * fst mi, snd mi)) irreps) = n * irreps_dim irreps.
Proof.
  induction irreps as [| [mul ir] irreps IH].
  - simpl. lia.
  - change (irreps_dim (map (fun mi => (n * fst mi, snd mi)) ((mul, ir) :: irreps)))
      with (n * mul * (2 * l ir + 1)
            + irreps_dim (map (fun mi => (n * fst mi, snd mi)) irreps)).
    change (irreps_dim ((mul, ir) :: irreps))
      with (mul * (2 * l ir + 1) + irreps_dim irreps).
    rewrite IH. lia.
Qed.

(** X17.  Whenever [node_embeddings] returns, it returns one row per node;
    every row has one chunk per irrep of the result, and the dimension of
    the result is [num_interactions] times the dimension of
    [output_irreps]. *)
Theorem node_embeddings_shape (self : MACE.Model) (graphs : Fragment)
    (embeddings : Irreps1) :
  MACE.node_embeddings self graphs = Returned embeddings ->
  length (rows1 embeddings) = length (species (nodes graphs))
  /\ Forall (fun row => length row = length (irreps1 embeddings))
            (rows1 embeddings)
  /\ irreps_dim (irreps1 embeddings)
     = MACE.num_interactions self * irreps_dim (MACE.output_irreps self).
Proof.
  unfold MACE.node_embeddings. intros Hrun.
  apply bind_returned in Hrun. destruct Hrun as (tos & _ & Hrun).
  apply bind_returned in Hrun. destruct Hrun as (froms & _ & Hrun).
  apply bind_returned in Hrun. destruct Hrun as (vectors & _ & Hrun).
  apply bind_returned in Hrun. destruct Hrun as (u & Hshape & Hrun).
  apply assert_returned in Hshape.
  apply andb_true_iff in Hshape. destruct Hshape as (Hshape & Hdim).
  apply andb_true_iff in Hshape. destruct Hshape as (Hrows & _).
  apply Nat.eqb_eq in Hrows, Hdim.
  inversion Hrun; subst embeddings. clear Hrun.
  unfold axis_to_mul. cbn [rows1 irreps1].
  split; [rewrite length_map; exact Hrows |].
  split.
  - apply Forall_forall. intros row Hin.
    apply in_map_iff in Hin. destruct Hin as (entries & <- & _).
    rewrite !length_map, length_seq. reflexivity.
  - rewrite irreps_dim_axis_to_mul, Hdim. reflexivity.
Qed.

Lemma node_embeddings_shape_witness :
  exists embeddings,
    MACE.node_embeddings tiny_mace two_graphs = Returned embeddings
    /\ length (rows1 embeddings) = 3
    /\ irreps_dim (irreps1 embeddings) = 3.
Proof.
  destruct (node_embeddings_returns tiny_mace_well_shaped two_graphs)
    as (vectors & Hrun); [discriminate | reflexivity |].
  eexists. split; [exact Hrun |].
  destruct (node_embeddings_shape tiny_mace two_graphs Hrun) as (Hrows & _ & Hdim).
  split; [exact Hrows | exact Hdim].
Defined.

(** The irreps of degrees 0 to [lmax], one copy each, have dimension
    [(lmax + 1)^2]. *)
Lemma s2_irreps_dim (lmax : nat) :
  irreps_dim (MACE.s2_irreps lmax) = (lmax + 1) * (lmax + 1).
Proof.
  unfold MACE.s2_irreps.
  assert (Hgen : forall n,
             irreps_dim (map (fun d => (1, {| l := d; odd := Nat.odd d |}))
                             (seq 0 n))
             = n * n).
  { induction n as [| n IH]; [reflexivity |].
    rewrite seq_S, map_app. simpl map.
    assert (Happ : forall a b, irreps_dim (a ++ b) = irreps_dim a + irreps_dim b).
    { induction a as [| x a IHa]; intros b; [reflexivity |].
      change (irreps_dim ((x :: a) ++ b))
        with (fst x * (2 * l (snd x) + 1) + irreps_dim (a ++ b)).
      change (irreps_dim (x :: a))
        with (fst x * (2 * l (snd x) + 1) + irreps_dim a).
      rewrite IHa. lia. }
    rewrite Happ, IH.
    change (irreps_dim [(1, {| l := n; odd := Nat.odd n |})])
      with (1 * (2 * n + 1) + 0).
    replace (S n) with (n + 1) by lia. ring. }
  rewrite Hgen. replace (S lmax) with (lmax + 1) by lia. reflexivity.
Qed.

(** X18.  [target_position] insists on one target species per graph.  On
    embeddings with at least one irrep, so that the embedding layer
    [hk.Embed] can be built, any other number of target species raises
    [AssertionError], whatever the layers are. *)
Theorem target_position_needs_one_species_per_graph (self : MACE.Model)
    (focus_node_embeddings : Irreps1) (target_species : list nat) :
  MACE.num_irreps (irreps1 focus_node_embeddings) <> 0 ->
  length target_species <> length (rows1 focus_node_embeddings) ->
  MACE.target_position self focus_node_embeddings target_species
  = Raised AssertionError.
Proof.
  intros _ Hne. unfold MACE.target_position.
  rewrite !Nat.eqb_refl. cbn [andb assert bind].
  rewrite length_map.
  destruct (Nat.eqb_spec (length target_species)
                         (length (rows1 focus_node_embeddings)));
    [contradiction | reflexivity].
Qed.

(** Two focus nodes with one vector each. *)
Definition two_vector_rows : Irreps1 :=
  {| irreps1 := [(1, vector_irrep)];
     rows1 := [[[[0%R; 0%R; 0%R]]]; [[[0%R; 0%R; 0%R]]]] |}.

Lemma target_position_needs_one_species_per_graph_witness :
  MACE.num_irreps (irreps1 two_vector_rows) <> 0
  /\ length [0; 1; 0] <> length (rows1 two_vector_rows)
  /\ MACE.target_position tiny_mace two_vector_rows [0; 1; 0]
     = Raised AssertionError.
Proof.
  assert (Hirreps : MACE.num_irreps (irreps1 two_vector_rows) <> 0)
    by discriminate.
  assert (Hne : length [0; 1; 0] <> length (rows1 two_vector_rows))
    by discriminate.
  split; [exact Hirreps |].
  split; [exact Hne |].
  exact (target_position_needs_one_species_per_graph tiny_mace two_vector_rows
           [0; 1; 0] Hirreps Hne).
Defined.

(** X19.  Whenever [target_position] returns, the coefficients have one row
    per graph, every row has one entry per radius of [RADII], 64 of them,
    and the irreps have dimension [(lmax + 1)^2]. *)
Theorem target_position_shape (self : MACE.Model)
    (focus_node_embeddings : Irreps1) (target_species : list nat)
    (position_coeffs : Irreps2) :
  MACE.target_position self focus_node_embeddings target_species
  = Returned position_coeffs ->
  length (rows2 position_coeffs) = length (rows1 focus_node_embeddings)
  /\ length (rows2 position_coeffs) = length target_species
  /\ Forall (fun row => length row = 64) (rows2 position_coeffs)
  /\ irreps_dim (irreps2 position_coeffs)
     = (MACE.position_coeffs_lmax self + 1) * (MACE.position_coeffs_lmax self + 1).
Proof.
  unfold MACE.target_position. intros Hrun.
  apply bind_returned in Hrun. destruct Hrun as (u0 & _ & Hrun).
  apply bind_returned in Hrun. destruct Hrun as (u1 & Htargets & Hrun).
  apply bind_returned in Hrun. destruct Hrun as (coeffs & _ & Hrun).
  apply bind_returned in Hrun. destruct Hrun as (u2 & Hshape & Hrun).
  inversion Hrun; subst coeffs. clear Hrun.
  apply assert_returned in Htargets, Hshape.
  apply andb_true_iff in Htargets. destruct Htargets as (Htargets & _).
  rewrite length_map in Htargets. apply Nat.eqb_eq in Htargets.
  apply andb_true_iff in Hshape. destruct Hshape as (Hshape & Hdim).
  apply andb_true_iff in Hshape. destruct Hshape as (Hrows & Hradii).
  apply Nat.eqb_eq in Hrows, Hdim.
  split; [exact Hrows |].
  split; [lia |].
  split.
  - apply Forall_forall. intros row Hin.
    rewrite forallb_forall in Hradii. specialize (Hradii row Hin).
    apply Nat.eqb_eq in Hradii. rewrite Hradii. exact RADII_length.
  - rewrite Hdim. apply s2_irreps_dim.
Qed.

Lemma target_position_shape_witness :
  exists focus position_coeffs,
    MACE.target_position tiny_mace focus [0; 0] = Returned position_coeffs
    /\ length (rows2 position_coeffs) = 2
    /\ Forall (fun row => length row = 64) (rows2 position_coeffs).
Proof.
  set (focus := {| irreps1 := [(1, vector_irrep)];
                   rows1 := [[[[0%R; 0%R; 0%R]]]; [[[0%R; 0%R; 0%R]]]] |}).
  exists focus. eexists.
  assert (Hrun := target_position_returns tiny_mace_well_shaped focus [0; 0]
                    eq_refl eq_refl).
  split; [exact Hrun |].
  destruct (target_position_shape tiny_mace focus [0; 0] Hrun)
    as (_ & Hrows & Hradii & _).
  split; [exact Hrows | exact Hradii].
Defined.

(** ** [GSchNet]: the distance head and the forward pass *)

Lemma gschnet_species_logits_raises (self : GSchNet.Model)
    (node_embeddings : GSchNet.Array2) (n_node : list nat) :
  GSchNet.target_species_logits self node_embeddings n_node = Raised AssertionError
  \/ GSchNet.target_species_logits self node_embeddings n_node = Raised ValueError.
Proof.
  unfold GSchNet.target_species_logits.
  assert (Hproducts : forall (rows : list (list R)) (xs : list (list R)),
             (exists products,
                 GSchNet.map_outcome
                   (fun x => GSchNet.map_outcome (GSchNet.multiply x) rows) xs
                 = Returned products)
             \/ GSchNet.map_outcome
                  (fun x => GSchNet.map_outcome (GSchNet.multiply x) rows) xs
                = Raised ValueError).
  { intros rows.
    assert (Hrow : forall x,
               (exists ys, GSchNet.map_outcome (GSchNet.multiply x) rows
                           = Returned ys)
               \/ GSchNet.map_outcome (GSchNet.multiply x) rows = Raised ValueError).
    { intros x. induction rows as [| row rows IH]; [left; eexists; reflexivity |].
      simpl.
      assert (Hmul : (exists y, GSchNet.multiply x row = Returned y)
                     \/ GSchNet.multiply x row = Raised ValueError).
      { unfold GSchNet.multiply.
        destruct (length x =? length row); [left; eexists; reflexivity |].
        destruct x as [| a [| a' x]], row as [| b [| b' row]];
          try (left; eexists; reflexivity); right; reflexivity. }
      destruct Hmul as [(y & ->) | ->]; [| right; reflexivity].
      cbn [bind].
      destruct IH as [(ys & ->) | ->]; [left; eexists | right]; reflexivity. }
    induction xs as [| x xs IH]; [left; eexists; reflexivity |].
    simpl.
    destruct (Hrow x) as [(ys & ->) | ->]; [| right; reflexivity].
    cbn [bind].
    destruct IH as [(yss & ->) | ->]; [left; eexists | right]; reflexivity. }
  destruct (Hproducts (GSchNet.data2
                         {| GSchNet.shape2 := (NUM_ELEMENTS, GSchNet.latent_size self);
                            GSchNet.data2 := map (GSchNet.species_embedder self)
                                                 (seq 0 NUM_ELEMENTS) |})
                      (GSchNet.data2 node_embeddings))
    as [(products & ->) | ->]; [| right; reflexivity].
  cbn [bind]. unfold GSchNet.shape_of3 at 1. cbn [GSchNet.shape3].
  rewrite shape_of_three_axes. left. reflexivity.
Qed.

(** X20.  For an array of target species, one per graph, [distance_logits]
    never returns: its logits have three axes, (nodes, graphs, radii), and
    the shape assertion expects (nodes, radii).  When the embeddings of the
    nodes and of the species have one width, the error is that
    [AssertionError]. *)
Theorem gschnet_distance_logits_raises (self : GSchNet.Model)
    (distance_mlp : list R -> list R) (node_embeddings : GSchNet.Array2)
    (target_species : list nat) :
  (forall logits,
      GSchNet.distance_logits self distance_mlp node_embeddings target_species
      <> Returned logits)
  /\ (Forall (fun row => length row = GSchNet.latent_size self)
             (GSchNet.data2 node_embeddings) ->
      (forall s, length (GSchNet.species_embedder self s)
                 = GSchNet.latent_size self) ->
      GSchNet.distance_logits self distance_mlp node_embeddings target_species
      = Raised AssertionError).
Proof.
  unfold GSchNet.distance_logits.
  split.
  - intros logits.
    destruct (GSchNet.map_outcome _ (GSchNet.data2 node_embeddings))
      as [products | e]; cbn [bind]; [| discriminate].
    unfold GSchNet.shape_of3 at 1. cbn [GSchNet.shape3].
    rewrite shape_of_three_axes. discriminate.
  - intros Hnodes Hspecies.
    cbn [GSchNet.data2].
    assert (Hrow : forall x, length x = GSchNet.latent_size self ->
               exists ys,
                 GSchNet.map_outcome
                   (GSchNet.multiply x)
                   (map (GSchNet.species_embedder self) target_species)
                 = Returned ys).
    { intros x Hx.
      induction target_species as [| s rest IHs]; [eexists; reflexivity |].
      cbn [map GSchNet.map_outcome]. unfold GSchNet.multiply at 1.
      rewrite Hx, Hspecies, Nat.eqb_refl. cbn [bind].
      destruct IHs as (ys & ->). eexists. reflexivity. }
    assert (Hproducts :
              exists products,
                GSchNet.map_outcome
                  (fun x => GSchNet.map_outcome
                              (GSchNet.multiply x)
                              (map (GSchNet.species_embedder self) target_species))
                  (GSchNet.data2 node_embeddings)
                = Returned products).
    { induction Hnodes as [| x xs Hx Hxs IH]; [eexists; reflexivity |].
      cbn [GSchNet.map_outcome].
      destruct (Hrow x Hx) as (ys & ->). cbn [bind].
      destruct IH as (yss & ->). eexists. reflexivity. }
    destruct Hproducts as (products & ->). cbn [bind].
    unfold GSchNet.shape_of3 at 1. cbn [GSchNet.shape3].
    rewrite shape_of_three_axes. reflexivity.
Qed.

Lemma gschnet_distance_logits_raises_witness :
  Forall (fun row => length row = GSchNet.latent_size small_gschnet)
         (GSchNet.data2 three_node_embeddings)
  /\ (forall s, length (GSchNet.species_embedder small_gschnet s)
                = GSchNet.latent_size small_gschnet)
  /\ GSchNet.distance_logits small_gschnet (fun _ => repeat 0%R (length RADII))
                             three_node_embeddings [0; 1]
     = Raised AssertionError.
Proof.
  assert (Hnodes : Forall (fun row => length row = GSchNet.latent_size small_gschnet)
                          (GSchNet.data2 three_node_embeddings))
    by (repeat constructor).
  assert (Hspecies : forall s, length (GSchNet.species_embedder small_gschnet s)
                               = GSchNet.latent_size small_gschnet)
    by (intros s; reflexivity).
  split; [exact Hnodes |].
  split; [exact Hspecies |].
  exact (proj2 (gschnet_distance_logits_raises small_gschnet
                  (fun _ => repeat 0%R (length RADII)) three_node_embeddings [0; 1])
               Hnodes Hspecies).
Defined.

(** X21.  The forward pass of [GSchNet] never returns predictions: an
    error of the encoder is the error of the call, and whatever the encoder
    returns, the species head raises, [AssertionError] on the shape of its
    logits or the [ValueError] of a product that does not broadcast, before
    the distance head is reached. *)
Theorem gschnet_call_never_returns (self : GSchNet.Model)
    (encoder : Fragment -> outcome GSchNet.Array2)
    (distance_mlp : list R -> list R)
    (read_target_species : Fragment -> outcome (list nat))
    (graphs : Fragment) :
  exists e,
    GSchNet.__call__ self encoder distance_mlp read_target_species graphs
    = Raised e
    /\ (forall e', encoder graphs = Raised e' -> e = e')
    /\ (forall node_embeddings,
           encoder graphs = Returned node_embeddings ->
           e = AssertionError \/ e = ValueError).
Proof.
  unfold GSchNet.__call__.
  destruct (encoder graphs) as [node_embeddings | e].
  - cbn [bind].
    destruct (gschnet_species_logits_raises self node_embeddings (n_node graphs))
      as [-> | ->]; eexists; (split; [reflexivity |]);
      (split; [intros e' He'; discriminate He' | intros emb _]);
      [left | right]; reflexivity.
  - exists e. split; [reflexivity |].
    split; [intros e' He'; congruence | intros emb Hemb; discriminate Hemb].
Qed.

(** ** [analyses/analysis.py]: the name of a working directory *)

Example name_of_a_workdir :
  Analysis.name_from_workdir "/home/user/workdirs/mace/interactions=2"
  = "mace/interactions=2"%string.
Proof. reflexivity. Qed.

Example name_without_workdirs :
  Analysis.name_from_workdir "/tmp/runs/mace" = "s/mace"%string.
Proof. reflexivity. Qed.

Lemma string_length_append (a b : string) :
  String.length (String.append a b) = String.length a + String.length b.
Proof.
  induction a as [| c a IH]; simpl; [reflexivity | rewrite IH; reflexivity].
Qed.

Lemma string_append_assoc (a b c : string) :
  String.append (String.append a b) c = String.append a (String.append b c).
Proof.
  induction a as [| x a IH]; simpl; [reflexivity | rewrite IH; reflexivity].
Qed.

Lemma prefix_append_self (sub rest : string) :
  String.prefix sub (String.append sub rest) = true.
Proof.
  induction sub as [| c sub IH]; simpl.
  - destruct rest; reflexivity.
  - destruct (Ascii.ascii_dec c c) as [_ | Hne]; [exact IH | contradiction].
Qed.

(** Whether [sub] starts [a ++ b] is decided inside [a] when [a] is long
    enough. *)
Lemma prefix_append_long (sub a b : string) :
  String.length sub <= String.length a ->
  String.prefix sub (String.append a b) = String.prefix sub a.
Proof.
  revert a.
  induction sub as [| c sub IH]; intros a Hlen.
  - destruct a; simpl; [destruct b |]; reflexivity.
  - destruct a as [| x a]; simpl in Hlen; [lia |].
    simpl. destruct (Ascii.ascii_dec c x); [apply IH; lia | reflexivity].
Qed.

Lemma drop_append (a b : string) (n : nat) :
  Analysis.drop (String.length a + n) (String.append a b) = Analysis.drop n b.
Proof.
  induction a as [| c a IH]; simpl; [reflexivity | exact IH].
Qed.

Lemma drop_all (s : string) (n : nat) :
  String.length s <= n -> Analysis.drop n s = EmptyString.
Proof.
  revert n.
  induction s as [| c s IH]; intros n Hn.
  - destruct n; reflexivity.
  - destruct n as [| n]; simpl in Hn; [lia |].
    simpl. apply IH. lia.
Qed.

Lemma find_index_cons (sub : string) (c : Ascii.ascii) (rest : string) :
  Analysis.find_index sub (String c rest)
  = if String.prefix sub (String c rest) then Some 0
    else option_map S (Analysis.find_index sub rest).
Proof. reflexivity. Qed.

(** The first occurrence of a word [sub] in [before ++ sub ++ rest], when
    [sub] does not occur earlier: not in [before] followed by all of [sub]
    but its last character. *)
Lemma find_index_after (sub sub_but_last last before rest : string) :
  sub = String.append sub_but_last last ->
  String.length last = 1 ->
  Analysis.find_index sub (String.append before sub_but_last) = None ->
  Analysis.find_index sub (String.append before (String.append sub rest))
  = Some (String.length before).
Proof.
  intros Hsub Hlast.
  assert (Hlen : String.length sub = S (String.length sub_but_last)).
  { rewrite Hsub, string_length_append, Hlast. lia. }
  induction before as [| c before IH]; intros Hnone.
  - simpl String.append. simpl String.length.
    assert (Hprefix : String.prefix sub (String.append sub rest) = true)
      by apply prefix_append_self.
    destruct sub as [| s0 sub']; [simpl in Hlen; discriminate Hlen |].
    simpl. simpl in Hprefix. rewrite Hprefix. reflexivity.
  - simpl String.append in Hnone |- *.
    rewrite find_index_cons in Hnone.
    destruct (String.prefix sub (String c (String.append before sub_but_last)))
      eqn:Hhere; [discriminate Hnone |].
    destruct (Analysis.find_index sub (String.append before sub_but_last))
      as [i |] eqn:Hlater; [discriminate Hnone |].
    assert (Hsame :
              String.prefix sub
                (String c (String.append before (String.append sub rest)))
              = String.prefix sub
                  (String c (String.append before sub_but_last))).
    { rewrite Hsub at 2.
      rewrite (string_append_assoc sub_but_last last rest).
      rewrite <- (string_append_assoc before sub_but_last).
      change (String c (String.append (String.append before sub_but_last)
                                      (String.append last rest)))
        with (String.append (String c (String.append before sub_but_last))
                            (String.append last rest)).
      apply prefix_append_long.
      simpl. rewrite string_length_append. lia. }
    rewrite find_index_cons, Hsame, Hhere.
    rewrite (IH eq_refl). reflexivity.
Qed.

(** X22.  For a path [before ++ "workdirs" ++ rest] in which "workdirs"
    does not occur earlier, [name_from_workdir] returns [rest] without its
    first character: the separator after "workdirs" is dropped whatever it
    is, and the name is empty when nothing follows. *)
Theorem name_from_workdir_after_marker (before rest : string) :
  Analysis.find (String.append before "workdir") "workdirs" = (-1)%Z ->
  Analysis.name_from_workdir
    (String.append before (String.append "workdirs" rest))
  = Analysis.drop 1 rest.
Proof.
  intros Hfind.
  assert (Hnone : Analysis.find_index "workdirs" (String.append before "workdir")
                  = None).
  { unfold Analysis.find in Hfind.
    destruct (Analysis.find_index "workdirs" (String.append before "workdir"));
      [lia | reflexivity]. }
  pose proof (@find_index_after "workdirs" "workdir" "s" before rest
                eq_refl eq_refl Hnone) as Hfound.
  unfold Analysis.name_from_workdir, Analysis.find. rewrite Hfound.
  unfold Analysis.slice_from.
  set (path := String.append before (String.append "workdirs" rest)).
  assert (Hlen : String.length path = String.length before + (8 + String.length rest)).
  { unfold path. rewrite !string_length_append. reflexivity. }
  change (String.length "workdirs/") with 9.
  destruct (Z.ltb_spec (Z.of_nat (String.length before) + Z.of_nat 9) 0); [lia |].
  destruct (Nat.le_gt_cases (String.length rest) 1) as [Hshort | Hlong].
  - rewrite drop_all by (rewrite Hlen; lia).
    symmetry. apply drop_all. exact Hshort.
  - rewrite Z.min_l by lia.
    replace (Z.to_nat (Z.of_nat (String.length before) + Z.of_nat 9))
      with (String.length before + 9) by lia.
    unfold path. rewrite drop_append.
    change 9 with (String.length "workdirs" + 1).
    apply drop_append.
Qed.

Lemma name_from_workdir_after_marker_witness :
  Analysis.find (String.append "/data/" "workdir") "workdirs" = (-1)%Z
  /\ Analysis.name_from_workdir
       (String.append "/data/" (String.append "workdirs" "/nequip"))
     = "nequip"%string.
Proof.
  assert (Hfind : Analysis.find (String.append "/data/" "workdir") "workdirs"
                  = (-1)%Z) by reflexivity.
  split; [exact Hfind |].
  exact (name_from_workdir_after_marker "/data/" "/nequip" Hfind).
Defined.

(** X23.  For a path that does not contain "workdirs", [name_from_workdir]
    does not fail and does not return the path: it returns the path
    without its first eight characters. *)
Theorem name_from_workdir_without_marker (workdir : string) :
  Analysis.find workdir "workdirs" = (-1)%Z ->
  Analysis.name_from_workdir workdir = Analysis.drop 8 workdir.
Proof.
  intros Hfind.
  unfold Analysis.name_from_workdir. rewrite Hfind.
  change (String.length "workdirs/") with 9.
  unfold Analysis.slice_from.
  change ((-1 + Z.of_nat 9 <? 0)%Z) with false. cbv iota.
  destruct (Nat.le_gt_cases (String.length workdir) 8) as [Hshort | Hlong].
  - rewrite !drop_all by lia. reflexivity.
  - rewrite Z.min_l by lia. reflexivity.
Qed.

Lemma name_from_workdir_without_marker_witness :
  Analysis.find "/tmp/runs/mace" "workdirs" = (-1)%Z
  /\ Analysis.name_from_workdir "/tmp/runs/mace"
     = Analysis.drop 8 "/tmp/runs/mace".
Proof.
  assert (Hfind : Analysis.find "/tmp/runs/mace" "workdirs" = (-1)%Z)
    by reflexivity.
  split; [exact Hfind |].
  exact (name_from_workdir_without_marker "/tmp/runs/mace" Hfind).
Defined.

(** ** [analyses/analysis.py]: dictionaries *)

Section DictLemmas.

Variables K V : Type.
Variable eqb : K -> K -> bool.
Hypothesis eqb_eq : forall a b : K, eqb a b = true <-> a = b.

Let step := fun (d : list (K * V)) (kv : K * V) =>
              Analysis.setitem eqb d (fst kv) (snd kv).

Lemma setitem_elements (d : list (K * V)) (k : K) (v : V) (x : K * V) :
  In x (Analysis.setitem eqb d k v) -> In x d \/ x = (k, v).
Proof.
  induction d as [| [k' v'] d IH]; simpl.
  - intros [Hx | []]. right. symmetry. exact Hx.
  - destruct (eqb k' k) eqn:Hk.
    + apply eqb_eq in Hk. subst k'.
      intros [Hx | Hx]; [right; symmetry; exact Hx | left; right; exact Hx].
    + intros [Hx | Hx]; [left; left; exact Hx |].
      destruct (IH Hx) as [Hd | Hnew]; [left; right; exact Hd | right; exact Hnew].
Qed.

Lemma setitem_keys (d : list (K * V)) (k : K) (v : V) (k0 : K) :
  In k0 (map fst (Analysis.setitem eqb d k v)) <-> In k0 (map fst d) \/ k0 = k.
Proof.
  induction d as [| [k' v'] d IH]; simpl.
  - split; [intros [Hx | []]; right; symmetry; exact Hx
           | intros [[] | Hx]; left; symmetry; exact Hx].
  - destruct (eqb k' k) eqn:Hk; simpl.
    + apply eqb_eq in Hk. subst k'.
      split; [intros [Hx | Hx]; left; [left | right]; exact Hx |].
      intros [[Hx | Hx] | Hx]; [left; exact Hx | right; exact Hx |].
      left. symmetry. exact Hx.
    + rewrite IH. tauto.
Qed.

Lemma setitem_NoDup (d : list (K * V)) (k : K) (v : V) :
  NoDup (map fst d) -> NoDup (map fst (Analysis.setitem eqb d k v)).
Proof.
  induction d as [| [k' v'] d IH]; simpl; intros Hd.
  - constructor; [intros [] | constructor].
  - inversion Hd as [| ? ? Hnotin Hrest]; subst.
    destruct (eqb k' k) eqn:Hk; simpl.
    + constructor; assumption.
    + constructor; [| apply IH; exact Hrest].
      rewrite setitem_keys. intros [Hin | Heq]; [exact (Hnotin Hin) |].
      subst k'.
      assert (Htrue : eqb k k = true) by (apply eqb_eq; reflexivity).
      rewrite Htrue in Hk. discriminate Hk.
Qed.

Lemma setitem_fresh (d : list (K * V)) (k : K) (v : V) :
  ~ In k (map fst d) -> Analysis.setitem eqb d k v = d ++ [(k, v)].
Proof.
  induction d as [| [k' v'] d IH]; simpl; intros Hk; [reflexivity |].
  destruct (eqb k' k) eqn:Heq.
  - apply eqb_eq in Heq. exfalso. apply Hk. left. exact Heq.
  - rewrite IH; [reflexivity | intros Hin; apply Hk; right; exact Hin].
Qed.

Lemma setitem_stored (d : list (K * V)) (k : K) (v : V) :
  In (k, v) (Analysis.setitem eqb d k v).
Proof.
  induction d as [| [k' v'] d IH]; simpl; [left; reflexivity |].
  destruct (eqb k' k) eqn:Heq.
  - apply eqb_eq in Heq. subst k'. left. reflexivity.
  - right. exact IH.
Qed.

Lemma setitem_kept (d : list (K * V)) (k : K) (v : V) (x : K * V) :
  In x d -> fst x <> k -> In x (Analysis.setitem eqb d k v).
Proof.
  induction d as [| [k' v'] d IH]; simpl; [intros [] |].
  intros [Hx | Hx] Hne.
  - subst x. simpl in Hne.
    destruct (eqb k' k) eqn:Heq; [| left; reflexivity].
    apply eqb_eq in Heq. contradiction.
  - destruct (eqb k' k); right; [exact Hx | apply IH; assumption].
Qed.

Lemma fold_setitem_elements (pairs acc : list (K * V)) (x : K * V) :
  In x (fold_left step pairs acc) -> In x acc \/ In x pairs.
Proof.
  revert acc.
  induction pairs as [| kv pairs IH]; simpl; intros acc Hx; [left; exact Hx |].
  destruct (IH _ Hx) as [Hacc | Hlater]; [| right; right; exact Hlater].
  destruct (setitem_elements _ _ _ _ Hacc) as [Hold | Hnew];
    [left; exact Hold | right; left].
  rewrite Hnew. destruct kv; reflexivity.
Qed.

Lemma fold_setitem_NoDup (pairs acc : list (K * V)) :
  NoDup (map fst acc) -> NoDup (map fst (fold_left step pairs acc)).
Proof.
  revert acc.
  induction pairs as [| kv pairs IH]; simpl; intros acc Hacc; [exact Hacc |].
  apply IH. apply setitem_NoDup. exact Hacc.
Qed.

(** Pairs with keys that differ from each other and from the keys already
    stored are appended in order. *)
Lemma fold_setitem_distinct (pairs acc : list (K * V)) :
  NoDup (map fst pairs) ->
  (forall k, In k (map fst pairs) -> ~ In k (map fst acc)) ->
  fold_left step pairs acc = acc ++ pairs.
Proof.
  revert acc.
  induction pairs as [| [k v] pairs IH]; simpl; intros acc Hnodup Hfresh.
  - rewrite app_nil_r. reflexivity.
  - inversion Hnodup as [| ? ? Hnotin Hrest]; subst.
    unfold step at 2. simpl.
    rewrite setitem_fresh by (apply Hfresh; left; reflexivity).
    rewrite IH.
    + rewrite <- app_assoc. reflexivity.
    + exact Hrest.
    + intros k0 Hk0. rewrite map_app, in_app_iff. simpl.
      intros [Hin | [Heq | []]].
      * exact (Hfresh k0 (or_intror Hk0) Hin).
      * subst k0. exact (Hnotin Hk0).
Qed.

Lemma dict_distinct (pairs : list (K * V)) :
  NoDup (map fst pairs) -> Analysis.dict eqb pairs = pairs.
Proof.
  intros Hnodup. unfold Analysis.dict.
  change (fold_left step pairs [] = pairs).
  rewrite fold_setitem_distinct; [reflexivity | exact Hnodup |].
  intros k _ [].
Qed.

Lemma dict_NoDup (pairs : list (K * V)) :
  NoDup (map fst (Analysis.dict eqb pairs)).
Proof.
  unfold Analysis.dict.
  change (NoDup (map fst (fold_left step pairs []))).
  apply fold_setitem_NoDup. constructor.
Qed.

Lemma dict_elements (pairs : list (K * V)) (x : K * V) :
  In x (Analysis.dict eqb pairs) -> In x pairs.
Proof.
  intros Hx.
  destruct (fold_setitem_elements pairs [] x Hx) as [[] | Hin]. exact Hin.
Qed.

Lemma fold_setitem_kept (pairs acc : list (K * V)) (x : K * V) :
  In x acc -> ~ In (fst x) (map fst pairs) -> In x (fold_left step pairs acc).
Proof.
  revert acc.
  induction pairs as [| kv pairs IH]; simpl; intros acc Hx Hk; [exact Hx |].
  apply IH; [| intros Hin; apply Hk; right; exact Hin].
  apply setitem_kept; [exact Hx |].
  intros Heq. apply Hk. left. symmetry. exact Heq.
Qed.

(** The last pair of a key is the one that is stored. *)
Lemma dict_last (before after : list (K * V)) (k : K) (v : V) :
  ~ In k (map fst after) ->
  In (k, v) (Analysis.dict eqb (before ++ (k, v) :: after)).
Proof.
  intros Hk. unfold Analysis.dict.
  change (In (k, v) (fold_left step (before ++ (k, v) :: after) [])).
  rewrite fold_left_app. simpl.
  apply fold_setitem_kept; [apply setitem_stored | exact Hk].
Qed.

End DictLemmas.

Lemma key_eqb_eq (a b : Analysis.key) : Analysis.key_eqb a b = true <-> a = b.
Proof.
  destruct a as [s | i], b as [t | j]; simpl.
  - rewrite String.eqb_eq. split; [intros ->; reflexivity | intros [= ->]; reflexivity].
  - split; discriminate.
  - split; discriminate.
  - rewrite Z.eqb_eq. split; [intros ->; reflexivity | intros [= ->]; reflexivity].
Qed.

(** Induction on a nested dictionary, with the property for every value
    stored in it. *)
Section ValueInduction.

Variables K A : Type.
Variable P : Analysis.value K A -> Prop.
Hypothesis P_leaf : forall a, P (Analysis.Leaf a).
Hypothesis P_dict :
  forall items, Forall (fun kv => P (snd kv)) items -> P (Analysis.Dict items).

Fixpoint value_induction (v : Analysis.value K A) : P v :=
  match v with
  | Analysis.Leaf a => P_leaf a
  | Analysis.Dict items =>
      P_dict
        ((fix all (items : list (K * Analysis.value K A))
            : Forall (fun kv => P (snd kv)) items :=
            match items with
            | [] => Forall_nil _
            | kv :: rest => Forall_cons kv (value_induction (snd kv)) (all rest)
            end) items)
  end.

End ValueInduction.

Section CastKeysProperties.

Variable A : Type.
Variable int_of_str : string -> option Z.

(** What the loop stores for one item: the key as an integer where [int]
    accepts it, the value with its own keys cast where it is a dictionary. *)
Definition casted_key (k : Analysis.key) : Analysis.key :=
  match Analysis.int_ int_of_str k with
  | Returned i => Analysis.KInt i
  | Raised _ => k
  end.

Definition casted_val (v : Analysis.value Analysis.key A)
  : Analysis.value Analysis.key A :=
  match Analysis.cast_keys_as_int int_of_str v with
  | Returned v' => v'
  | Raised _ => v
  end.

Definition casted_item (kv : Analysis.key * Analysis.value Analysis.key A) :=
  (casted_key (fst kv), casted_val (snd kv)).

Lemma casted_key_twice (k : Analysis.key) :
  casted_key (casted_key k) = casted_key k.
Proof.
  destruct k as [s | i]; unfold casted_key; simpl; [| reflexivity].
  destruct (int_of_str s) eqn:Hs; simpl; [reflexivity | rewrite Hs; reflexivity].
Qed.

Lemma except_casted_key (k : Analysis.key) :
  Analysis.except (i <- Analysis.int_ int_of_str k ;; Returned (Analysis.KInt i))
                  ValueError (Returned k)
  = Returned (casted_key k).
Proof.
  destruct k as [s | i]; unfold casted_key; simpl; [| reflexivity].
  destruct (int_of_str s); reflexivity.
Qed.

Lemma cast_dict_unfold (items : list (Analysis.key * Analysis.value Analysis.key A)) :
  Analysis.cast_keys_as_int int_of_str (Analysis.Dict items)
  = (casted_dictionary <-
       fold_left
         (fun state kv =>
            casted_dictionary <- state ;;
            val <- Analysis.except (Analysis.cast_keys_as_int int_of_str (snd kv))
                                   AttributeError (Returned (snd kv)) ;;
            key <- Analysis.except
                     (i <- Analysis.int_ int_of_str (fst kv) ;;
                      Returned (Analysis.KInt i))
                     ValueError (Returned (fst kv)) ;;
            Returned (Analysis.setitem Analysis.key_eqb casted_dictionary key val))
         items (Returned []) ;;
     Returned (Analysis.Dict casted_dictionary)).
Proof. reflexivity. Qed.

(** A call on a dictionary returns; the only error of a call is the
    [AttributeError] of a value that is no dictionary, which the caller
    handles. *)
Lemma cast_keys_as_int_dict :
  forall v : Analysis.value Analysis.key A,
    match v with
    | Analysis.Leaf _ =>
        Analysis.cast_keys_as_int int_of_str v = Raised AttributeError
    | Analysis.Dict items =>
        Analysis.cast_keys_as_int int_of_str v
        = Returned (Analysis.Dict
                      (Analysis.dict Analysis.key_eqb (map casted_item items)))
    end.
Proof.
  apply value_induction; [reflexivity |].
  intros items Hitems.
  rewrite cast_dict_unfold. unfold Analysis.dict.
  generalize (@nil (Analysis.key * Analysis.value Analysis.key A)) as acc.
  induction Hitems as [| kv items Hkv _ IH]; intros acc; [reflexivity |].
  simpl fold_left. simpl map.
  rewrite except_casted_key.
  assert (Hval :
            Analysis.except (Analysis.cast_keys_as_int int_of_str (snd kv))
                            AttributeError (Returned (snd kv))
            = Returned (casted_val (snd kv))).
  { unfold casted_val. destruct (snd kv); rewrite Hkv; reflexivity. }
  rewrite Hval. simpl bind. apply IH.
Qed.

Lemma cast_keys_as_int_returns
    (items : list (Analysis.key * Analysis.value Analysis.key A)) :
  Analysis.cast_keys_as_int int_of_str (Analysis.Dict items)
  = Returned (Analysis.Dict
                (Analysis.dict Analysis.key_eqb (map casted_item items))).
Proof. exact (cast_keys_as_int_dict (Analysis.Dict items)). Qed.

Lemma casted_val_dict
    (items : list (Analysis.key * Analysis.value Analysis.key A)) :
  casted_val (Analysis.Dict items)
  = Analysis.Dict (Analysis.dict Analysis.key_eqb (map casted_item items)).
Proof. unfold casted_val. rewrite cast_keys_as_int_returns. reflexivity. Qed.

Lemma casted_val_twice (v : Analysis.value Analysis.key A) :
  casted_val (casted_val v) = casted_val v.
Proof.
  revert v. apply value_induction; [reflexivity |].
  intros items Hitems.
  rewrite (casted_val_dict items).
  set (stored := Analysis.dict Analysis.key_eqb (map casted_item items)).
  rewrite (casted_val_dict stored).
  f_equal.
  assert (Hfixed : map casted_item stored = stored).
  { rewrite <- (map_id stored) at 2. apply map_ext_in.
    intros x Hx. apply (@dict_elements _ _ _ key_eqb_eq) in Hx.
    apply in_map_iff in Hx. destruct Hx as [kv [<- Hkv]].
    rewrite Forall_forall in Hitems. specialize (Hitems kv Hkv).
    unfold casted_item. simpl. rewrite casted_key_twice, Hitems. reflexivity. }
  rewrite Hfixed. apply (@dict_distinct _ _ _ key_eqb_eq). apply (@dict_NoDup _ _ _ key_eqb_eq).
Qed.

End CastKeysProperties.

(** X24.  [cast_keys_as_int] returns on every dictionary, and casting the
    keys of its result changes nothing. *)
Theorem cast_keys_as_int_idempotent (A : Type) (int_of_str : string -> option Z)
    (items : list (Analysis.key * Analysis.value Analysis.key A)) :
  exists casted,
    Analysis.cast_keys_as_int int_of_str (Analysis.Dict items) = Returned casted
    /\ Analysis.cast_keys_as_int int_of_str casted = Returned casted.
Proof.
  eexists. split; [apply cast_keys_as_int_returns |].
  pose proof (casted_val_twice int_of_str (Analysis.Dict items)) as Htwice.
  rewrite (casted_val_dict int_of_str items) in Htwice.
  rewrite casted_val_dict in Htwice.
  rewrite cast_keys_as_int_returns. f_equal. exact Htwice.
Qed.

(** X25.  When the keys of a dictionary still differ from each other after
    the cast, the result has one item for each item of the argument, in the
    same order: its key cast, its value cast. *)
Theorem cast_keys_as_int_without_collision (A : Type)
    (int_of_str : string -> option Z)
    (items : list (Analysis.key * Analysis.value Analysis.key A)) :
  NoDup (map (fun kv => casted_key int_of_str (fst kv)) items) ->
  Analysis.cast_keys_as_int int_of_str (Analysis.Dict items)
  = Returned (Analysis.Dict (map (casted_item int_of_str) items)).
Proof.
  intros Hnodup.
  rewrite cast_keys_as_int_returns.
  rewrite (@dict_distinct _ _ _ key_eqb_eq); [reflexivity |].
  rewrite map_map. exact Hnodup.
Qed.

(** X26.  When several keys of a dictionary are cast to the same key, the
    value of the last of them is the one in the result: an item is in the
    result, cast, whenever no later item has the same key after the cast. *)
Theorem cast_keys_as_int_last_wins (A : Type) (int_of_str : string -> option Z)
    (before after : list (Analysis.key * Analysis.value Analysis.key A))
    (k : Analysis.key) (v : Analysis.value Analysis.key A) :
  ~ In (casted_key int_of_str k)
       (map (fun kv => casted_key int_of_str (fst kv)) after) ->
  exists casted,
    Analysis.cast_keys_as_int int_of_str (Analysis.Dict (before ++ (k, v) :: after))
    = Returned (Analysis.Dict casted)
    /\ NoDup (map fst casted)
    /\ In (casted_key int_of_str k, casted_val int_of_str v) casted.
Proof.
  intros Hlast.
  rewrite cast_keys_as_int_returns.
  eexists. split; [reflexivity |]. split; [apply (@dict_NoDup _ _ _ key_eqb_eq) |].
  rewrite map_app. simpl map.
  apply (@dict_last _ _ _ key_eqb_eq). rewrite map_map. exact Hlast.
Qed.

(** A dictionary as a JSON file gives it: the keys are strings. *)
Definition counts_by_step
  : list (Analysis.key * Analysis.value Analysis.key nat) :=
  [(Analysis.KStr "1", Analysis.Leaf 5%nat);
   (Analysis.KStr "best",
    Analysis.Dict [(Analysis.KStr "20", Analysis.Leaf 7%nat)])].

Lemma cast_keys_as_int_without_collision_witness :
  NoDup (map (fun kv => casted_key Analysis.decimal (fst kv)) counts_by_step)
  /\ Analysis.cast_keys_as_int Analysis.decimal (Analysis.Dict counts_by_step)
     = Returned
         (Analysis.Dict
            [(Analysis.KInt 1, Analysis.Leaf 5%nat);
             (Analysis.KStr "best",
              Analysis.Dict [(Analysis.KInt 20, Analysis.Leaf 7%nat)])]).
Proof.
  assert (Hkeys : NoDup (map (fun kv => casted_key Analysis.decimal (fst kv))
                             counts_by_step)).
  { repeat constructor; simpl; intuition discriminate. }
  split; [exact Hkeys |].
  exact (cast_keys_as_int_without_collision Analysis.decimal counts_by_step Hkeys).
Defined.

Definition later_items
  : list (Analysis.key * Analysis.value Analysis.key nat) :=
  [(Analysis.KStr "best", Analysis.Leaf 7%nat)].

Lemma cast_keys_as_int_last_wins_witness :
  ~ In (casted_key Analysis.decimal (Analysis.KInt 1))
       (map (fun kv => casted_key Analysis.decimal (fst kv)) later_items)
  /\ exists casted,
       Analysis.cast_keys_as_int Analysis.decimal
         (Analysis.Dict ([(Analysis.KStr "1", Analysis.Leaf 5%nat)]
                         ++ (Analysis.KInt 1, Analysis.Leaf 6%nat)
                            :: later_items))
       = Returned (Analysis.Dict casted)
       /\ NoDup (map fst casted)
       /\ In (casted_key Analysis.decimal (Analysis.KInt 1),
              casted_val Analysis.decimal (Analysis.Leaf 6%nat))
             casted.
Proof.
  assert (Hlast : ~ In (casted_key Analysis.decimal (Analysis.KInt 1))
                       (map (fun kv => casted_key Analysis.decimal (fst kv))
                            later_items)).
  { simpl. intuition discriminate. }
  split; [exact Hlast |].
  exact (cast_keys_as_int_last_wins Analysis.decimal
           [(Analysis.KStr "1", Analysis.Leaf 5%nat)] later_items
           (Analysis.KInt 1) (Analysis.Leaf 6%nat) Hlast).
Defined.

(** Two keys that are cast to the same integer leave one item. *)
Example cast_keys_as_int_collision :
  Analysis.cast_keys_as_int Analysis.decimal
    (Analysis.Dict [(Analysis.KStr "1", Analysis.Leaf 5%nat);
                    (Analysis.KStr "01", Analysis.Leaf 6%nat)])
  = Returned (Analysis.Dict [(Analysis.KInt 1, Analysis.Leaf 6%nat)]).
Proof. reflexivity. Qed.

(** ** [analyses/analysis.py]: the flattened configuration *)

Lemma string_append_cancel (p a b : string) :
  String.append p a = String.append p b -> a = b.
Proof.
  induction p as [| c p IH]; simpl; intros Heq; [exact Heq |].
  apply IH. congruence.
Qed.

(** What follows a key in a flattened key: nothing, or a ["."] and the rest
    of the path. *)
Definition path_tail (tail : string) : Prop :=
  tail = EmptyString \/ exists t, tail = String.append "." t.

Lemma dot_free_component (k k' tail tail' : string) :
  Analysis.dot_free k = true -> Analysis.dot_free k' = true ->
  path_tail tail -> path_tail tail' ->
  String.append k tail = String.append k' tail' -> k = k'.
Proof.
  revert k'.
  induction k as [| c k IH]; intros k' Hk Hk' Ht Ht' Heq.
  - destruct k' as [| c' k']; [reflexivity |].
    simpl in Heq, Hk'. destruct Ht as [-> | [t ->]]; [discriminate Heq |].
    simpl in Heq. injection Heq as Hc _. subst c'.
    simpl in Hk'. discriminate Hk'.
  - destruct k' as [| c' k'].
    + simpl in Heq, Hk. destruct Ht' as [-> | [t ->]]; [discriminate Heq |].
      simpl in Heq. injection Heq as Hc _. subst c.
      simpl in Hk. discriminate Hk.
    + simpl in Heq, Hk, Hk'. injection Heq as Hc Hrest. subst c'.
      apply andb_prop in Hk. apply andb_prop in Hk'.
      f_equal. apply (IH k'); tauto.
Qed.

Lemma distinct_NoDup (keys : list string) :
  Analysis.distinct keys = true -> NoDup keys.
Proof.
  induction keys as [| k keys IH]; simpl; intros Hd; [constructor |].
  apply andb_prop in Hd. destruct Hd as [Hk Hrest].
  constructor; [| apply IH; exact Hrest].
  intros Hin.
  assert (Hfound : existsb (String.eqb k) keys = true).
  { apply existsb_exists. exists k. split; [exact Hin | apply String.eqb_refl]. }
  rewrite Hfound in Hk. discriminate Hk.
Qed.

Lemma NoDup_append {T : Type} (xs ys : list T) :
  NoDup xs -> NoDup ys -> (forall x, In x xs -> ~ In x ys) -> NoDup (xs ++ ys).
Proof.
  induction xs as [| x xs IH]; simpl; intros Hxs Hys Hdisjoint; [exact Hys |].
  inversion Hxs as [| ? ? Hnotin Hrest]; subst.
  constructor.
  - rewrite in_app_iff. intros [Hin | Hin]; [exact (Hnotin Hin) |].
    exact (Hdisjoint x (or_introl eq_refl) Hin).
  - apply IH; [exact Hrest | exact Hys |].
    intros y Hy. apply Hdisjoint. right. exact Hy.
Qed.

Section FlattenedConfig.

Variable A : Type.

(** The pairs of one item: of a leaf, the pair of its key; of a dictionary,
    the pairs of the recursive call. *)
Definition yielded_for (prefix : string) (kv : string * Analysis.value string A)
  : outcome (list (string * A)) :=
  match snd kv with
  | Analysis.Dict _ =>
      Analysis.iterate_with_prefix (snd kv)
        (String.append prefix (String.append (fst kv) "."))
  | Analysis.Leaf a => Returned [(String.append prefix (fst kv), a)]
  end.

Lemma iterate_with_prefix_items (items : list (string * Analysis.value string A))
    (prefix : string) :
  Analysis.iterate_with_prefix (Analysis.Dict items) prefix
  = fold_right
      (fun kv later =>
         yielded <- yielded_for prefix kv ;;
         rest <- later ;;
         Returned (yielded ++ rest))
      (Returned []) items.
Proof. reflexivity. Qed.

(** The generator runs to its end on every dictionary with plain keys, and
    no key is yielded twice: every key is the prefix, the key of an item,
    and the rest of its path. *)
Lemma iterate_with_prefix_plain :
  forall (v : Analysis.value string A) (prefix : string),
    Analysis.plain_keys v = true ->
    match v with
    | Analysis.Leaf _ => True
    | Analysis.Dict items =>
        exists pairs,
          Analysis.iterate_with_prefix v prefix = Returned pairs
          /\ NoDup (map fst pairs)
          /\ forall key, In key (map fst pairs) ->
               exists k tail,
                 In k (map fst items) /\ path_tail tail
                 /\ key = String.append prefix (String.append k tail)
    end.
Proof.
  intros v. pattern v. revert v.
  apply value_induction; [intros; exact I |].
  intros items Hitems prefix Hplain.
  rewrite iterate_with_prefix_items.
  simpl in Hplain. apply andb_prop in Hplain. destruct Hplain as [Hdistinct Hplain].
  apply distinct_NoDup in Hdistinct.
  rewrite forallb_forall in Hplain.
  assert (Hdot : forall kv, In kv items -> Analysis.dot_free (fst kv) = true).
  { intros kv Hkv. specialize (Hplain kv Hkv). apply andb_prop in Hplain. tauto. }
  assert (Hsub : forall kv, In kv items -> Analysis.plain_keys (snd kv) = true).
  { intros kv Hkv. specialize (Hplain kv Hkv). apply andb_prop in Hplain. tauto. }
  clear Hplain.
  induction Hitems as [| kv items Hkv _ IH].
  - exists []. repeat split; [constructor | intros key []].
  - inversion Hdistinct as [| ? ? Hnotin Hrest]; subst.
    destruct (IH Hrest (fun x Hx => Hdot x (or_intror Hx))
                 (fun x Hx => Hsub x (or_intror Hx)))
      as [rest_pairs [Hrest_eq [Hrest_nodup Hrest_form]]].
    assert (Hhead :
              exists pairs,
                yielded_for prefix kv = Returned pairs
                /\ NoDup (map fst pairs)
                /\ forall key, In key (map fst pairs) ->
                     exists tail,
                       path_tail tail
                       /\ key = String.append prefix (String.append (fst kv) tail)).
    { unfold yielded_for. destruct (snd kv) as [a | sub] eqn:Hvalue.
      - eexists. split; [reflexivity |]. split.
        + simpl. constructor; [intros [] | constructor].
        + simpl. intros key [<- | []]. exists EmptyString.
          split; [left; reflexivity |].
          f_equal. clear. induction (fst kv); simpl; congruence.
      - specialize (Hkv (String.append prefix (String.append (fst kv) "."))).
        destruct Hkv as [pairs [Hpairs [Hnodup Hform]]].
        { rewrite <- Hvalue. apply Hsub. left. reflexivity. }
        exists pairs. split; [exact Hpairs |]. split; [exact Hnodup |].
        intros key Hkey. destruct (Hform key Hkey) as [k [tail [_ [_ ->]]]].
        exists (String.append "." (String.append k tail)).
        split; [right; eexists; reflexivity |].
        rewrite !string_append_assoc. reflexivity. }
    destruct Hhead as [pairs [Hpairs [Hnodup Hform]]].
    exists (pairs ++ rest_pairs).
    split; [simpl fold_right; rewrite Hpairs, Hrest_eq; reflexivity |].
    split.
    + rewrite map_app. apply NoDup_append; [exact Hnodup | exact Hrest_nodup |].
      intros key Hkey Hlater.
      destruct (Hform key Hkey) as [tail [Htail Hkey_eq]].
      destruct (Hrest_form key Hlater) as [k' [tail' [Hk' [Htail' Hkey_eq']]]].
      rewrite Hkey_eq in Hkey_eq'.
      apply string_append_cancel in Hkey_eq'.
      assert (Hsame : fst kv = k').
      { assert (Hdot' : Analysis.dot_free k' = true).
        { apply in_map_iff in Hk'. destruct Hk' as [kv' [<- Hkv']].
          apply Hdot. right. exact Hkv'. }
        exact (@dot_free_component (fst kv) k' tail tail'
                 (Hdot kv (or_introl eq_refl)) Hdot' Htail Htail' Hkey_eq'). }
      apply Hnotin. rewrite Hsame. exact Hk'.
    + intros key Hkey. rewrite map_app, in_app_iff in Hkey.
      destruct Hkey as [Hkey | Hkey].
      * destruct (Hform key Hkey) as [tail [Htail ->]].
        exists (fst kv), tail. split; [left; reflexivity | split; [exact Htail | reflexivity]].
      * destruct (Hrest_form key Hkey) as [k' [tail' [Hk' [Htail' ->]]]].
        exists k', tail'. split; [right; exact Hk' | split; [exact Htail' | reflexivity]].
Qed.

End FlattenedConfig.

(** X27.  For a configuration in which, at every level, the keys differ
    from each other and have no ["."] in them, flattening loses nothing:
    the generator runs to its end, no flattened key is yielded twice, and
    [config_dict] holds every yielded pair, in the order of the generator. *)
Theorem config_dict_keeps_every_leaf (A : Type)
    (items : list (string * Analysis.value string A)) :
  Analysis.plain_keys (Analysis.Dict items) = true ->
  exists pairs,
    Analysis.iterate_with_prefix (Analysis.Dict items) "config." = Returned pairs
    /\ NoDup (map fst pairs)
    /\ Analysis.config_dict (Analysis.Dict items) = Returned pairs.
Proof.
  intros Hplain.
  destruct (iterate_with_prefix_plain (Analysis.Dict items) "config." Hplain)
    as [pairs [Hpairs [Hnodup _]]].
  exists pairs. split; [exact Hpairs |]. split; [exact Hnodup |].
  unfold Analysis.config_dict. rewrite Hpairs. simpl bind.
  f_equal. apply dict_distinct; [| exact Hnodup].
  intros a b. apply String.eqb_eq.
Qed.

Definition small_config : list (string * Analysis.value string nat) :=
  [("rng_seed"%string, Analysis.Leaf 0%nat);
   ("focus_predictor"%string,
    Analysis.Dict [("latent_size"%string, Analysis.Leaf 128%nat);
                   ("num_layers"%string, Analysis.Leaf 2%nat)]);
   ("loss_kwargs"%string, Analysis.Dict [])].

Lemma config_dict_keeps_every_leaf_witness :
  Analysis.plain_keys (Analysis.Dict small_config) = true
  /\ exists pairs,
       Analysis.iterate_with_prefix (Analysis.Dict small_config) "config."
       = Returned pairs
       /\ NoDup (map fst pairs)
       /\ Analysis.config_dict (Analysis.Dict small_config) = Returned pairs.
Proof.
  assert (Hplain : Analysis.plain_keys (Analysis.Dict small_config) = true)
    by reflexivity.
  split; [exact Hplain |].
  exact (config_dict_keeps_every_leaf small_config Hplain).
Defined.

(** A key with a ["."] in it can hide another entry, and an empty
    dictionary leaves no entry. *)
Example config_dict_dotted_key :
  Analysis.config_dict
    (Analysis.Dict [("a.b"%string, Analysis.Leaf 1%nat);
                    ("a"%string, Analysis.Dict [("b"%string, Analysis.Leaf 2%nat)]);
                    ("c"%string, Analysis.Dict [])])
  = Returned [("config.a.b"%string, 2%nat)].
Proof. reflexivity. Qed.
